(** * View geometry of ATen tensors: a shallow embedding of
      aten/src/ATen/native/TensorShape.cpp

    The file embeds the shape and view arithmetic of TensorShape.cpp
    (select, slice, narrow, split, split_with_sizes, chunk, infer_size,
    unsqueeze, permute, transpose, expand, and further diagonal, squeeze,
    unbind, t, flatten, stack) as executable functions over lists of 64-bit
    integers, and proves the properties the specification states about
    them, followed by further properties that the code shows.

    Conventions.
    - [int64_t] values are integers of [Z]; every arithmetic operation of the
      source goes through [Int64.add], [Int64.sub], [Int64.mul], ... which
      reduce the exact result to the two's-complement range.
    - [std::vector<int64_t>] and [IntList] are [list Z]; [v[i]] is the total
      lookup [v !!! Z.to_nat i], [v[i] = x] is [<[Z.to_nat i := x]> v].
    - loop counters, which only range over the positions of a vector, are
      kept exact.
    - [dim] is the rank [self.dim()]; a parameter that the source calls
      [dim] is written [d].
    - a [throw], [AT_ERROR] or failed [AT_CHECK] is [Err k], with [k] the
      error kind the specification gives to that failure. *)

From Stdlib Require Import ZArith Lia List Bool.
From stdpp Require Import base list.
Import ListNotations.
Local Open Scope Z_scope.

(** ** 64-bit signed arithmetic *)

Module Int64.

Definition half_modulus : Z := 9223372036854775808.
Definition modulus : Z := 18446744073709551616.
Definition min_signed : Z := - half_modulus.
Definition max_signed : Z := half_modulus - 1.

(** The value an [int64_t] holds after an operation whose exact result
    is [z]. *)
Definition wrap (z : Z) : Z := (z + half_modulus) mod modulus - half_modulus.

Definition representable (z : Z) : Prop := min_signed <= z <= max_signed.

Definition add (a b : Z) : Z := wrap (a + b).
Definition sub (a b : Z) : Z := wrap (a - b).
Definition mul (a b : Z) : Z := wrap (a * b).
Definition neg (a : Z) : Z := wrap (- a).
(** C++ [/] and [%] truncate towards zero. *)
Definition div (a b : Z) : Z := wrap (Z.quot a b).
Definition rem (a b : Z) : Z := Z.rem a b.

End Int64.

(** ** Failures *)

Inductive Error : Type :=
| InvalidDimension
| RepeatedDimension
| IndexOutOfRange
| NonPositiveStep
| ShapeMismatch
| InvalidShapeDimension
| ZeroDimTensorError
| EmptyTensorError
(** [split] and [split_with_sizes] reject a negative split size, [split] a
    zero split size on a non-empty dimension and [chunk] a number of chunks
    that is not positive; the specification lists no kind of its own for
    these. *)
| InvalidSplitSize.

Inductive result (A : Type) : Type :=
| Ok (a : A)
| Err (e : Error).
Arguments Ok {A} a.
Arguments Err {A} e.

Definition bind {A B : Type} (m : result A) (k : A -> result B) : result B :=
  match m with
  | Ok a => k a
  | Err e => Err e
  end.

Notation "'let*' x ':=' m 'in' k" := (bind m (fun x => k))
  (at level 10, x name, m at level 100, k at level 200, only parsing).
Notation "'let*' ' p ':=' m 'in' k" :=
  (bind m (fun x => match x with p => k end))
  (at level 10, p pattern, m at level 100, k at level 200, only parsing).

Definition succeeds {A : Type} (m : result A) : Prop := exists a, m = Ok a.
Definition fails {A : Type} (m : result A) : Prop := exists e, m = Err e.

(** ** Tensor handles *)

(** The geometry of a handle. The storage itself plays no part in the
    computations of this file; a handle built by [as_strided] shares the
    storage of the handle it is built from. *)
Record Tensor : Type := mkTensor {
  sizes : list Z;
  strides : list Z;
  storage_offset : Z;
  is_sparse : bool
}.

(** What a view operation hands back: a view on the storage of [self], or
    the fresh tensor without elements that [self.type().tensor()] creates. *)
Inductive Handle : Type :=
| View (t : Tensor)
| EmptyTensor.

(** [self.dim()] *)
Definition dim (self : Tensor) : Z := Z.of_nat (length (sizes self)).

Definition prod_intlist (l : list Z) : Z := foldr Z.mul 1 l.

(** Modelled from the spec: [Tensor::numel] is not part of this file; the
    data model gives [numel = product(sizes)], 1 for a 0-rank tensor and 0 as
    soon as one size is 0. *)
Definition numel (self : Tensor) : Z := prod_intlist (sizes self).

(** Modelled from the spec: the build macro USE_TH_SIZE_ZERO_DIM is set
    outside this file; the specification describes the build that leaves it
    undefined (narrow rejects a zero length, unsqueeze rejects an empty
    tensor, infer_size collapses zero-element shapes). *)
Definition USE_TH_SIZE_ZERO_DIM : bool := false.

(** Modelled from the spec: [maybe_wrap_dim] of ATen/WrapDimUtils.h is not
    part of this file. The Dimension Normalizer returns [d + rank] if
    [d < 0], else [d], and fails with InvalidDimension if the result is
    negative or not below [max(rank, 1)]. *)
Definition maybe_wrap_dim (d dim_post_expr : Z) : result Z :=
  let d' := if d <? 0 then d + dim_post_expr else d in
  if (d' <? 0) || (Z.max dim_post_expr 1 <=? d') then Err InvalidDimension
  else Ok d'.

(** Modelled from the spec: [Tensor::size(dim)] is not part of this file; it
    resolves [dim] through the Dimension Normalizer and reads [sizes]. *)
Definition size (self : Tensor) (d : Z) : result Z :=
  let* d' := maybe_wrap_dim d (dim self) in
  Ok (sizes self !!! Z.to_nat d').

(** Modelled from the spec: the raw geometry setter [Tensor::as_strided] is
    not part of this file; the View Factory builds a handle on the storage
    of [self] with the computed geometry. *)
Definition as_strided3 (self : Tensor) (size stride : list Z)
    (storage_offset : Z) : Tensor :=
  {| sizes := size; strides := stride; storage_offset := storage_offset;
     is_sparse := is_sparse self |}.

(** [as_strided(self, size, stride)], lines 138-140. *)
Definition as_strided (self : Tensor) (size stride : list Z) : Tensor :=
  as_strided3 self size stride (storage_offset self).

(** [v.erase(v.begin() + i)] *)
Definition erase (v : list Z) (i : Z) : list Z := delete (Z.to_nat i) v.

(** [v.insert(v.begin() + i, x)] *)
Definition insert_at (v : list Z) (i : Z) (x : Z) : list Z :=
  take (Z.to_nat i) v ++ x :: drop (Z.to_nat i) v.

(** ** select, lines 272-292 *)

Definition select (self : Tensor) (d index : Z) : result Tensor :=
  let ndim := dim self in
  if negb (0 <? ndim) then Err ZeroDimTensorError else
  let* d := maybe_wrap_dim d ndim in
  let* size := size self d in
  if (index <? Int64.neg size) || (size <=? index) then Err IndexOutOfRange else
  let index := if index <? 0 then Int64.add index size else index in
  let sizes' := sizes self in
  let strides' := strides self in
  let storage_offset :=
    Int64.add (storage_offset self)
              (Int64.mul index (strides' !!! Z.to_nat d)) in
  Ok (as_strided3 self (erase sizes' d) (erase strides' d) storage_offset).

(** ** slice, lines 294-331 *)

Definition slice (self : Tensor) (d start end_ step : Z) : result Handle :=
  let ndim := dim self in
  if negb (0 <? ndim) then Err ZeroDimTensorError else
  let* d := maybe_wrap_dim d ndim in
  let sizes' := sizes self in
  let strides' := strides self in
  if step <=? 0 then Err NonPositiveStep else
  let size_d := sizes' !!! Z.to_nat d in
  let start := if start <? 0 then Int64.add start size_d else start in
  let end_ := if end_ <? 0 then Int64.add end_ size_d else end_ in
  let start := if start <? 0 then 0
               else if size_d <=? start then size_d else start in
  let end_ := if end_ <? start then start
              else if size_d <=? end_ then size_d else end_ in
  let storage_offset :=
    Int64.add (storage_offset self)
              (Int64.mul start (strides' !!! Z.to_nat d)) in
  let len := Int64.sub end_ start in
  if negb USE_TH_SIZE_ZERO_DIM && (len =? 0) then Ok EmptyTensor else
  let sizes' :=
    <[Z.to_nat d := Int64.div (Int64.sub (Int64.add len step) 1) step]>
      sizes' in
  let strides' :=
    <[Z.to_nat d := Int64.mul (strides' !!! Z.to_nat d) step]> strides' in
  Ok (View (as_strided3 self sizes' strides' storage_offset)).

(** ** narrow, lines 146-160 *)

Definition narrow (self : Tensor) (d start length : Z) : result Handle :=
  if negb (0 <? dim self) then Err ZeroDimTensorError else
  let* cur_size := size self d in
  if start <? 0 then Err IndexOutOfRange else
  if ((if USE_TH_SIZE_ZERO_DIM then length <? 0 else length <=? 0)
      || (Int64.sub cur_size length <? start))%bool
  then Err IndexOutOfRange
  else slice self d start (Int64.add start length) 1.

(** ** split, lines 333-355 *)

(** The [for] loop of [split]: [n] iterations are left, [i] is the loop
    counter. A failing [narrow] aborts the whole call. *)
Fixpoint split_loop (self : Tensor)
    (d split_size last_split_size num_splits : Z) (n : nat) (i : Z)
    : result (list Handle) :=
  match n with
  | O => Ok []
  | S n' =>
    let length :=
      if i <? Int64.sub num_splits 1 then split_size else last_split_size in
    let* v := narrow self d (Int64.mul i split_size) length in
    let* vs :=
      split_loop self d split_size last_split_size num_splits n' (i + 1) in
    Ok (v :: vs)
  end.

Definition split (self : Tensor) (split_size d : Z) : result (list Handle) :=
  if dim self =? 0 then Err ZeroDimTensorError else
  if negb (0 <=? split_size) then Err InvalidSplitSize else
  let* dim_size := size self d in
  if negb ((0 <? split_size) || (dim_size =? 0)) then Err InvalidSplitSize else
  let num_splits :=
    if negb (split_size =? 0)
    then Z.max (Int64.div (Int64.sub (Int64.add dim_size split_size) 1)
                          split_size) 1
    else 1 in
  let last_split_size :=
    Int64.sub split_size
              (Int64.sub (Int64.mul split_size num_splits) dim_size) in
  split_loop self d split_size last_split_size num_splits
             (Z.to_nat num_splits) 0.

(** ** split_with_sizes, lines 357-384 *)

(** The [for] loop of [split_with_sizes]; it returns the views and the final
    [start_idx]. *)
Fixpoint split_with_sizes_loop (self : Tensor) (d : Z) (split_sizes : list Z)
    (start_idx : Z) : result (list Handle * Z) :=
  match split_sizes with
  | [] => Ok ([], start_idx)
  | length :: rest =>
    if length <? 0 then Err InvalidSplitSize else
    let* v := narrow self d start_idx length in
    let* '(vs, end_idx) :=
      split_with_sizes_loop self d rest (Int64.add start_idx length) in
    Ok (v :: vs, end_idx)
  end.

Definition split_with_sizes (self : Tensor) (split_sizes : list Z) (d : Z)
    : result (list Handle) :=
  if dim self =? 0 then Err ZeroDimTensorError else
  let* dim_size := size self d in
  let* '(splits, start_idx) := split_with_sizes_loop self d split_sizes 0 in
  if negb (start_idx =? dim_size) then Err ShapeMismatch else Ok splits.

(** ** chunk, lines 36-56 *)

Definition chunk (self : Tensor) (chunks d : Z) : result (list Handle) :=
  if dim self =? 0 then Err ZeroDimTensorError else
  if chunks <=? 0 then Err InvalidSplitSize else
  let* size_d := size self d in
  let split_size :=
    Int64.div (Int64.sub (Int64.add size_d chunks) 1) chunks in
  if (split_size =? 0) && (size_d =? 0) then
    let split_sizes := replicate (Z.to_nat chunks) split_size in
    let split_sizes :=
      <[Z.to_nat (Int64.sub chunks 1) :=
          Int64.sub split_size
                    (Int64.sub (Int64.mul split_size chunks) size_d)]>
        split_sizes in
    split_with_sizes self split_sizes d
  else split self split_size d.

(** ** infer_size, lines 217-255 *)

(** The validation loop: [d] is the loop counter, [newsize] and [infer_dim]
    the two accumulators. *)
Fixpoint infer_size_loop (shape : list Z) (d : Z) (newsize : Z)
    (infer_dim : option Z) : result (Z * option Z) :=
  match shape with
  | [] => Ok (newsize, infer_dim)
  | s :: rest =>
    if s =? -1 then
      match infer_dim with
      | Some _ => Err InvalidShapeDimension
      | None => infer_size_loop rest (d + 1) newsize (Some d)
      end
    else if 0 <=? s then
      infer_size_loop rest (d + 1) (Int64.mul newsize s) infer_dim
    else Err InvalidShapeDimension
  end.

(** The vector [res] when line 249 is reached: the requested shape with the
    free dimension filled in. *)
Definition infer_size_res (shape : list Z) (numel newsize : Z)
    (infer_dim : option Z) : result (list Z) :=
  match infer_dim with
  | Some d =>
    if newsize =? 0 then Err ShapeMismatch
    else Ok (<[Z.to_nat d := Int64.div numel newsize]> shape)
  | None => Ok shape
  end.

Definition infer_size (shape : list Z) (numel : Z) : result (list Z) :=
  let* '(newsize, infer_dim) := infer_size_loop shape 0 1 None in
  if (numel =? newsize)
     || (match infer_dim with Some _ => true | None => false end
         && (0 <? newsize) && (Int64.rem numel newsize =? 0))
  then
    let* res := infer_size_res shape numel newsize infer_dim in
    if negb USE_TH_SIZE_ZERO_DIM && (numel =? 0) then Ok [0] else Ok res
  else Err ShapeMismatch.

(** ** unsqueeze, lines 532-546 and 594-599 *)

Definition inferUnsqueezeGeometry (tensor : Tensor) (d : Z)
    : result (list Z * list Z) :=
  if negb USE_TH_SIZE_ZERO_DIM && (numel tensor =? 0) then Err EmptyTensorError
  else
    let sizes' := sizes tensor in
    let strides' := strides tensor in
    let new_stride :=
      if dim tensor <=? d then 1
      else Int64.mul (sizes' !!! Z.to_nat d) (strides' !!! Z.to_nat d) in
    Ok (insert_at sizes' d 1, insert_at strides' d new_stride).

Definition unsqueeze (self : Tensor) (d : Z) : result Tensor :=
  let* d := maybe_wrap_dim d (Int64.add (dim self) 1) in
  let* '(sizes', strides') := inferUnsqueezeGeometry self d in
  Ok (as_strided self sizes' strides').

(** ** permute, lines 162-182 *)

(** The [for] loop of [permute] from position [i] on: it returns
    [newSizes[i..]] and [newStrides[i..]]. *)
Fixpoint permute_loop (oldSizes oldStrides : list Z) (nDims : Z)
    (dims : list Z) (seen : list bool) : result (list Z * list Z) :=
  match dims with
  | [] => Ok ([], [])
  | x :: rest =>
    let* d := maybe_wrap_dim x nDims in
    if (seen !!! Z.to_nat d : bool) then Err RepeatedDimension else
    let seen := <[Z.to_nat d := true]> seen in
    let* '(newSizes, newStrides) :=
      permute_loop oldSizes oldStrides nDims rest seen in
    Ok (oldSizes !!! Z.to_nat d :: newSizes,
        oldStrides !!! Z.to_nat d :: newStrides)
  end.

Definition permute (self : Tensor) (dims : list Z) : result Tensor :=
  let nDims := dim self in
  if negb (Z.of_nat (length dims) =? nDims) then Err InvalidDimension else
  let* '(newSizes, newStrides) :=
    permute_loop (sizes self) (strides self) nDims dims
                 (replicate (Z.to_nat nDims) false) in
  Ok (as_strided self newSizes newStrides).

(** ** transpose, lines 460-478 *)

(** [std::swap(v[i], v[j])] *)
Definition swap (v : list Z) (i j : Z) : list Z :=
  <[Z.to_nat j := v !!! Z.to_nat i]> (<[Z.to_nat i := v !!! Z.to_nat j]> v).

Section Transpose.

(** The sparse branch works on the coordinate list of a sparse tensor,
    which is no part of the dense geometry; [sparse_transpose_], applied to
    a clone of [self], is a parameter of [transpose]. *)
Variable sparse_transpose_ : Tensor -> Z -> Z -> result Tensor.

Definition transpose (self : Tensor) (dim0 dim1 : Z) : result Tensor :=
  let ndims := dim self in
  let* dim0 := maybe_wrap_dim dim0 ndims in
  let* dim1 := maybe_wrap_dim dim1 ndims in
  if dim0 =? dim1 then Ok self else
  if is_sparse self then sparse_transpose_ self dim0 dim1 else
  let strides' := swap (strides self) dim0 dim1 in
  let sizes' := swap (sizes self) dim0 dim1 in
  Ok (as_strided self sizes' strides').

End Transpose.

(** ** expand, lines 111-132 *)

Section Expand.

(** [inferExpandGeometry] of ATen/ExpandUtils.h is not part of this file;
    it is a parameter of [expand]. *)
Variable inferExpandGeometry :
  Tensor -> list Z -> result (list Z * list Z).

Definition expand (self : Tensor) (size : list Z) (implicit : bool)
    : result Tensor :=
  if Z.of_nat (length size) <? dim self then Err ShapeMismatch else
  let* '(expandedSizes, expandedStrides) := inferExpandGeometry self size in
  Ok (as_strided self expandedSizes expandedStrides).

End Expand.

(** Modelled from the spec: the broadcast geometry that [expand] asks of
    [inferExpandGeometry]. Trailing dimensions align with the dimensions of
    the source; a source dimension of size 1 broadcasts to the target size
    with stride 0; added leading dimensions take the target size and stride
    0; any other difference of sizes is a ShapeMismatch. The three lists of
    [broadcast_trailing] are read from the last dimension backwards. *)
Fixpoint broadcast_trailing (tsizes tstrides target : list Z)
    : result (list Z * list Z) :=
  match target with
  | [] => Ok ([], [])
  | tg :: target' =>
    match tsizes, tstrides with
    | sz :: tsizes', st :: tstrides' =>
      if sz =? tg then
        let* '(s, st') := broadcast_trailing tsizes' tstrides' target' in
        Ok (sz :: s, st :: st')
      else if sz =? 1 then
        let* '(s, st') := broadcast_trailing tsizes' tstrides' target' in
        Ok (tg :: s, 0 :: st')
      else Err ShapeMismatch
    | _, _ =>
      let* '(s, st') := broadcast_trailing [] [] target' in
      Ok (tg :: s, 0 :: st')
    end
  end.

Definition broadcast_geometry (tensor : Tensor) (sizes_ : list Z)
    : result (list Z * list Z) :=
  let* '(s, st) :=
    broadcast_trailing (rev (sizes tensor)) (rev (strides tensor))
                       (rev sizes_) in
  Ok (rev s, rev st).

(** ** Further operations of the file *)

(** Modelled from the spec: [Tensor::stride(dim)] is not part of this file;
    like [size], it resolves [dim] through the Dimension Normalizer and
    reads [strides]. *)
Definition stride (self : Tensor) (d : Z) : result Z :=
  let* d' := maybe_wrap_dim d (dim self) in
  Ok (strides self !!! Z.to_nat d').

(** [v.push_back(x)] *)
Definition push_back (v : list Z) (x : Z) : list Z := v ++ [x].

(** *** diagonal, lines 62-109

    The failure of line 66 is an InvalidDimension; the failure of line 82,
    "invalid diagonal offset", for which the specification names no kind, is
    filed under IndexOutOfRange. *)
Definition diagonal (self : Tensor) (offset dim1_ dim2_ : Z) : result Tensor :=
  let nDims := dim self in
  let* dim1 := maybe_wrap_dim dim1_ nDims in
  let* dim2 := maybe_wrap_dim dim2_ nDims in
  if dim1 =? dim2 then Err InvalidDimension else
  let storage_offset := storage_offset self in
  let* size1 := size self dim1 in
  let* size2 := size self dim2 in
  let diag_size :=
    if 0 <=? offset
    then Z.max (Z.min size1 (Int64.sub size2 offset)) 0
    else Z.max (Z.min (Int64.add size1 offset) size2) 0 in
  if negb USE_TH_SIZE_ZERO_DIM && negb (0 <? diag_size)
  then Err IndexOutOfRange else
  let* stride1 := stride self dim1 in
  let* stride2 := stride self dim2 in
  let storage_offset :=
    if diag_size =? 0 then storage_offset
    else if 0 <=? offset
         then Int64.add storage_offset (Int64.mul offset stride2)
         else Int64.sub storage_offset (Int64.mul offset stride1) in
  let sizes' := erase (sizes self) (Z.max dim1 dim2) in
  let strides' := erase (strides self) (Z.max dim1 dim2) in
  let sizes' := erase sizes' (Z.min dim1 dim2) in
  let strides' := erase strides' (Z.min dim1 dim2) in
  let sizes' := push_back sizes' diag_size in
  let strides' := push_back strides' (Int64.add stride1 stride2) in
  Ok (as_strided3 self sizes' strides' storage_offset).

(** *** squeeze, lines 503-562 *)

(** The loop of [inferSqueezeGeometry(tensor)]: [n] iterations are left,
    [d] is the loop counter, [sizes'] and [strides'] the vectors built so
    far. *)
Fixpoint inferSqueezeGeometry_loop (tensor : Tensor) (n : nat) (d : Z)
    (sizes' strides' : list Z) : list Z * list Z :=
  match n with
  | O => (sizes', strides')
  | S n' =>
    if negb (sizes tensor !!! Z.to_nat d =? 1) then
      inferSqueezeGeometry_loop tensor n' (d + 1)
        (push_back sizes' (sizes tensor !!! Z.to_nat d))
        (push_back strides' (strides tensor !!! Z.to_nat d))
    else inferSqueezeGeometry_loop tensor n' (d + 1) sizes' strides'
  end.

Definition inferSqueezeGeometry (tensor : Tensor) : list Z * list Z :=
  inferSqueezeGeometry_loop tensor (Z.to_nat (dim tensor)) 0 [] [].

(** The loop of [inferSqueezeGeometry(tensor, dim)]. *)
Fixpoint inferSqueezeGeometry_dim_loop (tensor : Tensor) (dim_ : Z) (n : nat)
    (d : Z) (sizes' strides' : list Z) : list Z * list Z :=
  match n with
  | O => (sizes', strides')
  | S n' =>
    if negb (d =? dim_) || negb (sizes tensor !!! Z.to_nat dim_ =? 1) then
      inferSqueezeGeometry_dim_loop tensor dim_ n' (d + 1)
        (push_back sizes' (sizes tensor !!! Z.to_nat d))
        (push_back strides' (strides tensor !!! Z.to_nat d))
    else inferSqueezeGeometry_dim_loop tensor dim_ n' (d + 1) sizes' strides'
  end.

Definition inferSqueezeGeometry_dim (tensor : Tensor) (dim_ : Z)
    : list Z * list Z :=
  inferSqueezeGeometry_dim_loop tensor dim_ (Z.to_nat (dim tensor)) 0 [] [].

(** [squeeze(self)], lines 548-551 *)
Definition squeeze (self : Tensor) : Tensor :=
  let g := inferSqueezeGeometry self in
  as_strided self (fst g) (snd g).

(** [squeeze(self, dim)], lines 553-562 *)
Definition squeeze_dim (self : Tensor) (d : Z) : result Tensor :=
  let dims := dim self in
  let* d := maybe_wrap_dim d dims in
  if (dims =? 0) || negb (sizes self !!! Z.to_nat d =? 1) then
    Ok (as_strided self (sizes self) (strides self))
  else
    let g := inferSqueezeGeometry_dim self d in
    Ok (as_strided self (fst g) (snd g)).

(** *** unbind, lines 643-651

    The counter [i] of the source is an [int]; it is kept exact, which is
    what the source does for dimensions of fewer than [2^31] entries. *)
Fixpoint unbind_loop (self : Tensor) (d : Z) (n : nat) (i : Z)
    : result (list Tensor) :=
  match n with
  | O => Ok []
  | S n' =>
    let* v := select self d i in
    let* vs := unbind_loop self d n' (i + 1) in
    Ok (v :: vs)
  end.

Definition unbind (self : Tensor) (d : Z) : result (list Tensor) :=
  let* d := maybe_wrap_dim d (dim self) in
  let* size := size self d in
  unbind_loop self d (Z.to_nat size) 0.

(** *** t, lines 480-496 *)

Section T.

(** The number of sparse and of dense dimensions of a sparse tensor, and its
    transposition, are no part of the dense geometry. *)
Variable sparse_transpose_ : Tensor -> Z -> Z -> result Tensor.
Variables _sparseDims _denseDims : Tensor -> Z.

(** [check_t]; both failures, "expects a tensor with 2 sparse and 0 dense
    dimensions" and "expects a 2D tensor", are filed under
    InvalidDimension. *)
Definition check_t (self : Tensor) : result unit :=
  if is_sparse self then
    let sparseDims := _sparseDims self in
    let denseDims := _denseDims self in
    if negb ((sparseDims =? 2) && (denseDims =? 0))
    then Err InvalidDimension else Ok tt
  else if negb (dim self =? 2) then Err InvalidDimension
  else Ok tt.

Definition t (self : Tensor) : result Tensor :=
  let* _ := check_t self in
  transpose sparse_transpose_ self 0 1.

End T.

(** *** flatten, lines 608-633 *)

(** [self.sizes().slice(start, len)] *)
Definition slice_intlist (v : list Z) (start len : Z) : list Z :=
  take (Z.to_nat len) (drop (Z.to_nat start) v).

(** The first [for] loop of [flatten]: [self.size(i)] for [i < start_dim]
    is pushed on [shape]. *)
Fixpoint flatten_prefix_loop (self : Tensor) (n : nat) (i : Z)
    (shape : list Z) : result (list Z) :=
  match n with
  | O => Ok shape
  | S n' =>
    let* s := size self i in
    flatten_prefix_loop self n' (i + 1) (push_back shape s)
  end.

(** The vector [shape] that [flatten] hands to [reshape], lines 621-630.
    [prod_intlist] multiplies on [int64_t]. *)
Definition flatten_shape (self : Tensor) (start_dim end_dim : Z)
    : result (list Z) :=
  let slice_numel :=
    Int64.wrap
      (prod_intlist
         (slice_intlist (sizes self) start_dim
            (Int64.add (Int64.sub end_dim start_dim) 1))) in
  let* shape := flatten_prefix_loop self (Z.to_nat start_dim) 0 [] in
  let shape := push_back shape slice_numel in
  flatten_prefix_loop self
    (Z.to_nat (dim self - (end_dim + 1))) (end_dim + 1) shape.

Section Flatten.

(** [reshape] hands its work to [THTensor_compute_stride], [clone] and
    [_unsafe_view], which are not part of this file; it is a parameter of
    [flatten]. *)
Variable reshape : Tensor -> list Z -> result Tensor.

(** The failure of line 611, "start_dim cannot come after end_dim", is
    filed under InvalidDimension. *)
Definition flatten (self : Tensor) (start_dim end_dim : Z) : result Tensor :=
  let* start_dim := maybe_wrap_dim start_dim (dim self) in
  let* end_dim := maybe_wrap_dim end_dim (dim self) in
  if negb (start_dim <=? end_dim) then Err InvalidDimension else
  if start_dim =? end_dim then Ok self else
  let* shape := flatten_shape self start_dim end_dim in
  reshape self shape.

End Flatten.

(** *** cat and stack, lines 15-34 and 386-400 *)

(** [check_cat_no_zero_dim] throws at the first tensor of rank 0. *)
Fixpoint check_cat_no_zero_dim (tensors : list Tensor) : result unit :=
  match tensors with
  | [] => Ok tt
  | t :: rest =>
    if dim t =? 0 then Err ZeroDimTensorError
    else check_cat_no_zero_dim rest
  end.

(** The loop of [get_stack_inputs]. *)
Fixpoint get_stack_inputs (tensors : list Tensor) (d : Z)
    : result (list Tensor) :=
  match tensors with
  | [] => Ok []
  | t :: rest =>
    let* u := unsqueeze t d in
    let* us := get_stack_inputs rest d in
    Ok (u :: us)
  end.

Section Cat.

(** [legacy_cat_wrap_dim] of ATen/WrapDimUtils.h and the concatenation
    [at::_cat] itself, which copies the elements, are no part of this file;
    they are parameters of [cat] and [stack]. *)
Variable legacy_cat_wrap_dim : Z -> list Tensor -> result Z.
Variable _cat : list Tensor -> Z -> result Tensor.

Definition cat (tensors : list Tensor) (d : Z) : result Tensor :=
  let* _ := check_cat_no_zero_dim tensors in
  let* d := legacy_cat_wrap_dim d tensors in
  _cat tensors d.

(** The failure of line 396, "stack expects a non-empty TensorList", for
    which the specification names no kind, is filed under ShapeMismatch. *)
Definition stack (tensors : list Tensor) (d : Z) : result Tensor :=
  match tensors with
  | [] => Err ShapeMismatch
  | t0 :: _ =>
    let* d := maybe_wrap_dim d (Int64.add (dim t0) 1) in
    let* inputs := get_stack_inputs tensors d in
    cat inputs d
  end.

End Cat.

(** ** Vocabulary of the specification *)

Definition sum_list (l : list Z) : Z := foldr Z.add 0 l.

(** The handles of the data model: a rank that is an [int64_t] value, as
    many strides as sizes, sizes that are non-negative [int64_t] values,
    strides and offset that are [int64_t] values. *)
Definition wf_tensor (t : Tensor) : Prop :=
  dim t < Int64.max_signed /\
  length (sizes t) = length (strides t) /\
  Forall (fun s => 0 <= s <= Int64.max_signed) (sizes t) /\
  Forall Int64.representable (strides t) /\
  Int64.representable (storage_offset t).

#[global] Instance wf_tensor_dec (t : Tensor) : Decision (wf_tensor t).
Proof. unfold wf_tensor, Int64.representable. apply _. Defined.

(** The addressing function of the data model: the position in the storage
    of the element at a multi-index. *)
Definition element_offset (t : Tensor) (index : list Z) : Z :=
  storage_offset t + sum_list (zip_with Z.mul index (strides t)).

(** [ceil(a / b)] for a positive [b]. *)
Definition ceil_div (a b : Z) : Z := - ((- a) / b).

(** A negative bound of a slice is relative to [size(dim)]. *)
Definition relative (size x : Z) : Z := if x <? 0 then x + size else x.

Definition clamp (lo hi x : Z) : Z := Z.max lo (Z.min hi x).

(** The bounds of a slice in the words of the specification: both are made
    relative and clamped into [[0, size]], then [end] is forced to [start]
    when it lies before it. *)
Definition slice_start (size start : Z) : Z :=
  clamp 0 size (relative size start).

Definition slice_end (size start end_ : Z) : Z :=
  let s := slice_start size start in
  let e := clamp 0 size (relative size end_) in
  if e <? s then s else e.

(** The handle used in the concrete cases: shape [[5,3]], contiguous, at
    offset 7 of its storage. *)
Definition t53 : Tensor :=
  {| sizes := [5; 3]; strides := [3; 1]; storage_offset := 7;
     is_sparse := false |}.

(** The view [narrow] hands back for a legal [start] and [length] along the
    normalised dimension [d]: [length] entries from [start] on. *)
Definition narrowed (t : Tensor) (d start length : Z) : Handle :=
  View {| sizes := <[Z.to_nat d := length]> (sizes t);
          strides := strides t;
          storage_offset :=
            Int64.add (storage_offset t)
                      (Int64.mul start (strides t !!! Z.to_nat d));
          is_sparse := is_sparse t |}.

(** One narrowed view per length, each starting where the previous ends. *)
Fixpoint consecutive (t : Tensor) (d start : Z) (lengths : list Z)
    : list Handle :=
  match lengths with
  | [] => []
  | len :: rest => narrowed t d start len :: consecutive t d (start + len) rest
  end.

(** The lengths of the parts of [split]: [parts - 1] times [split_size],
    then what is left of [size]. *)
Definition part_lengths (size split_size parts : Z) : list Z :=
  replicate (Z.to_nat (parts - 1)) split_size
  ++ [size - split_size * (parts - 1)].

(** The entries of a requested shape that are sizes, and the number of its
    free dimensions. *)
Definition known_sizes (shape : list Z) : list Z :=
  filter (fun s => 0 <= s) shape.

Definition free_count (shape : list Z) : nat :=
  length (filter (fun s => s = -1) shape).

(** A request [infer_size] validates: at most one free dimension, every
    other entry a size. *)
Definition valid_request (shape : list Z) : Prop :=
  (free_count shape <= 1)%nat /\ Forall (fun s => s = -1 \/ 0 <= s) shape.

#[global] Instance valid_request_dec (shape : list Z) :
  Decision (valid_request shape).
Proof. unfold valid_request. apply _. Defined.

(** [newsize], the product of the sizes of a request as an [int64_t]. *)
Definition newsize_of (shape : list Z) : Z :=
  Int64.wrap (prod_intlist (known_sizes shape)).

(** The identity permutation of [n] dimensions. *)
Definition identity_perm (n : nat) : list Z := Z.of_nat <$> seq 0 n.

(** The handle of the concrete case of [chunk]: shape [[7]]. *)
Definition t7 : Tensor :=
  {| sizes := [7]; strides := [1]; storage_offset := 0; is_sparse := false |}.

(** The tensor without elements: shape [[0]]. *)
Definition t_empty : Tensor :=
  {| sizes := [0]; strides := [1]; storage_offset := 0; is_sparse := false |}.

(** ** Vocabulary of the further properties *)

(** Two parallel vectors without the positions where the first holds 1. *)
Fixpoint drop_unit_dims (sz st : list Z) : list Z * list Z :=
  match sz, st with
  | s :: sz', r :: st' =>
    let g := drop_unit_dims sz' st' in
    if s =? 1 then g else (s :: fst g, r :: snd g)
  | _, _ => ([], [])
  end.

(** A multi-index without the positions of the dimensions of size 1. *)
Fixpoint drop_unit_index (sz index : list Z) : list Z :=
  match sz, index with
  | s :: sz', i :: index' =>
    if s =? 1 then drop_unit_index sz' index'
    else i :: drop_unit_index sz' index'
  | _, _ => []
  end.

(** A multi-index within the bounds of a shape. *)
Definition in_bounds (sz index : list Z) : Prop :=
  Forall2 (fun s i => 0 <= i < s) sz index.

(** The positions a list of dimension arguments names in a handle of rank
    [n], and the entries of [v] at a list of positions. *)
Definition normalise_dims (n : Z) (dims : list Z) : list Z :=
  (fun x => if x <? 0 then x + n else x) <$> dims.

Definition gather (v : list Z) (dims : list Z) : list Z :=
  (fun d => v !!! Z.to_nat d) <$> dims.

(** * Proofs *)

(** ** 64-bit arithmetic *)

Ltac int64_unfold :=
  unfold Int64.representable, Int64.max_signed, Int64.min_signed,
         Int64.modulus, Int64.half_modulus in *.

(** An [int64_t] value is left alone. *)
Lemma wrap_representable z : Int64.representable z -> Int64.wrap z = z.
Proof.
  unfold Int64.wrap; int64_unfold; intros H.
  rewrite Z.mod_small; lia.
Qed.

Lemma wrap_range z : Int64.representable (Int64.wrap z).
Proof.
  unfold Int64.wrap; int64_unfold.
  pose proof (Z.mod_pos_bound (z + 9223372036854775808) 18446744073709551616).
  lia.
Qed.

(** The reduction keeps the residue, and only depends on it. *)
Lemma wrap_mod z : Int64.wrap z mod Int64.modulus = z mod Int64.modulus.
Proof.
  unfold Int64.wrap. rewrite Zminus_mod_idemp_l. f_equal. lia.
Qed.

Lemma wrap_congr a b :
  a mod Int64.modulus = b mod Int64.modulus -> Int64.wrap a = Int64.wrap b.
Proof.
  intros H. unfold Int64.wrap.
  by rewrite <- (Zplus_mod_idemp_l a), H, Zplus_mod_idemp_l.
Qed.

(** Reduction commutes with the ring operations, so that intermediate
    results need not be representable for the final one to be exact. *)
Lemma wrap_add_wrap_r a b : Int64.wrap (a + Int64.wrap b) = Int64.wrap (a + b).
Proof.
  apply wrap_congr.
  by rewrite <- Zplus_mod_idemp_r, wrap_mod, Zplus_mod_idemp_r.
Qed.

Lemma wrap_add_wrap_l a b : Int64.wrap (Int64.wrap a + b) = Int64.wrap (a + b).
Proof.
  apply wrap_congr.
  by rewrite <- Zplus_mod_idemp_l, wrap_mod, Zplus_mod_idemp_l.
Qed.

Lemma wrap_sub_wrap_l a b : Int64.wrap (Int64.wrap a - b) = Int64.wrap (a - b).
Proof.
  apply wrap_congr.
  by rewrite <- Zminus_mod_idemp_l, wrap_mod, Zminus_mod_idemp_l.
Qed.

Lemma wrap_sub_wrap_r a b : Int64.wrap (a - Int64.wrap b) = Int64.wrap (a - b).
Proof.
  apply wrap_congr.
  by rewrite <- Zminus_mod_idemp_r, wrap_mod, Zminus_mod_idemp_r.
Qed.

Lemma wrap_mul_wrap_l a b : Int64.wrap (Int64.wrap a * b) = Int64.wrap (a * b).
Proof.
  apply wrap_congr.
  by rewrite <- Zmult_mod_idemp_l, wrap_mod, Zmult_mod_idemp_l.
Qed.

Lemma add_mul_exact a b c :
  Int64.representable (a + b * c) -> Int64.add a (Int64.mul b c) = a + b * c.
Proof.
  intros H. unfold Int64.add, Int64.mul.
  rewrite wrap_add_wrap_r. by apply wrap_representable.
Qed.

(** One step past the largest value. *)
Lemma wrap_overflow z :
  Int64.max_signed < z <= Int64.modulus + Int64.max_signed ->
  Int64.wrap z = z - Int64.modulus.
Proof.
  intros H. unfold Int64.wrap.
  replace (z + Int64.half_modulus)
    with (z + Int64.half_modulus - Int64.modulus + 1 * Int64.modulus) by lia.
  rewrite Z_mod_plus_full, Z.mod_small; int64_unfold; lia.
Qed.

Lemma quot_nonpos_bounds a b : a <= 0 -> 0 < b -> a <= Z.quot a b <= 0.
Proof.
  intros Ha Hb.
  replace a with (- (- a)) at 2 3 by lia.
  rewrite Z.quot_opp_l, Z.quot_div_nonneg by lia.
  pose proof (Z.div_pos (- a) b ltac:(lia) Hb).
  pose proof (Z.div_le_upper_bound (- a) b (- a) Hb ltac:(nia)). lia.
Qed.

Lemma quot_representable a b :
  Int64.representable a -> 0 < b -> Int64.representable (Z.quot a b).
Proof.
  intros Ha Hb. destruct (Z.le_gt_cases 0 a).
  - rewrite Z.quot_div_nonneg by lia.
    pose proof (Z.div_pos a b ltac:(lia) Hb).
    pose proof (Z.div_le_upper_bound a b a Hb ltac:(nia)).
    int64_unfold. lia.
  - pose proof (quot_nonpos_bounds a b ltac:(lia) Hb). int64_unfold. lia.
Qed.

(** ** Rounding up *)

(** [ceil_div a b] is the least multiplier of [b] that reaches [a]. *)
Lemma ceil_div_spec a b :
  0 < b -> b * (ceil_div a b - 1) < a <= b * ceil_div a b.
Proof.
  intros Hb. unfold ceil_div.
  pose proof (Z.div_mod (- a) b ltac:(lia)).
  pose proof (Z.mod_pos_bound (- a) b Hb). nia.
Qed.

(** The round-up of the source, [(a + b - 1) / b], is the ceiling. *)
Lemma ceil_div_round_up a b : 0 < b -> (a + b - 1) / b = ceil_div a b.
Proof.
  intros Hb. pose proof (ceil_div_spec a b Hb).
  symmetry. apply (Z.div_unique _ _ _ (a + b - 1 - b * ceil_div a b)); lia.
Qed.

Lemma ceil_div_1 a : ceil_div a 1 = a.
Proof. pose proof (ceil_div_spec a 1 ltac:(lia)). lia. Qed.

Lemma ceil_div_pos a b : 0 < a -> 0 < b -> 1 <= ceil_div a b.
Proof. intros Ha Hb. pose proof (ceil_div_spec a b Hb). nia. Qed.

Lemma ceil_div_le a b : 0 < a <= b -> ceil_div a b = 1.
Proof. intros H. pose proof (ceil_div_spec a b ltac:(lia)). nia. Qed.

(** ** Sums, products and updates *)

Lemma sum_list_cons x l : sum_list (x :: l) = x + sum_list l.
Proof. reflexivity. Qed.

Lemma sum_list_nonneg l : Forall (fun x => 0 <= x) l -> 0 <= sum_list l.
Proof. induction 1; [done|]. rewrite sum_list_cons. lia. Qed.

Lemma sum_list_pos_nonneg l : Forall (fun x => 0 < x) l -> 0 <= sum_list l.
Proof. induction 1; [done|]. rewrite sum_list_cons. lia. Qed.

Lemma sum_list_app l1 l2 : sum_list (l1 ++ l2) = sum_list l1 + sum_list l2.
Proof.
  induction l1 as [|x l1 IH]; [done|].
  rewrite <- app_comm_cons, !sum_list_cons, IH. lia.
Qed.

Lemma sum_list_replicate (k : nat) x :
  sum_list (replicate k x) = Z.of_nat k * x.
Proof.
  induction k as [|k IH]; [done|].
  cbn [replicate]. rewrite sum_list_cons, IH. lia.
Qed.

Lemma prod_intlist_nil : prod_intlist [] = 1.
Proof. reflexivity. Qed.

Lemma prod_intlist_cons x l : prod_intlist (x :: l) = x * prod_intlist l.
Proof. reflexivity. Qed.

Lemma prod_intlist_app l1 l2 :
  prod_intlist (l1 ++ l2) = prod_intlist l1 * prod_intlist l2.
Proof.
  induction l1 as [|x l1 IH].
  - rewrite app_nil_l, prod_intlist_nil. lia.
  - rewrite <- app_comm_cons, !prod_intlist_cons, IH. lia.
Qed.

Lemma insert_lookup_total_id (l : list Z) (i : nat) :
  (i < length l)%nat -> <[i := l !!! i]> l = l.
Proof.
  intros H. apply list_insert_id. by apply list_lookup_lookup_total_lt.
Qed.

(** Putting an index in at position [k] adds its stride term. *)
Lemma sum_zip_insert (st index : list Z) (k : nat) (w : Z) :
  (k <= length index)%nat -> (k < length st)%nat ->
  sum_list (zip_with Z.mul (take k index ++ w :: drop k index) st)
  = sum_list (zip_with Z.mul index (delete k st)) + w * (st !!! k).
Proof.
  revert st index. induction k as [|k IH]; intros st index Hi Hst.
  - destruct st as [|s0 st]; [cbn in Hst; lia|].
    rewrite take_0, drop_0. change (delete 0%nat (s0 :: st)) with st.
    cbn [app zip_with].
    rewrite sum_list_cons. change ((s0 :: st) !!! 0%nat) with s0. lia.
  - destruct st as [|s0 st]; [cbn in Hst; lia|].
    destruct index as [|i0 index]; [cbn in Hi; lia|].
    cbn [length] in *.
    change (delete (S k) (s0 :: st)) with (s0 :: delete k st).
    cbn [take drop app zip_with].
    rewrite !sum_list_cons, IH by lia.
    change ((s0 :: st) !!! S k) with (st !!! k). lia.
Qed.

(** ** Normalised dimensions and well-formed handles *)

Lemma maybe_wrap_dim_Ok d n d' :
  maybe_wrap_dim d n = Ok d' ->
  0 <= d' < Z.max n 1 /\ d' = (if d <? 0 then d + n else d).
Proof.
  unfold maybe_wrap_dim. intros H.
  destruct (_ || _) eqn:E; [discriminate|].
  injection H as <-. apply orb_false_iff in E as [E1 E2]. lia.
Qed.

Lemma maybe_wrap_dim_id d n : 0 <= d < n -> maybe_wrap_dim d n = Ok d.
Proof.
  intros H. unfold maybe_wrap_dim.
  destruct (d <? 0) eqn:E; [lia|].
  destruct (_ || _) eqn:E'; [|reflexivity].
  apply orb_true_iff in E'. lia.
Qed.

(** The positions the normaliser accepts. *)
Lemma maybe_wrap_dim_range d n :
  1 <= n -> (succeeds (maybe_wrap_dim d n) <-> - n <= d < n).
Proof.
  intros Hn. unfold maybe_wrap_dim, succeeds.
  destruct (Z.ltb_spec d 0).
  - destruct (Z.ltb_spec (d + n) 0), (Z.leb_spec (Z.max n 1) (d + n));
      cbn; split; try lia; try (intros [? [=]]); try by eexists.
  - destruct (Z.ltb_spec d 0), (Z.leb_spec (Z.max n 1) d);
      cbn; split; try lia; try (intros [? [=]]); try by eexists.
Qed.

Lemma size_normalised t d :
  0 <= d < dim t -> size t d = Ok (sizes t !!! Z.to_nat d).
Proof.
  intros H. unfold size. by rewrite maybe_wrap_dim_id.
Qed.

Lemma size_Ok t d d' :
  maybe_wrap_dim d (dim t) = Ok d' -> size t d = Ok (sizes t !!! Z.to_nat d').
Proof. intros H. unfold size. by rewrite H. Qed.

Lemma wf_size_bounds t i :
  wf_tensor t -> 0 <= i < dim t ->
  0 <= sizes t !!! Z.to_nat i <= Int64.max_signed.
Proof.
  intros (_ & _ & Hs & _) Hi. unfold dim in Hi.
  apply (Forall_lookup_total_1 _ _ (Z.to_nat i) Hs). lia.
Qed.

Lemma wf_stride_representable t i :
  wf_tensor t -> 0 <= i < dim t ->
  Int64.representable (strides t !!! Z.to_nat i).
Proof.
  intros (_ & Hl & _ & Hs & _) Hi. unfold dim in Hi.
  apply (Forall_lookup_total_1 _ _ (Z.to_nat i) Hs). lia.
Qed.

Lemma wf_t53 : wf_tensor t53.
Proof. by apply (bool_decide_unpack _). Qed.

Lemma wf_t_empty : wf_tensor t_empty.
Proof. by apply (bool_decide_unpack _). Qed.

(** ** select *)

(** The outcomes of [select] on a well-formed handle. *)
Lemma select_cases (t : Tensor) (d index : Z) :
  wf_tensor t -> Int64.representable index ->
  (dim t = 0 -> select t d index = Err ZeroDimTensorError) /\
  (forall d', 0 < dim t -> maybe_wrap_dim d (dim t) = Ok d' ->
     let n := sizes t !!! Z.to_nat d' in
     let stride := strides t !!! Z.to_nat d' in
     let wrapped := if index <? 0 then index + n else index in
     (- n <= index < n ->
        exists r, select t d index = Ok r /\
          0 <= wrapped < n /\
          dim r = dim t - 1 /\
          sizes r = delete (Z.to_nat d') (sizes t) /\
          strides r = delete (Z.to_nat d') (strides t) /\
          storage_offset r
            = Int64.add (storage_offset t) (Int64.mul wrapped stride) /\
          (Int64.representable (storage_offset t + wrapped * stride) ->
           storage_offset r = storage_offset t + wrapped * stride)) /\
     (~ (- n <= index < n) -> select t d index = Err IndexOutOfRange)).
Proof.
  intros Hwf Hidx. split.
  - intros H0. unfold select. by rewrite H0.
  - intros d' Hpos Hd n stride wrapped.
    destruct (maybe_wrap_dim_Ok _ _ _ Hd) as [Hr _].
    assert (Hd' : 0 <= d' < dim t) by lia.
    pose proof (wf_size_bounds t d' Hwf Hd') as Hn. fold n in Hn.
    unfold select.
    destruct (0 <? dim t) eqn:E; [|lia]. cbn [negb].
    rewrite Hd. cbn [bind]. rewrite (size_normalised _ _ Hd'). cbn [bind].
    fold n. fold stride.
    assert (Hneg : Int64.neg n = - n).
    { apply wrap_representable. int64_unfold. lia. }
    rewrite Hneg. split.
    + intros Hin.
      destruct (_ || _) eqn:E'; [apply orb_true_iff in E'; lia|].
      assert (Hw : (if index <? 0 then Int64.add index n else index) = wrapped).
      { unfold wrapped. destruct (index <? 0) eqn:E''; [|done].
        apply wrap_representable. int64_unfold. lia. }
      rewrite Hw. eexists. split; [reflexivity|]. cbn.
      split; [unfold wrapped; destruct (index <? 0) eqn:?; lia|].
      split.
      { unfold dim, erase in *. cbn.
        rewrite length_delete; [|apply lookup_lt_is_Some]; lia. }
      repeat split; try done.
      apply add_mul_exact.
    + intros Hout.
      destruct (_ || _) eqn:E'; [done|].
      apply orb_false_iff in E'. lia.
Qed.

(** Claim C2. On a handle of rank 0 [select] fails. On a handle of rank > 0,
    with [dim] normalised to [d'], [select] accepts exactly the indices of
    [[-size(dim), size(dim))], a negative index being wrapped once by adding
    [size(dim)], and answers IndexOutOfRange for any other index. The result
    has rank one less; its sizes and strides are those of the source without
    position [d'], and its storage offset is the source's offset plus the
    wrapped index times [strides[dim]], computed on [int64_t] (this is the
    exact sum whenever the exact sum is an [int64_t] value). *)
Theorem select_geometry (t : Tensor) (d index : Z) :
  wf_tensor t -> Int64.representable index ->
  (dim t = 0 -> select t d index = Err ZeroDimTensorError) /\
  (forall d', 0 < dim t -> maybe_wrap_dim d (dim t) = Ok d' ->
     let n := sizes t !!! Z.to_nat d' in
     let stride := strides t !!! Z.to_nat d' in
     let wrapped := if index <? 0 then index + n else index in
     (- n <= index < n ->
        exists r, select t d index = Ok r /\
          0 <= wrapped < n /\
          dim r = dim t - 1 /\
          sizes r = delete (Z.to_nat d') (sizes t) /\
          strides r = delete (Z.to_nat d') (strides t) /\
          storage_offset r
            = Int64.add (storage_offset t) (Int64.mul wrapped stride) /\
          (Int64.representable (storage_offset t + wrapped * stride) ->
           storage_offset r = storage_offset t + wrapped * stride)) /\
     (~ (- n <= index < n) -> select t d index = Err IndexOutOfRange)).
Proof. apply select_cases. Qed.

Lemma select_geometry_witness :
  exists r, select t53 0 (-1) = Ok r /\ dim r = 1 /\ sizes r = [3]
            /\ storage_offset r = 19.
Proof.
  assert (Hidx : Int64.representable (-1)) by (int64_unfold; lia).
  destruct (select_geometry t53 0 (-1) wf_t53 Hidx) as [_ H].
  destruct (H 0 ltac:(unfold dim; cbn; lia) eq_refl) as [Hin _].
  destruct (Hin ltac:(cbv -[Z.le Z.lt]; lia))
    as (r & Hr & _ & Hdim & Hsz & _ & _ & Hoff).
  exists r. split; [exact Hr|]. split; [exact Hdim|]. split; [exact Hsz|].
  apply Hoff. cbv -[Z.le Z.lt]. lia.
Defined.

(** The element of the selected view at a multi-index is the element of the
    source at that multi-index with the wrapped index put in at [dim]. *)
Lemma select_element (t r : Tensor) (d d' index : Z) (multi : list Z) :
  wf_tensor t -> Int64.representable index -> 0 < dim t ->
  maybe_wrap_dim d (dim t) = Ok d' ->
  let n := sizes t !!! Z.to_nat d' in
  let wrapped := if index <? 0 then index + n else index in
  - n <= index < n ->
  Int64.representable (storage_offset t
                       + wrapped * (strides t !!! Z.to_nat d')) ->
  select t d index = Ok r ->
  Z.of_nat (length multi) = dim r ->
  element_offset r multi
  = element_offset t (insert_at multi d' wrapped).
Proof.
  intros Hwf Hidx Hpos Hd n wrapped Hin Hexact Hsel Hlen.
  destruct (select_cases t d index Hwf Hidx) as [_ H].
  destruct (H d' Hpos Hd) as [Hok _].
  destruct (Hok Hin) as (r' & Hr' & _ & Hdim & _ & Hst & _ & Hoff).
  assert (r' = r) as -> by congruence.
  destruct (maybe_wrap_dim_Ok _ _ _ Hd) as [Hrange _].
  destruct Hwf as (_ & Hl & _).
  unfold element_offset, insert_at.
  rewrite sum_zip_insert.
  - rewrite Hst, (Hoff Hexact). fold n. fold wrapped. ring.
  - unfold dim in *. lia.
  - unfold dim in *. lia.
Qed.

(** ** slice *)

(** The bounds lines 304-319 compute are those of the specification. *)
Lemma slice_bounds n start end_ :
  0 <= n <= Int64.max_signed ->
  Int64.representable start -> Int64.representable end_ ->
  let start1 := if start <? 0 then Int64.add start n else start in
  let end1 := if end_ <? 0 then Int64.add end_ n else end_ in
  let start2 := if start1 <? 0 then 0
                else if n <=? start1 then n else start1 in
  let end2 := if end1 <? start2 then start2
              else if n <=? end1 then n else end1 in
  start2 = slice_start n start /\ end2 = slice_end n start end_ /\
  0 <= slice_start n start <= slice_end n start end_ /\
  slice_end n start end_ <= n.
Proof.
  intros Hn Hs He start1 end1 start2 end2.
  assert (H1 : start1 = relative n start).
  { unfold start1, relative. destruct (start <? 0) eqn:E; [|done].
    apply wrap_representable. int64_unfold. lia. }
  assert (H2 : end1 = relative n end_).
  { unfold end1, relative. destruct (end_ <? 0) eqn:E; [|done].
    apply wrap_representable. int64_unfold. lia. }
  assert (H3 : start2 = slice_start n start).
  { unfold start2, slice_start, clamp. rewrite H1.
    destruct (Z.ltb_spec (relative n start) 0);
      [|destruct (Z.leb_spec n (relative n start))]; lia. }
  assert (H4 : end2 = slice_end n start end_).
  { unfold end2, slice_end, clamp. rewrite H2, H3.
    set (s := slice_start n start). set (r := relative n end_).
    assert (0 <= s <= n) by (unfold s, slice_start, clamp; lia).
    destruct (Z.ltb_spec r s), (Z.ltb_spec (Z.max 0 (Z.min n r)) s);
      try lia; destruct (Z.leb_spec n r); lia. }
  split; [done|]. split; [done|].
  unfold slice_end, slice_start, clamp.
  destruct (Z.ltb_spec (Z.max 0 (Z.min n (relative n end_)))
                       (Z.max 0 (Z.min n (relative n start)))); lia.
Qed.

(** The three outcomes of [slice] on a well-formed handle. *)
Lemma slice_cases (t : Tensor) (d d' start end_ step : Z) :
  wf_tensor t -> Int64.representable start -> Int64.representable end_ ->
  0 < dim t -> maybe_wrap_dim d (dim t) = Ok d' ->
  let n := sizes t !!! Z.to_nat d' in
  let stride := strides t !!! Z.to_nat d' in
  let s := slice_start n start in
  let e := slice_end n start end_ in
  (step <= 0 -> slice t d start end_ step = Err NonPositiveStep) /\
  (0 < step ->
     0 <= s <= e /\ e <= n /\
     (e = s -> slice t d start end_ step = Ok EmptyTensor) /\
     (e <> s -> e - s + step - 1 <= Int64.max_signed ->
      slice t d start end_ step
      = Ok (View {| sizes := <[Z.to_nat d' := ceil_div (e - s) step]> (sizes t);
                    strides :=
                      <[Z.to_nat d' := Int64.mul stride step]> (strides t);
                    storage_offset :=
                      Int64.add (storage_offset t) (Int64.mul s stride);
                    is_sparse := is_sparse t |}))).
Proof.
  intros Hwf Hstart Hend Hpos Hd n stride s e.
  destruct (maybe_wrap_dim_Ok _ _ _ Hd) as [Hr _].
  assert (Hd' : 0 <= d' < dim t) by lia.
  pose proof (wf_size_bounds t d' Hwf Hd') as Hn. fold n in Hn.
  destruct (slice_bounds n start end_ Hn Hstart Hend) as (Hs & He & Hse & Hen).
  cbv zeta in Hs, He, Hse, Hen.
  unfold slice. cbv zeta.
  destruct (0 <? dim t) eqn:E; [|lia]. cbn [negb].
  rewrite Hd. cbn [bind]. fold n. fold stride.
  split.
  - intros Hstep. destruct (Z.leb_spec step 0); [done|lia].
  - intros Hstep. destruct (Z.leb_spec step 0); [lia|].
    rewrite He, Hs. fold s e. fold s e in Hse, Hen.
    split; [done|]. split; [done|].
    assert (Hlen : Int64.sub e s = e - s).
    { apply wrap_representable. int64_unfold. lia. }
    rewrite Hlen. unfold USE_TH_SIZE_ZERO_DIM. cbn [negb andb].
    split.
    + intros ->. by rewrite Z.sub_diag.
    + intros Hne Hfit. destruct (Z.eqb_spec (e - s) 0); [lia|].
      do 3 f_equal. unfold as_strided3. f_equal. f_equal.
      unfold Int64.div, Int64.sub, Int64.add.
      rewrite wrap_sub_wrap_l.
      rewrite (wrap_representable (e - s + step - 1)) by (int64_unfold; lia).
      rewrite Z.quot_div_nonneg by lia.
      rewrite ceil_div_round_up by lia.
      pose proof (ceil_div_spec (e - s) step ltac:(lia)).
      apply wrap_representable. int64_unfold. nia.
Qed.

(** Claim C1, as the code has it. For a handle of rank > 0 and [dim]
    normalised to [d'], a [step <= 0] fails with NonPositiveStep. For
    [step > 0], [start] and [end] are made relative to [size(dim)] when
    negative, clamped into [[0, size(dim)]], and [end] is forced to [start]
    when it lies before it. When the resulting length [end - start] is 0 the
    result is the fresh tensor without elements, not a view. When it is not 0
    (and rounding [end - start] up to a multiple of [step] stays within
    [int64_t]) the result is a view whose size along [dim] is
    [ceil((end - start) / step)], whose stride along [dim] is the old stride
    times [step] and whose storage offset is the old offset plus [start]
    times the old stride, the last two computed on [int64_t]. *)
Theorem slice_geometry (t : Tensor) (d d' start end_ step : Z) :
  wf_tensor t -> Int64.representable start -> Int64.representable end_ ->
  0 < dim t -> maybe_wrap_dim d (dim t) = Ok d' ->
  let n := sizes t !!! Z.to_nat d' in
  let stride := strides t !!! Z.to_nat d' in
  let s := slice_start n start in
  let e := slice_end n start end_ in
  (step <= 0 -> slice t d start end_ step = Err NonPositiveStep) /\
  (0 < step ->
     0 <= s <= e /\ e <= n /\
     (e = s -> slice t d start end_ step = Ok EmptyTensor) /\
     (e <> s -> e - s + step - 1 <= Int64.max_signed ->
      slice t d start end_ step
      = Ok (View {| sizes := <[Z.to_nat d' := ceil_div (e - s) step]> (sizes t);
                    strides :=
                      <[Z.to_nat d' := Int64.mul stride step]> (strides t);
                    storage_offset :=
                      Int64.add (storage_offset t) (Int64.mul s stride);
                    is_sparse := is_sparse t |}))).
Proof. apply slice_cases. Qed.

Lemma slice_geometry_witness :
  slice t53 0 1 4 2
  = Ok (View {| sizes := [2; 3]; strides := [6; 1]; storage_offset := 10;
                is_sparse := false |}).
Proof.
  assert (H1 : Int64.representable 1) by (int64_unfold; lia).
  assert (H4 : Int64.representable 4) by (int64_unfold; lia).
  destruct (slice_geometry t53 0 0 1 4 2 wf_t53 H1 H4
              ltac:(unfold dim; cbn; lia) eq_refl) as [_ H].
  destruct (H ltac:(lia)) as (_ & _ & _ & Hview).
  exact (Hview ltac:(cbv -[Z.le Z.lt]; lia) ltac:(cbv -[Z.le Z.lt]; lia)).
Defined.

(** Claim C1 as stated fails on an empty range: slicing the [[5,3]] handle
    along dimension 0 from 2 to 2 does not give the view of sizes [[0,3]],
    strides [[3,1]] and offset [7 + 2*3] that the statement describes, but the
    fresh tensor without elements. *)
Lemma slice_empty_range_is_not_a_view :
  slice t53 0 2 2 1 = Ok EmptyTensor /\
  ~ (exists r, slice t53 0 2 2 1 = Ok (View r) /\
       sizes r = [0; 3] /\ strides r = [3; 1] /\ storage_offset r = 13).
Proof.
  split; [reflexivity|]. intros (r & Hr & _). discriminate Hr.
Qed.

(** The rounding of line 328 leaves [int64_t] for a large [step]: two
    entries taken with step [2^63 - 1] give a view of size [-1]. *)
Lemma slice_round_up_overflow :
  slice {| sizes := [2]; strides := [1]; storage_offset := 0;
           is_sparse := false |} 0 0 2 Int64.max_signed
  = Ok (View {| sizes := [-1]; strides := [Int64.max_signed];
                storage_offset := 0; is_sparse := false |}).
Proof. reflexivity. Qed.

(** ** narrow *)

(** The slice that [narrow] asks for is the narrowed view. *)
Lemma narrow_geometry (t : Tensor) (d d' start length : Z) :
  wf_tensor t -> 0 < dim t -> maybe_wrap_dim d (dim t) = Ok d' ->
  0 <= start -> 0 < length -> start + length <= sizes t !!! Z.to_nat d' ->
  slice t d start (start + length) 1
  = Ok (narrowed t d' start length).
Proof.
  intros Hwf Hpos Hd Hs Hl Hfit.
  destruct (maybe_wrap_dim_Ok _ _ _ Hd) as [Hr _].
  assert (Hd' : 0 <= d' < dim t) by lia.
  pose proof (wf_size_bounds t d' Hwf Hd') as Hn.
  pose proof (wf_stride_representable t d' Hwf Hd') as Hst.
  set (n := sizes t !!! Z.to_nat d') in *.
  assert (Hrs : Int64.representable start) by (int64_unfold; lia).
  assert (Hre : Int64.representable (start + length)) by (int64_unfold; lia).
  destruct (slice_cases t d d' start (start + length) 1 Hwf Hrs Hre Hpos Hd)
    as [_ Hslice].
  destruct (Hslice ltac:(lia)) as (_ & _ & _ & Hview). clear Hslice.
  fold n in Hview.
  assert (Hss : slice_start n start = start).
  { unfold slice_start, clamp, relative. destruct (Z.ltb_spec start 0); lia. }
  assert (Hse : slice_end n start (start + length) = start + length).
  { unfold slice_end. rewrite Hss. unfold clamp, relative.
    destruct (Z.ltb_spec (start + length) 0); [lia|].
    destruct (Z.ltb_spec (Z.max 0 (Z.min n (start + length))) start); lia. }
  rewrite Hss, Hse in Hview.
  rewrite Hview by (int64_unfold; lia).
  replace (start + length - start) with length by lia.
  rewrite ceil_div_1. unfold narrowed.
  unfold Int64.mul at 1. rewrite Z.mul_1_r, (wrap_representable _ Hst).
  rewrite insert_lookup_total_id; [done|].
  destruct Hwf as (_ & Hlen & _). unfold dim in Hd'. lia.
Qed.

(** [narrow] either hands back the narrowed view or fails with
    IndexOutOfRange. *)
Lemma narrow_cases (t : Tensor) (d d' start length : Z) :
  wf_tensor t -> Int64.representable start -> Int64.representable length ->
  0 < dim t -> maybe_wrap_dim d (dim t) = Ok d' ->
  let n := sizes t !!! Z.to_nat d' in
  (0 <= start /\ 0 < length /\ start + length <= n ->
     narrow t d start length = slice t d start (start + length) 1 /\
     narrow t d start length = Ok (narrowed t d' start length)) /\
  (~ (0 <= start /\ 0 < length /\ start + length <= n) ->
     narrow t d start length = Err IndexOutOfRange).
Proof.
  intros Hwf Hstart Hlength Hpos Hd n.
  destruct (maybe_wrap_dim_Ok _ _ _ Hd) as [Hr _].
  assert (Hd' : 0 <= d' < dim t) by lia.
  pose proof (wf_size_bounds t d' Hwf Hd') as Hn. fold n in Hn.
  unfold narrow, size.
  destruct (0 <? dim t) eqn:E; [|lia]. cbn [negb].
  rewrite Hd. cbn [bind]. fold n. unfold USE_TH_SIZE_ZERO_DIM.
  split.
  - intros (Hs & Hl & Hfit).
    destruct (Z.ltb_spec start 0); [lia|].
    destruct (Z.leb_spec length 0); [lia|]. cbn [orb].
    assert (Hsub : Int64.sub n length = n - length).
    { apply wrap_representable. int64_unfold. lia. }
    rewrite Hsub. destruct (Z.ltb_spec (n - length) start); [lia|].
    assert (Hadd : Int64.add start length = start + length).
    { apply wrap_representable. int64_unfold. lia. }
    rewrite Hadd. split; [done|].
    by apply narrow_geometry.
  - intros Hnot.
    destruct (Z.ltb_spec start 0); [done|].
    destruct (Z.leb_spec length 0); [done|]. cbn [orb].
    assert (Hsub : Int64.sub n length = n - length).
    { apply wrap_representable. int64_unfold. lia. }
    rewrite Hsub. destruct (Z.ltb_spec (n - length) start); [done|lia].
Qed.

(** Narrowing to the whole dimension gives back the geometry of the
    source. *)
Lemma narrow_whole_dimension (t : Tensor) (d d' : Z) :
  wf_tensor t -> 0 < dim t -> maybe_wrap_dim d (dim t) = Ok d' ->
  0 < sizes t !!! Z.to_nat d' ->
  narrow t d 0 (sizes t !!! Z.to_nat d') = Ok (View t).
Proof.
  intros Hwf Hpos Hd Hn.
  destruct (maybe_wrap_dim_Ok _ _ _ Hd) as [Hr _].
  assert (Hd' : 0 <= d' < dim t) by lia.
  pose proof (wf_size_bounds t d' Hwf Hd') as Hb.
  destruct (narrow_cases t d d' 0 (sizes t !!! Z.to_nat d') Hwf) as [Hok _];
    try done; try (int64_unfold; lia).
  destruct Hok as [_ ->]; [lia|].
  unfold narrowed. f_equal. f_equal.
  destruct Hwf as (_ & Hlen & _ & _ & Hoff).
  rewrite insert_lookup_total_id by (unfold dim in Hd'; lia).
  unfold Int64.add, Int64.mul. rewrite wrap_add_wrap_r, Z.mul_0_l, Z.add_0_r.
  rewrite (wrap_representable _ Hoff). by destruct t.
Qed.

Lemma narrow_Ok_inv (t : Tensor) (d d' start length : Z) (v : Handle) :
  wf_tensor t -> Int64.representable start -> Int64.representable length ->
  0 < dim t -> maybe_wrap_dim d (dim t) = Ok d' ->
  narrow t d start length = Ok v ->
  (0 <= start /\ 0 < length /\ start + length <= sizes t !!! Z.to_nat d') /\
  v = narrowed t d' start length.
Proof.
  intros Hwf Hs Hl Hpos Hd Hv.
  destruct (narrow_cases t d d' start length Hwf Hs Hl Hpos Hd) as [Hok Herr].
  destruct (decide (0 <= start /\ 0 < length
                    /\ start + length <= sizes t !!! Z.to_nat d')) as [Hc|Hc].
  - split; [done|]. destruct (Hok Hc) as [_ Hn]. congruence.
  - rewrite (Herr Hc) in Hv. discriminate.
Qed.

Lemma narrow_Err_inv (t : Tensor) (d d' start length : Z) (e : Error) :
  wf_tensor t -> Int64.representable start -> Int64.representable length ->
  0 < dim t -> maybe_wrap_dim d (dim t) = Ok d' ->
  narrow t d start length = Err e ->
  e = IndexOutOfRange /\
  ~ (0 <= start /\ 0 < length /\ start + length <= sizes t !!! Z.to_nat d').
Proof.
  intros Hwf Hs Hl Hpos Hd He.
  destruct (narrow_cases t d d' start length Hwf Hs Hl Hpos Hd) as [Hok Herr].
  destruct (decide (0 <= start /\ 0 < length
                    /\ start + length <= sizes t !!! Z.to_nat d')) as [Hc|Hc].
  - destruct (Hok Hc) as [_ Hn]. congruence.
  - split; [|done]. rewrite (Herr Hc) in He. congruence.
Qed.

(** Claim C5. On a handle of rank 0 [narrow] fails. On a handle of rank > 0,
    with [dim] normalised to [d'], [narrow] succeeds exactly when
    [start >= 0], [length > 0] and [start + length <= size(dim)], and fails
    with IndexOutOfRange otherwise; on success it is
    [slice(dim, start, start + length, 1)], the view of [length] entries from
    [start] on. Narrowing a handle of shape [[5,3]] along dimension 0 with
    start 1 and length 2 gives shape [[2,3]] and advances the storage offset
    by [1 * stride(0)]. *)
Theorem narrow_is_checked_slice (t : Tensor) (d start length : Z) :
  wf_tensor t -> Int64.representable start -> Int64.representable length ->
  (dim t = 0 -> narrow t d start length = Err ZeroDimTensorError) /\
  (forall d', 0 < dim t -> maybe_wrap_dim d (dim t) = Ok d' ->
     let n := sizes t !!! Z.to_nat d' in
     (0 <= start /\ 0 < length /\ start + length <= n ->
        narrow t d start length = slice t d start (start + length) 1 /\
        narrow t d start length = Ok (narrowed t d' start length)) /\
     (~ (0 <= start /\ 0 < length /\ start + length <= n) ->
        narrow t d start length = Err IndexOutOfRange)) /\
  (sizes t = [5; 3] ->
     narrow t 0 1 2
     = Ok (View {| sizes := [2; 3];
                   strides := strides t;
                   storage_offset :=
                     Int64.add (storage_offset t)
                               (Int64.mul 1 (strides t !!! 0%nat));
                   is_sparse := is_sparse t |})).
Proof.
  intros Hwf Hstart Hlength. split; [|split].
  - intros H0. unfold narrow. by rewrite H0.
  - intros d' Hpos Hd. by apply narrow_cases.
  - intros Hsz.
    assert (Hdim : dim t = 2) by (unfold dim; by rewrite Hsz).
    assert (H1 : Int64.representable 1) by (int64_unfold; lia).
    assert (H2 : Int64.representable 2) by (int64_unfold; lia).
    assert (Hd0 : maybe_wrap_dim 0 (dim t) = Ok 0)
      by (apply maybe_wrap_dim_id; lia).
    destruct (narrow_cases t 0 0 1 2 Hwf H1 H2 ltac:(lia) Hd0) as [Hok _].
    destruct Hok as [_ ->].
    { rewrite Hsz. change ([5; 3] !!! Z.to_nat 0) with 5. lia. }
    unfold narrowed. by rewrite Hsz.
Qed.

Lemma narrow_is_checked_slice_witness :
  narrow t53 0 1 2
  = Ok (View {| sizes := [2; 3]; strides := [3; 1]; storage_offset := 10;
                is_sparse := false |}) /\
  narrow t53 (-1) 1 2 = slice t53 (-1) 1 3 1 /\
  narrow t53 0 4 2 = Err IndexOutOfRange.
Proof.
  assert (H1 : Int64.representable 1) by (int64_unfold; lia).
  assert (H2 : Int64.representable 2) by (int64_unfold; lia).
  assert (H4 : Int64.representable 4) by (int64_unfold; lia).
  assert (Hpos : 0 < dim t53) by (unfold dim; cbn; lia).
  split; [|split].
  - destruct (narrow_is_checked_slice t53 0 1 2 wf_t53 H1 H2) as (_ & _ & H).
    exact (H eq_refl).
  - destruct (narrow_is_checked_slice t53 (-1) 1 2 wf_t53 H1 H2)
      as (_ & H & _).
    destruct (H 1 Hpos eq_refl) as [Hok _].
    exact (proj1 (Hok ltac:(cbv -[Z.le Z.lt]; lia))).
  - destruct (narrow_is_checked_slice t53 0 4 2 wf_t53 H4 H2) as (_ & H & _).
    destruct (H 0 Hpos eq_refl) as [_ Herr].
    exact (Herr ltac:(cbv -[Z.le Z.lt]; lia)).
Defined.

(** ** split_with_sizes *)

Section SplitWithSizes.

Variables (t : Tensor) (d d' : Z).
Hypothesis Hwf : wf_tensor t.
Hypothesis Hpos : 0 < dim t.
Hypothesis Hd : maybe_wrap_dim d (dim t) = Ok d'.

Let n := sizes t !!! Z.to_nat d'.

Lemma size_bounds_n : 0 <= n <= Int64.max_signed.
Proof.
  destruct (maybe_wrap_dim_Ok _ _ _ Hd) as [Hr _].
  apply wf_size_bounds; [done|lia].
Qed.

(** Positive lengths that fit are all narrowed. *)
Lemma split_with_sizes_loop_complete (l : list Z) (start : Z) :
  0 <= start -> Forall (fun x => 0 < x) l -> start + sum_list l <= n ->
  split_with_sizes_loop t d l start
  = Ok (consecutive t d' start l, start + sum_list l).
Proof.
  pose proof size_bounds_n as Hn.
  revert start. induction l as [|x l IH]; intros start Hs Hl Hfit.
  - cbn. by rewrite Z.add_0_r.
  - apply Forall_cons in Hl as [Hx Hl]. rewrite sum_list_cons in Hfit |- *.
    pose proof (sum_list_pos_nonneg l Hl).
    cbn [split_with_sizes_loop].
    destruct (Z.ltb_spec x 0); [lia|].
    destruct (narrow_cases t d d' start x Hwf) as [Hok _];
      [int64_unfold; lia | int64_unfold; lia | done | done |].
    destruct Hok as [_ ->]; [fold n; lia|]. cbn [bind].
    assert (Hadd : Int64.add start x = start + x).
    { apply wrap_representable. int64_unfold. lia. }
    rewrite Hadd, IH by (done || lia). cbn. do 2 f_equal. lia.
Qed.

(** A loop that ends has only met positive lengths that fit. *)
Lemma split_with_sizes_loop_sound (l : list Z) (start : Z) vs e :
  0 <= start <= n -> Forall Int64.representable l ->
  split_with_sizes_loop t d l start = Ok (vs, e) ->
  Forall (fun x => 0 < x) l /\ e = start + sum_list l /\ e <= n.
Proof.
  pose proof size_bounds_n as Hn.
  revert start vs. induction l as [|x l IH]; intros start vs Hs Hrep Hok.
  - cbn in Hok. injection Hok as <- <-. cbn. split; [constructor|lia].
  - apply Forall_cons in Hrep as [Hx Hrep].
    cbn [split_with_sizes_loop] in Hok.
    destruct (Z.ltb_spec x 0); [discriminate|].
    destruct (narrow t d start x) as [v|err] eqn:Hv; [|discriminate].
    cbn [bind] in Hok.
    apply (narrow_Ok_inv t d d') in Hv as [(H1 & H2 & H3) _];
      [|done|int64_unfold; lia|done..].
    fold n in H3.
    assert (Hadd : Int64.add start x = start + x).
    { apply wrap_representable. int64_unfold. lia. }
    rewrite Hadd in Hok.
    destruct (split_with_sizes_loop t d l (start + x)) as [[vs' e']|]
      eqn:Hrec; [|discriminate].
    cbn in Hok. injection Hok as <- <-.
    apply IH in Hrec as (Hall & -> & Hle); [|lia|done].
    split; [by constructor|]. rewrite sum_list_cons. lia.
Qed.

(** The loop never fails with ShapeMismatch, and fails with
    IndexOutOfRange when no entry is negative. *)
Lemma split_with_sizes_loop_error (l : list Z) (start : Z) err :
  0 <= start <= n -> Forall Int64.representable l ->
  split_with_sizes_loop t d l start = Err err ->
  err <> ShapeMismatch /\
  (Forall (fun x => 0 <= x) l -> err = IndexOutOfRange).
Proof.
  pose proof size_bounds_n as Hn.
  revert start. induction l as [|x l IH]; intros start Hs Hrep Herr.
  - discriminate.
  - apply Forall_cons in Hrep as [Hx Hrep].
    cbn [split_with_sizes_loop] in Herr.
    destruct (Z.ltb_spec x 0).
    { injection Herr as <-. split; [done|].
      intros Hall. apply Forall_cons in Hall as [? _]. lia. }
    destruct (narrow t d start x) as [v|err'] eqn:Hv.
    + cbn [bind] in Herr.
      apply (narrow_Ok_inv t d d') in Hv as [(H1 & H2 & H3) _];
        [|done|int64_unfold; lia|done..].
      fold n in H3.
      assert (Hadd : Int64.add start x = start + x).
      { apply wrap_representable. int64_unfold. lia. }
      rewrite Hadd in Herr.
      destruct (split_with_sizes_loop t d l (start + x)) as [[vs' e']|err']
        eqn:Hrec; [discriminate|].
      cbn in Herr. injection Herr as <-.
      apply IH in Hrec as [Hne Hidx]; [|lia|done].
      split; [done|]. intros Hall. apply Forall_cons in Hall as [_ Hall]. auto.
    + cbn [bind] in Herr. injection Herr as <-.
      apply (narrow_Err_inv t d d') in Hv as [-> _];
        [done|done|int64_unfold; lia|done..].
Qed.

End SplitWithSizes.

(** What [split_with_sizes] does, case by case, on a handle of rank > 0
    with [dim] normalised to [d']: the loop ends exactly on the lists whose
    entries are all > 0 and sum to at most [size(dim)], and every other list
    of entries >= 0 is stopped by [narrow]. *)
Lemma split_with_sizes_cases (t : Tensor) (l : list Z)
    (d d' : Z) :
  wf_tensor t -> Forall Int64.representable l ->
  0 < dim t -> maybe_wrap_dim d (dim t) = Ok d' ->
  let n := sizes t !!! Z.to_nat d' in
  (forall views,
     split_with_sizes t l d = Ok views <->
     Forall (fun x => 0 < x) l /\ sum_list l = n /\
     views = consecutive t d' 0 l) /\
  (split_with_sizes t l d = Err ShapeMismatch <->
   Forall (fun x => 0 < x) l /\ sum_list l < n) /\
  (Forall (fun x => 0 <= x) l ->
   ~ (Forall (fun x => 0 < x) l /\ sum_list l <= n) ->
   split_with_sizes t l d = Err IndexOutOfRange) /\
  (Exists (fun x => x < 0) l -> fails (split_with_sizes t l d)).
Proof.
  intros Hwf Hrep Hpos Hd n.
  pose proof (size_bounds_n t d d' Hwf Hpos Hd) as Hn. fold n in Hn.
  assert (Hunf : split_with_sizes t l d =
    match split_with_sizes_loop t d l 0 with
    | Ok (splits, start_idx) =>
        if negb (start_idx =? n) then Err ShapeMismatch else Ok splits
    | Err e => Err e
    end).
  { unfold split_with_sizes. destruct (Z.eqb_spec (dim t) 0); [lia|].
    rewrite (size_Ok _ _ _ Hd). cbn [bind]. fold n.
    by destruct (split_with_sizes_loop t d l 0) as [[? ?]|]. }
  assert (Hsuccess : forall views,
     split_with_sizes t l d = Ok views <->
     Forall (fun x => 0 < x) l /\ sum_list l = n /\
     views = consecutive t d' 0 l).
  { intros views. rewrite Hunf. split.
    - destruct (split_with_sizes_loop t d l 0) as [[vs e]|err] eqn:Hloop;
        [|discriminate].
      destruct (Z.eqb_spec e n); [|discriminate]. cbn. intros [= <-].
      pose proof Hloop as Hloop'.
      apply (split_with_sizes_loop_sound t d d' Hwf Hpos Hd) in Hloop
        as (Hall & He & _); [|lia|done].
      split; [done|]. split; [lia|].
      rewrite (split_with_sizes_loop_complete t d d' Hwf Hpos Hd) in Hloop';
        [congruence|lia|done|fold n; lia].
    - intros (Hall & Hsum & ->).
      rewrite (split_with_sizes_loop_complete t d d' Hwf Hpos Hd);
        [|lia|done|fold n; lia].
      rewrite Z.add_0_l, Hsum, Z.eqb_refl. done. }
  assert (Hmismatch : split_with_sizes t l d = Err ShapeMismatch <->
     Forall (fun x => 0 < x) l /\ sum_list l < n).
  { rewrite Hunf. split.
    - destruct (split_with_sizes_loop t d l 0) as [[vs e]|err] eqn:Hloop.
      + apply (split_with_sizes_loop_sound t d d' Hwf Hpos Hd) in Hloop
          as (Hall & He & Hle); [|lia|done].
        fold n in Hle. destruct (Z.eqb_spec e n); [discriminate|].
        intros _. split; [done|lia].
      + apply (split_with_sizes_loop_error t d d' Hwf Hpos Hd) in Hloop
          as [Hne _]; [|lia|done].
        congruence.
    - intros (Hall & Hsum).
      rewrite (split_with_sizes_loop_complete t d d' Hwf Hpos Hd);
        [|lia|done|fold n; lia].
      rewrite Z.add_0_l. destruct (Z.eqb_spec (sum_list l) n); [lia|done]. }
  split; [done|]. split; [done|]. split.
  - intros Hnonneg Hnot. rewrite Hunf.
    destruct (split_with_sizes_loop t d l 0) as [[vs e]|err'] eqn:Hloop.
    + apply (split_with_sizes_loop_sound t d d' Hwf Hpos Hd) in Hloop
        as (Hall & He & Hle); [|lia|done].
      exfalso. apply Hnot. fold n in Hle. split; [done|lia].
    + apply (split_with_sizes_loop_error t d d' Hwf Hpos Hd) in Hloop
        as [_ Hidx]; [|lia|done].
      f_equal. auto.
  - intros Hneg.
    destruct (split_with_sizes t l d) as [views|err] eqn:Hres; [|by eexists].
    destruct (proj1 (Hsuccess views) eq_refl) as (Hall & _). exfalso.
    apply Exists_exists in Hneg as (x & Hin & Hx).
    rewrite Forall_forall in Hall. specialize (Hall x Hin). lia.
Qed.

(** Claim C6 at the failing input. The entries of [[0; 5]] are all >= 0 and
    sum to the size 5 of dimension 0 of the [[5,3]] handle, so that the
    claim, and the check of lines 367-371 that rejects negative entries
    only, accept the list; the call fails, in the [narrow] of the zero
    entry. *)
Lemma split_with_sizes_rejects_zero_entry :
  Forall (fun x => 0 <= x) [0; 5] /\
  sum_list [0; 5] = sizes t53 !!! 0%nat /\
  split_with_sizes t53 [0; 5] 0 = Err IndexOutOfRange.
Proof. split; [repeat constructor; lia|]. split; reflexivity. Qed.

(** ** split *)

Section Split.

Variables (t : Tensor) (d d' split_size : Z).
Hypothesis Hwf : wf_tensor t.
Hypothesis Hpos : 0 < dim t.
Hypothesis Hd : maybe_wrap_dim d (dim t) = Ok d'.

Let n := sizes t !!! Z.to_nat d'.

(** The loop of [split] from iteration [i] on, when the part lengths are
    legal. *)
Lemma split_loop_parts (last num : Z) (k : nat) (i : Z) :
  0 < split_size -> 0 < last ->
  split_size * (num - 1) + last = n ->
  0 <= i -> i + Z.of_nat k = num ->
  split_loop t d split_size last num k i
  = Ok (match k with
        | O => []
        | S k' => consecutive t d' (i * split_size)
                    (replicate k' split_size ++ [last])
        end).
Proof.
  pose proof (size_bounds_n t d d' Hwf Hpos Hd) as Hn. fold n in Hn.
  intros Hss Hlast Hsum. revert i.
  induction k as [|k IH]; intros i Hi Hik; [done|].
  cbn [split_loop].
  assert (Hnum : 0 <= num - 1 <= split_size * (num - 1)) by nia.
  assert (Hi' : 0 <= i * split_size <= split_size * (num - 1)) by nia.
  assert (Hsub : Int64.sub num 1 = num - 1).
  { apply wrap_representable. int64_unfold. lia. }
  assert (Hmul : Int64.mul i split_size = i * split_size).
  { apply wrap_representable. int64_unfold. lia. }
  rewrite Hsub, Hmul.
  set (len := if i <? num - 1 then split_size else last).
  assert (Hlen : 0 < len /\ i * split_size + len <= n).
  { unfold len. destruct (Z.ltb_spec i (num - 1)); nia. }
  assert (Hr1 : Int64.representable (i * split_size))
    by (int64_unfold; lia).
  assert (Hr2 : Int64.representable len) by (int64_unfold; lia).
  destruct (narrow_cases t d d' (i * split_size) len Hwf Hr1 Hr2 Hpos Hd)
    as [Hok _].
  destruct Hok as [_ ->]; [fold n; lia|]. unfold len.
  cbn [bind]. rewrite IH by lia. cbn [bind].
  destruct k as [|k].
  - destruct (Z.ltb_spec i (num - 1)); [lia|]. done.
  - destruct (Z.ltb_spec i (num - 1)); [|lia].
    cbn [replicate app consecutive]. do 3 f_equal. lia.
Qed.

End Split.

(** The parts of [split] add up to the size that is split. *)
Lemma part_lengths_sum n split_size parts :
  1 <= parts -> sum_list (part_lengths n split_size parts) = n.
Proof.
  intros H. unfold part_lengths.
  rewrite sum_list_app, sum_list_replicate, sum_list_cons, Z2Nat.id by lia.
  change (sum_list []) with 0. lia.
Qed.

(** [num_splits] as line 345 computes it. *)
Lemma num_splits_ceil n split_size :
  0 < n <= Int64.max_signed -> 0 < split_size <= Int64.max_signed ->
  n <= split_size \/ n + split_size - 1 <= Int64.max_signed ->
  Z.max (Int64.div (Int64.sub (Int64.add n split_size) 1) split_size) 1
  = ceil_div n split_size.
Proof.
  intros Hn Hss Hfit. unfold Int64.div, Int64.sub, Int64.add.
  rewrite wrap_sub_wrap_l.
  destruct (Z.le_gt_cases (n + split_size - 1) Int64.max_signed) as [Hle|Hgt].
  - rewrite (wrap_representable (n + split_size - 1)) by (int64_unfold; lia).
    rewrite Z.quot_div_nonneg, ceil_div_round_up by lia.
    pose proof (ceil_div_spec n split_size ltac:(lia)).
    pose proof (ceil_div_pos n split_size ltac:(lia) ltac:(lia)).
    assert (ceil_div n split_size <= n).
    { pose proof (Z.mul_nonneg_nonneg (split_size - 1)
                    (ceil_div n split_size - 1) ltac:(lia) ltac:(lia)).
      lia. }
    assert (Hc : Int64.representable (ceil_div n split_size))
      by (int64_unfold; lia).
    rewrite (wrap_representable _ Hc). lia.
  - destruct Hfit as [Hfit|Hfit]; [|lia].
    rewrite (wrap_overflow (n + split_size - 1)) by (int64_unfold; lia).
    pose proof (quot_nonpos_bounds (n + split_size - 1 - Int64.modulus)
                  split_size ltac:(int64_unfold; lia) ltac:(lia)).
    rewrite wrap_representable by (int64_unfold; lia).
    rewrite ceil_div_le by lia. lia.
Qed.

(** [last_split_size] as line 348 computes it. *)
Lemma last_split_size_exact n split_size num :
  Int64.representable (n - split_size * (num - 1)) ->
  Int64.sub split_size (Int64.sub (Int64.mul split_size num) n)
  = n - split_size * (num - 1).
Proof.
  intros H. unfold Int64.sub, Int64.mul.
  rewrite wrap_sub_wrap_r.
  replace (split_size - (Int64.wrap (split_size * num) - n))
    with (split_size + n - Int64.wrap (split_size * num)) by lia.
  rewrite wrap_sub_wrap_r.
  replace (split_size + n - split_size * num)
    with (n - split_size * (num - 1)) by lia.
  by apply wrap_representable.
Qed.

(** What [split] does, case by case: it fails on a handle of rank 0, for
    [split_size < 0], and for [split_size = 0] on a dimension of size other
    than 0; on a dimension of size 0 the single part of length 0 is stopped
    by [narrow]; on a dimension with entries, for [split_size > 0], it gives
    [ceil(size(dim) / split_size)] consecutive narrowed views. *)
Lemma split_cases (t : Tensor) (split_size d : Z) :
  wf_tensor t -> Int64.representable split_size ->
  (dim t = 0 -> split t split_size d = Err ZeroDimTensorError) /\
  (0 < dim t -> split_size < 0 ->
     split t split_size d = Err InvalidSplitSize) /\
  (forall d', 0 < dim t -> maybe_wrap_dim d (dim t) = Ok d' ->
     let n := sizes t !!! Z.to_nat d' in
     (split_size = 0 -> n <> 0 ->
        split t split_size d = Err InvalidSplitSize) /\
     (0 <= split_size -> n = 0 ->
        split t split_size d = Err IndexOutOfRange) /\
     (0 < split_size -> 0 < n ->
      n <= split_size \/ n + split_size - 1 <= Int64.max_signed ->
        let parts := ceil_div n split_size in
        let last := n - split_size * (parts - 1) in
        1 <= parts /\ 0 < last <= split_size /\
        split t split_size d
        = Ok (consecutive t d' 0 (part_lengths n split_size parts)) /\
        Z.of_nat (length (part_lengths n split_size parts)) = parts /\
        ((split_size | n) ->
           part_lengths n split_size parts
           = replicate (Z.to_nat parts) split_size))).
Proof.
  intros Hwf Hrep. split; [|split].
  - intros H0. unfold split. by rewrite H0.
  - intros Hpos Hneg. unfold split.
    destruct (Z.eqb_spec (dim t) 0); [lia|].
    destruct (Z.leb_spec 0 split_size); [lia|done].
  - intros d' Hpos Hd n.
    pose proof (size_bounds_n t d d' Hwf Hpos Hd) as Hn. fold n in Hn.
    assert (Hunf : 0 <= split_size -> (0 < split_size \/ n = 0) ->
      split t split_size d =
      let num_splits :=
        if negb (split_size =? 0)
        then Z.max (Int64.div (Int64.sub (Int64.add n split_size) 1)
                              split_size) 1
        else 1 in
      let last_split_size :=
        Int64.sub split_size
          (Int64.sub (Int64.mul split_size num_splits) n) in
      split_loop t d split_size last_split_size num_splits
                 (Z.to_nat num_splits) 0).
    { intros H1 H2. unfold split.
      destruct (Z.eqb_spec (dim t) 0); [lia|].
      destruct (Z.leb_spec 0 split_size); [|lia]. cbn [negb].
      rewrite (size_Ok _ _ _ Hd). cbn [bind]. fold n.
      destruct (Z.ltb_spec 0 split_size), (Z.eqb_spec n 0); try done; lia. }
    split; [|split].
    + intros -> Hn0. unfold split.
      destruct (Z.eqb_spec (dim t) 0); [lia|]. cbn.
      rewrite (size_Ok _ _ _ Hd). cbn [bind]. fold n.
      by destruct (Z.eqb_spec n 0).
    + intros Hss Hn0. rewrite Hunf by lia. cbv zeta.
      assert (Hnum : (if negb (split_size =? 0)
                      then Z.max (Int64.div
                                    (Int64.sub (Int64.add n split_size) 1)
                                    split_size) 1
                      else 1) = 1).
      { destruct (Z.eqb_spec split_size 0); [done|]. cbn [negb].
        unfold Int64.div, Int64.sub, Int64.add. rewrite wrap_sub_wrap_l.
        rewrite (wrap_representable (n + split_size - 1))
          by (int64_unfold; lia).
        rewrite Z.quot_small by lia. reflexivity. }
      rewrite Hnum, last_split_size_exact by (int64_unfold; lia).
      change (Z.to_nat 1) with 1%nat. cbn [split_loop].
      change (0 <? Int64.sub 1 1) with false. cbv iota.
      destruct (narrow_cases t d d' (Int64.mul 0 split_size)
                  (n - split_size * (1 - 1)) Hwf) as [_ Herr];
        [apply wrap_range | int64_unfold; lia | done | done |].
      rewrite Herr; [done|]. lia.
    + intros Hss Hnpos Hfit parts last.
      pose proof (ceil_div_spec n split_size Hss) as Hceil.
      pose proof (ceil_div_pos n split_size Hnpos Hss) as Hparts.
      fold parts in Hceil, Hparts.
      assert (Hlast : 0 < last <= split_size) by (unfold last; lia).
      split; [done|]. split; [done|].
      split; [|split].
      * rewrite Hunf by lia. cbv zeta.
        destruct (Z.eqb_spec split_size 0); [lia|]. cbn [negb].
        rewrite num_splits_ceil by (int64_unfold; lia). fold parts.
        rewrite last_split_size_exact by (fold last; int64_unfold; lia).
        fold last.
        rewrite (split_loop_parts t d d' split_size Hwf Hpos Hd last parts);
          [|done|lia|fold n; unfold last; lia|lia|lia].
        destruct (Z.to_nat parts) as [|k] eqn:Hk; [lia|].
        unfold part_lengths. fold last.
        replace (Z.to_nat (parts - 1)) with k by lia. done.
      * unfold part_lengths. rewrite length_app, length_replicate. cbn. lia.
      * intros [q Hq]. unfold part_lengths.
        assert (Hpq : parts = q) by nia.
        replace (n - split_size * (parts - 1)) with split_size by nia.
        replace (Z.to_nat parts) with (S (Z.to_nat (parts - 1))) by lia.
        rewrite replicate_S_end. done.
Qed.

(** Claim C7 at the failing input. On the dimension of size 0 of the handle
    of shape [[0]], with [split_size = 1], the claim promises
    [max(ceil(0 / 1), 1) = 1] part, the part that lines 337-345 provide for
    an empty dimension; the call fails, in the [narrow] of that part. *)
Lemma split_rejects_empty_dimension :
  0 < dim t_empty /\ sizes t_empty !!! 0%nat = 0 /\
  Z.max (ceil_div 0 1) 1 = 1 /\
  split t_empty 1 0 = Err IndexOutOfRange.
Proof. repeat split; reflexivity. Qed.

(** ** chunk *)

(** The concrete case of the specification: a dimension of size 7 in 3
    chunks gives parts of lengths 3, 3 and 1. *)
Lemma chunk_7_in_3 : chunk t7 3 0 = Ok (consecutive t7 0 0 [3; 3; 1]).
Proof. reflexivity. Qed.

(** ** infer_size *)

Lemma known_sizes_nonneg l : Forall (fun s => 0 <= s) l -> known_sizes l = l.
Proof.
  unfold known_sizes. induction 1 as [|x l Hx Hl IH]; [done|].
  rewrite filter_cons_True by done. by rewrite IH.
Qed.

Lemma free_count_nonneg l : Forall (fun s => 0 <= s) l -> free_count l = 0%nat.
Proof.
  unfold free_count. induction 1 as [|x l Hx Hl IH]; [done|].
  rewrite filter_cons_False by lia. done.
Qed.

Lemma known_sizes_free pre post :
  Forall (fun s => 0 <= s) pre -> Forall (fun s => 0 <= s) post ->
  known_sizes (pre ++ -1 :: post) = pre ++ post.
Proof.
  intros Hpre Hpost. unfold known_sizes.
  rewrite filter_app, filter_cons_False by lia.
  fold (known_sizes pre). fold (known_sizes post).
  by rewrite !known_sizes_nonneg.
Qed.

Lemma free_count_free pre post :
  Forall (fun s => 0 <= s) pre -> Forall (fun s => 0 <= s) post ->
  free_count (pre ++ -1 :: post) = 1%nat.
Proof.
  intros Hpre Hpost. unfold free_count.
  rewrite filter_app, filter_cons_True, length_app by done. cbn [length].
  fold (free_count pre). fold (free_count post).
  by rewrite !free_count_nonneg.
Qed.

Lemma free_position pre post (i : nat) :
  Forall (fun s => 0 <= s) pre -> Forall (fun s => 0 <= s) post ->
  (pre ++ -1 :: post) !! i = Some (-1) -> i = length pre.
Proof.
  intros Hpre Hpost Hi.
  destruct (Nat.lt_total i (length pre)) as [Hlt|[Heq|Hgt]]; [|done|].
  - rewrite lookup_app_l in Hi by done.
    rewrite Forall_lookup in Hpre. specialize (Hpre _ _ Hi). lia.
  - rewrite lookup_app_r in Hi by lia.
    destruct (i - length pre)%nat as [|k] eqn:Hk; [lia|]. cbn in Hi.
    rewrite Forall_lookup in Hpost. specialize (Hpost _ _ Hi). lia.
Qed.

(** The validation loop on a request without free dimension. *)
Lemma infer_size_loop_known (shape : list Z) (d acc : Z) (inf : option Z) :
  Forall (fun s => 0 <= s) shape -> Int64.representable acc ->
  infer_size_loop shape d acc inf
  = Ok (Int64.wrap (acc * prod_intlist shape), inf).
Proof.
  intros Hall. revert d acc.
  induction Hall as [|x l Hx Hl IH]; intros d acc Hacc.
  - cbn [infer_size_loop].
    by rewrite prod_intlist_nil, Z.mul_1_r, wrap_representable.
  - cbn [infer_size_loop].
    destruct (Z.eqb_spec x (-1)); [lia|].
    destruct (Z.leb_spec 0 x); [|lia].
    rewrite IH by apply wrap_range.
    unfold Int64.mul. rewrite wrap_mul_wrap_l, prod_intlist_cons.
    do 3 f_equal. lia.
Qed.

(** The validation loop on a request whose only free dimension is at
    position [length pre]. *)
Lemma infer_size_loop_free (pre post : list Z) (d acc : Z) :
  Forall (fun s => 0 <= s) pre -> Forall (fun s => 0 <= s) post ->
  Int64.representable acc ->
  infer_size_loop (pre ++ -1 :: post) d acc None
  = Ok (Int64.wrap (acc * prod_intlist (pre ++ post)),
        Some (d + Z.of_nat (length pre))).
Proof.
  intros Hpre Hpost. revert d acc.
  induction Hpre as [|x l Hx Hl IH]; intros d acc Hacc.
  - cbn [app infer_size_loop length]. cbn [Z.eqb Pos.eqb].
    rewrite infer_size_loop_known by done. do 3 f_equal. lia.
  - cbn [app infer_size_loop].
    destruct (Z.eqb_spec x (-1)); [lia|].
    destruct (Z.leb_spec 0 x); [|lia].
    rewrite IH by apply wrap_range.
    unfold Int64.mul.
    rewrite wrap_mul_wrap_l, prod_intlist_cons.
    do 2 f_equal.
    + f_equal. lia.
    + f_equal. cbn [length]. lia.
Qed.

(** A valid request either has no free dimension or exactly one. *)
Lemma valid_request_cases (shape : list Z) :
  valid_request shape ->
  (free_count shape = 0%nat /\ Forall (fun s => 0 <= s) shape) \/
  (exists pre post, shape = pre ++ -1 :: post /\
     Forall (fun s => 0 <= s) pre /\ Forall (fun s => 0 <= s) post).
Proof.
  intros [Hcount Hall]. unfold free_count in *.
  induction Hall as [|x l Hx Hl IH].
  - left. split; [done|constructor].
  - destruct Hx as [->|Hx].
    + right. exists [], l. split; [done|]. split; [constructor|].
      rewrite filter_cons_True in Hcount by done. cbn in Hcount.
      destruct IH as [[_ IH]|(pre & post & -> & _)]; [lia|done|].
      rewrite filter_app, filter_cons_True, length_app in Hcount by done.
      cbn in Hcount. lia.
    + rewrite filter_cons_False in Hcount by lia.
      destruct (IH Hcount) as [[H0 IH']|(pre & post & -> & Hpre & Hpost)].
      * left. rewrite filter_cons_False by lia. split; [done|by constructor].
      * right. exists (x :: pre), post. split; [done|].
        split; [by constructor|done].
Qed.

(** What the validation loop returns on a valid request. *)
Lemma infer_size_loop_valid (shape : list Z) :
  valid_request shape ->
  (free_count shape = 0%nat /\
   (forall i : nat, shape !! i <> Some (-1)) /\
   infer_size_loop shape 0 1 None = Ok (newsize_of shape, None)) \/
  (exists i : nat, shape !! i = Some (-1) /\
     (forall j : nat, shape !! j = Some (-1) -> j = i) /\
     infer_size_loop shape 0 1 None
     = Ok (newsize_of shape, Some (Z.of_nat i))).
Proof.
  intros Hvalid.
  assert (H1 : Int64.representable 1) by (int64_unfold; lia).
  destruct (valid_request_cases shape Hvalid)
    as [[H0 Hall]|(pre & post & -> & Hpre & Hpost)].
  - left. split; [done|]. split.
    + intros i Hi. rewrite Forall_lookup in Hall. specialize (Hall _ _ Hi). lia.
    + rewrite infer_size_loop_known by done. unfold newsize_of.
      rewrite known_sizes_nonneg by done. do 3 f_equal. lia.
  - right. exists (length pre). split; [by rewrite list_lookup_middle|].
    split; [intros j; by apply free_position|].
    rewrite infer_size_loop_free by done. unfold newsize_of.
    rewrite known_sizes_free by done. do 2 f_equal. f_equal. lia.
Qed.

(** [newsize] is the exact product whenever that product is an [int64_t]
    value. *)
Lemma newsize_of_exact (shape : list Z) :
  Int64.representable (prod_intlist (known_sizes shape)) ->
  newsize_of shape = prod_intlist (known_sizes shape).
Proof. apply wrap_representable. Qed.

(** The product is taken on [int64_t]: the request [[2^32, 2^32]], whose
    exact product [2^64] reduces to 0, has [newsize = 0] and is accepted for
    an element count of 0. *)
Lemma infer_size_product_overflow :
  newsize_of [4294967296; 4294967296] = 0 /\
  infer_size [4294967296; 4294967296] 0 = Ok [0].
Proof. split; reflexivity. Qed.

Lemma infer_size_loop_no_free (shape : list Z) :
  valid_request shape -> free_count shape = 0%nat ->
  infer_size_loop shape 0 1 None = Ok (newsize_of shape, None).
Proof.
  intros Hvalid H0.
  destruct (infer_size_loop_valid shape Hvalid)
    as [(_ & _ & Hloop)|(j & Hj & _ & _)]; [done|].
  destruct (valid_request_cases shape Hvalid)
    as [[_ Hall]|(pre & post & -> & Hpre & Hpost)].
  - rewrite Forall_lookup in Hall. specialize (Hall _ _ Hj). lia.
  - rewrite free_count_free in H0 by done. lia.
Qed.

Lemma infer_size_loop_one_free (shape : list Z) (i : nat) :
  valid_request shape -> shape !! i = Some (-1) ->
  free_count shape = 1%nat /\
  infer_size_loop shape 0 1 None = Ok (newsize_of shape, Some (Z.of_nat i)).
Proof.
  intros Hvalid Hi.
  destruct (infer_size_loop_valid shape Hvalid)
    as [(_ & Hno & _)|(j & _ & Huniq & Hloop)]; [by destruct (Hno i)|].
  rewrite (Huniq i Hi). split; [|done].
  destruct (valid_request_cases shape Hvalid)
    as [[_ Hall]|(pre & post & -> & Hpre & Hpost)].
  - rewrite Forall_lookup in Hall. specialize (Hall _ _ Hi). lia.
  - by apply free_count_free.
Qed.

(** [infer_size] on a valid request without free dimension. *)
Lemma infer_size_no_free (shape : list Z) (numel : Z) :
  valid_request shape -> free_count shape = 0%nat ->
  (newsize_of shape = numel ->
     infer_size shape numel = Ok (if numel =? 0 then [0] else shape)) /\
  (newsize_of shape <> numel -> infer_size shape numel = Err ShapeMismatch).
Proof.
  intros Hvalid H0. unfold infer_size.
  rewrite (infer_size_loop_no_free shape Hvalid H0). cbn [bind andb].
  unfold USE_TH_SIZE_ZERO_DIM. cbn [negb andb infer_size_res bind]. split.
  - intros ->. rewrite Z.eqb_refl. cbn [orb]. by destruct (_ =? 0).
  - intros Hne. destruct (Z.eqb_spec numel (newsize_of shape)); [lia|done].
Qed.

(** [infer_size] on a valid request whose free dimension is at position
    [i]. *)
Lemma infer_size_one_free (shape : list Z) (numel : Z) (i : nat) :
  0 <= numel <= Int64.max_signed ->
  valid_request shape -> shape !! i = Some (-1) ->
  let newsize := newsize_of shape in
  (0 < newsize /\ Z.rem numel newsize = 0 ->
     infer_size_res shape numel newsize (Some (Z.of_nat i))
     = Ok (<[i := Z.quot numel newsize]> shape) /\
     infer_size shape numel
     = Ok (if numel =? 0 then [0] else <[i := Z.quot numel newsize]> shape)) /\
  (~ (0 < newsize /\ Z.rem numel newsize = 0) ->
     infer_size shape numel = Err ShapeMismatch).
Proof.
  intros Hnumel Hvalid Hi newsize.
  assert (Hrep : Int64.representable numel) by (int64_unfold; lia).
  destruct (infer_size_loop_one_free shape i Hvalid Hi) as [_ Hloop].
  unfold infer_size. rewrite Hloop. fold newsize. cbn [bind].
  unfold Int64.rem, USE_TH_SIZE_ZERO_DIM. cbn [negb andb]. split.
  - intros [Hpos Hrem].
    assert (Hres : infer_size_res shape numel newsize (Some (Z.of_nat i))
                   = Ok (<[i := Z.quot numel newsize]> shape)).
    { unfold infer_size_res. destruct (Z.eqb_spec newsize 0); [lia|].
      unfold Int64.div.
      rewrite (wrap_representable _ (quot_representable _ _ Hrep Hpos)).
      by rewrite Nat2Z.id. }
    split; [done|]. rewrite Hres. cbn [bind].
    destruct (Z.ltb_spec 0 newsize); [|lia]. rewrite Hrem.
    change (true && (0 =? 0)) with true. rewrite orb_true_r.
    by destruct (numel =? 0).
  - intros Hnot.
    destruct (Z.eqb_spec numel newsize) as [Heq|Hne].
    + cbn [orb]. unfold infer_size_res.
      destruct (Z.eqb_spec newsize 0); [done|]. exfalso. apply Hnot.
      split; [lia|]. rewrite Heq. apply Z.rem_same. lia.
    + cbn [orb]. destruct (Z.ltb_spec 0 newsize); [|done]. cbn [andb].
      destruct (Z.eqb_spec (Z.rem numel newsize) 0); [|done].
      exfalso. by apply Hnot.
Qed.

(** Claim C3. For an element count [numel] and a request with at most one
    entry -1 and every other entry >= 0, [newsize] is the product of the
    entries >= 0, computed on [int64_t] (the exact product whenever that is
    an [int64_t] value). Without a free dimension [infer_size] succeeds
    exactly when [newsize = numel]. With the free dimension at position [i]
    it succeeds exactly when [newsize > 0] and [numel % newsize = 0], and
    sets [res[i]] to [numel / newsize]. In both cases the call returns [res],
    or [[0]] when [numel = 0], and every failure is a ShapeMismatch.
    [infer_size([-1,4], 12)] returns [[3,4]] and [infer_size([-1,4], 10)]
    fails with ShapeMismatch. *)
Theorem infer_size_characterisation (shape : list Z) (numel : Z) :
  0 <= numel <= Int64.max_signed -> valid_request shape ->
  let newsize := newsize_of shape in
  (Int64.representable (prod_intlist (known_sizes shape)) ->
     newsize = prod_intlist (known_sizes shape)) /\
  (free_count shape = 0%nat ->
     (succeeds (infer_size shape numel) <-> newsize = numel) /\
     (newsize = numel ->
        infer_size shape numel = Ok (if numel =? 0 then [0] else shape))) /\
  (forall i : nat, shape !! i = Some (-1) ->
     (succeeds (infer_size shape numel) <->
      0 < newsize /\ Z.rem numel newsize = 0) /\
     (0 < newsize /\ Z.rem numel newsize = 0 ->
        infer_size_res shape numel newsize (Some (Z.of_nat i))
        = Ok (<[i := Z.quot numel newsize]> shape) /\
        infer_size shape numel
        = Ok (if numel =? 0 then [0]
              else <[i := Z.quot numel newsize]> shape))) /\
  (fails (infer_size shape numel) ->
   infer_size shape numel = Err ShapeMismatch) /\
  infer_size [-1; 4] 12 = Ok [3; 4] /\
  infer_size [-1; 4] 10 = Err ShapeMismatch.
Proof.
  intros Hnumel Hvalid newsize.
  split; [apply newsize_of_exact|].
  split; [|split; [|split]].
  - intros H0.
    destruct (infer_size_no_free shape numel Hvalid H0) as [Hok Herr].
    split; [|done]. split.
    + intros [r Hr]. destruct (Z.eq_dec newsize numel) as [|Hne]; [done|].
      rewrite (Herr Hne) in Hr. discriminate.
    + intros Heq. rewrite (Hok Heq). by eexists.
  - intros i Hi.
    destruct (infer_size_one_free shape numel i Hnumel Hvalid Hi) as [Hok Herr].
    split; [|done]. split.
    + intros [r Hr].
      destruct (decide (0 < newsize /\ Z.rem numel newsize = 0)) as [|Hne];
        [done|].
      rewrite (Herr Hne) in Hr. discriminate.
    + intros Hc. destruct (Hok Hc) as [_ ->]. by eexists.
  - intros [e He].
    destruct (infer_size_loop_valid shape Hvalid)
      as [(H0 & _ & _)|(i & Hi & _ & _)].
    + destruct (infer_size_no_free shape numel Hvalid H0) as [Hok Herr].
      destruct (Z.eq_dec (newsize_of shape) numel) as [Heq|Hne]; [|auto].
      rewrite (Hok Heq) in He. discriminate.
    + destruct (infer_size_one_free shape numel i Hnumel Hvalid Hi)
        as [Hok Herr].
      destruct (decide (0 < newsize /\ Z.rem numel newsize = 0)) as [Hc|Hne];
        [|auto].
      destruct (Hok Hc) as [_ Hr]. rewrite Hr in He. discriminate.
  - split; reflexivity.
Qed.

(** The request [[-1, 4]] of the concrete cases. *)
Lemma valid_request_free_4 : valid_request [-1; 4].
Proof. by apply (bool_decide_unpack _). Qed.

Lemma infer_size_characterisation_witness :
  infer_size [-1; 4] 12 = Ok [3; 4] /\
  ~ succeeds (infer_size [-1; 4] 10).
Proof.
  split.
  - destruct (infer_size_characterisation [-1; 4] 12
                ltac:(int64_unfold; lia) valid_request_free_4)
      as (_ & _ & H & _).
    destruct (H 0%nat eq_refl) as [_ Hok].
    destruct (Hok ltac:(cbv -[Z.le Z.lt]; split; [lia|reflexivity]))
      as [_ Hres].
    exact Hres.
  - destruct (infer_size_characterisation [-1; 4] 10
                ltac:(int64_unfold; lia) valid_request_free_4)
      as (_ & _ & H & _).
    destruct (H 0%nat eq_refl) as [Hiff _].
    intros Hs. apply Hiff in Hs as [_ Hrem]. discriminate Hrem.
Defined.

(** Claim C4. Whenever [infer_size] accepts a request for [numel = 0], it
    returns the one-dimensional shape [[0]], whatever the rank of the
    request. A valid request is accepted for [numel = 0] exactly when it has
    no free dimension and [newsize = 0], or one free dimension and
    [newsize > 0]; so are the requests [[0,4]] and [[2,0,3]] with zero
    entries, and [[-1,4]]. *)
Theorem infer_size_zero_numel :
  (forall (shape r : list Z), infer_size shape 0 = Ok r -> r = [0]) /\
  (forall shape : list Z, valid_request shape ->
     (succeeds (infer_size shape 0) <->
      (free_count shape = 0%nat /\ newsize_of shape = 0) \/
      (free_count shape = 1%nat /\ 0 < newsize_of shape))) /\
  infer_size [0; 4] 0 = Ok [0] /\
  infer_size [2; 0; 3] 0 = Ok [0] /\
  infer_size [-1; 4] 0 = Ok [0].
Proof.
  split; [|split; [|repeat split; reflexivity]].
  - intros shape r. unfold infer_size.
    destruct (infer_size_loop shape 0 1 None) as [[newsize infer_dim]|];
      [|discriminate].
    cbn [bind]. destruct (_ || _); [|discriminate].
    destruct (infer_size_res shape 0 newsize infer_dim); [|discriminate].
    cbn. congruence.
  - intros shape Hvalid.
    assert (H0 : 0 <= 0 <= Int64.max_signed) by (int64_unfold; lia).
    destruct (infer_size_loop_valid shape Hvalid)
      as [(Hc & _ & _)|(i & Hi & _ & _)].
    + destruct (infer_size_no_free shape 0 Hvalid Hc) as [Hok Herr]. split.
      * intros [r Hr]. left. split; [done|].
        destruct (Z.eq_dec (newsize_of shape) 0) as [|Hne]; [done|].
        rewrite (Herr Hne) in Hr. discriminate.
      * intros [[_ Heq]|[Hone _]]; [|lia]. rewrite (Hok Heq). by eexists.
    + destruct (infer_size_loop_one_free shape i Hvalid Hi) as [Hc _].
      destruct (infer_size_one_free shape 0 i H0 Hvalid Hi) as [Hok Herr].
      split.
      * intros [r Hr]. right. split; [done|].
        destruct (decide (0 < newsize_of shape
                          /\ Z.rem 0 (newsize_of shape) = 0)) as [[? _]|Hne];
          [done|].
        rewrite (Herr Hne) in Hr. discriminate.
      * intros [[Hzero _]|[_ Hpos]]; [lia|].
        destruct Hok as [_ ->]; [|by eexists].
        split; [done|]. apply Z.rem_0_l. lia.
Qed.

Lemma infer_size_zero_numel_witness :
  infer_size [0; 4] 0 = Ok [0] /\ succeeds (infer_size [-1; 4] 0).
Proof.
  destruct infer_size_zero_numel as (Hcollapse & Haccept & _).
  split.
  - destruct (infer_size [0; 4] 0) as [r|e] eqn:Hr; [|discriminate Hr].
    f_equal. exact (Hcollapse [0; 4] r Hr).
  - apply (Haccept [-1; 4] valid_request_free_4). right.
    split; [reflexivity|]. cbv -[Z.le Z.lt]. lia.
Defined.

(** ** unsqueeze *)

(** Claim C8. [unsqueeze] normalises [dim] over [rank + 1], so that the
    positions [-(rank + 1) .. rank] are the valid ones, the end position
    [rank] among them. It fails on every handle without elements. On any
    other handle, with [dim] normalised to [d'], it inserts at position [d']
    a dimension of size 1 whose stride is [sizes[d'] * strides[d']] (on
    [int64_t], hence the exact product whenever that is an [int64_t] value)
    when [d'] is the position of an existing dimension and 1 when
    [d' = rank]; the sizes and strides before and after the new position are
    those of the source, and so is the storage offset. *)
Theorem unsqueeze_geometry (t : Tensor) (d : Z) :
  wf_tensor t ->
  (numel t = 0 -> fails (unsqueeze t d)) /\
  (numel t <> 0 ->
     (succeeds (unsqueeze t d) <-> - (dim t + 1) <= d <= dim t) /\
     (forall d', maybe_wrap_dim d (dim t + 1) = Ok d' ->
        let new_stride :=
          if d' <? dim t
          then Int64.mul (sizes t !!! Z.to_nat d') (strides t !!! Z.to_nat d')
          else 1 in
        0 <= d' <= dim t /\
        unsqueeze t d
        = Ok {| sizes := take (Z.to_nat d') (sizes t) ++ 1
                         :: drop (Z.to_nat d') (sizes t);
                strides := take (Z.to_nat d') (strides t) ++ new_stride
                           :: drop (Z.to_nat d') (strides t);
                storage_offset := storage_offset t;
                is_sparse := is_sparse t |} /\
        (d' < dim t ->
         Int64.representable
           (sizes t !!! Z.to_nat d' * strides t !!! Z.to_nat d') ->
         new_stride = sizes t !!! Z.to_nat d' * strides t !!! Z.to_nat d') /\
        (d' = dim t -> new_stride = 1))) /\
  (numel t <> 0 ->
     exists r, unsqueeze t (dim t) = Ok r /\
       sizes r = sizes t ++ [1] /\ strides r = strides t ++ [1]).
Proof.
  intros Hwf.
  assert (Hdim : Int64.add (dim t) 1 = dim t + 1).
  { destruct Hwf as [Hr _]. apply wrap_representable.
    unfold dim in *. int64_unfold. lia. }
  assert (Hok : numel t <> 0 -> forall d d',
    maybe_wrap_dim d (dim t + 1) = Ok d' ->
    unsqueeze t d
    = Ok {| sizes := take (Z.to_nat d') (sizes t) ++ 1
                     :: drop (Z.to_nat d') (sizes t);
            strides := take (Z.to_nat d') (strides t)
                       ++ (if d' <? dim t
                           then Int64.mul (sizes t !!! Z.to_nat d')
                                          (strides t !!! Z.to_nat d')
                           else 1)
                       :: drop (Z.to_nat d') (strides t);
            storage_offset := storage_offset t;
            is_sparse := is_sparse t |}).
  { clear d. intros Hne d d' Hd. unfold unsqueeze. rewrite Hdim, Hd. cbn [bind].
    unfold inferUnsqueezeGeometry, USE_TH_SIZE_ZERO_DIM. cbn [negb andb].
    destruct (Z.eqb_spec (numel t) 0); [done|]. cbn [bind].
    unfold as_strided, as_strided3, insert_at. do 3 f_equal.
    destruct (Z.leb_spec (dim t) d'), (Z.ltb_spec d' (dim t)); done || lia. }
  split; [|split].
  - intros H0. unfold unsqueeze, fails. rewrite Hdim.
    destruct (maybe_wrap_dim d (dim t + 1)); [|by eexists]. cbn [bind].
    unfold inferUnsqueezeGeometry, USE_TH_SIZE_ZERO_DIM. cbn [negb andb].
    rewrite H0. cbn. by eexists.
  - intros Hne. split.
    + pose proof (maybe_wrap_dim_range d (dim t + 1)
                    ltac:(unfold dim; lia)) as Hrange.
      split.
      * intros [r Hr]. unfold unsqueeze in Hr. rewrite Hdim in Hr.
        assert (Hs : succeeds (maybe_wrap_dim d (dim t + 1))).
        { destruct (maybe_wrap_dim d (dim t + 1)); [by eexists|discriminate]. }
        apply Hrange in Hs. lia.
      * intros Hd. destruct (proj2 Hrange ltac:(lia)) as [d' Hd'].
        rewrite (Hok Hne d d' Hd'). by eexists.
    + intros d' Hd new_stride.
      destruct (maybe_wrap_dim_Ok _ _ _ Hd) as [Hr _].
      split; [unfold dim in *; lia|]. split; [by apply Hok|].
      unfold new_stride. split.
      * intros Hlt Hexact. destruct (Z.ltb_spec d' (dim t)); [|lia].
        by apply wrap_representable.
      * intros ->. by rewrite Z.ltb_irrefl.
  - intros Hne. eexists. split.
    + apply (Hok Hne). apply maybe_wrap_dim_id. unfold dim. lia.
    + cbn. unfold dim. rewrite Nat2Z.id.
      rewrite !firstn_all, !skipn_all.
      destruct Hwf as (_ & Hlen & _).
      rewrite Hlen, firstn_all, skipn_all. rewrite Z.ltb_irrefl. done.
Qed.

Lemma unsqueeze_geometry_witness :
  unsqueeze t53 0
  = Ok {| sizes := [1; 5; 3]; strides := [15; 3; 1]; storage_offset := 7;
          is_sparse := false |} /\
  fails (unsqueeze t_empty 0).
Proof.
  pose proof wf_t_empty as Hwf.
  split.
  - destruct (unsqueeze_geometry t53 0 wf_t53) as (_ & H & _).
    destruct (H ltac:(discriminate)) as [_ Hok].
    exact (proj1 (proj2 (Hok 0 eq_refl))).
  - destruct (unsqueeze_geometry t_empty 0 Hwf) as (H & _).
    exact (H eq_refl).
Defined.

(** ** permute and transpose *)

(** The loop of [permute] on the dimensions [k, k+1, ..., k+m-1], none of
    which has been seen. *)
Lemma permute_loop_identity (oldSizes oldStrides : list Z) (m k : nat)
    (seen : list bool) :
  length oldSizes = (k + m)%nat -> length oldStrides = (k + m)%nat ->
  length seen = (k + m)%nat ->
  (forall j, (k <= j < k + m)%nat -> seen !!! j = false) ->
  permute_loop oldSizes oldStrides (Z.of_nat (k + m))
               (Z.of_nat <$> seq k m) seen
  = Ok (drop k oldSizes, drop k oldStrides).
Proof.
  revert k seen. induction m as [|m IH]; intros k seen Hs Hst Hseen Hfalse.
  - cbn. rewrite !drop_ge by lia. done.
  - cbn [seq fmap list_fmap permute_loop].
    rewrite maybe_wrap_dim_id by lia. cbn [bind].
    rewrite Nat2Z.id, Hfalse by lia.
    replace (k + S m)%nat with (S k + m)%nat in * by lia.
    rewrite (IH (S k)); [| done | done | by rewrite length_insert |].
    + cbn [bind].
      rewrite (drop_S oldSizes (oldSizes !!! k) k),
        (drop_S oldStrides (oldStrides !!! k) k);
        [done| |]; apply list_lookup_lookup_total_lt; lia.
    + intros j Hj. rewrite list_lookup_total_insert_ne by lia.
      apply Hfalse. lia.
Qed.

(** Claim C9. Whatever the layout of the handle, [transpose] of two
    dimensions that normalise to the same position gives back the handle
    itself, and [permute] by the identity permutation gives a view with the
    sizes, strides and storage offset of the source. *)
Theorem identity_views (sparse_transpose_ : Tensor -> Z -> Z -> result Tensor)
    (t : Tensor) :
  length (sizes t) = length (strides t) ->
  (forall d0 d1 d,
     maybe_wrap_dim d0 (dim t) = Ok d -> maybe_wrap_dim d1 (dim t) = Ok d ->
     transpose sparse_transpose_ t d0 d1 = Ok t) /\
  permute t (identity_perm (length (sizes t))) = Ok t.
Proof.
  intros Hlen. split.
  - intros d0 d1 d H0 H1. unfold transpose. rewrite H0, H1. cbn [bind].
    by rewrite Z.eqb_refl.
  - unfold permute, identity_perm.
    rewrite length_fmap, length_seq. unfold dim. rewrite Z.eqb_refl.
    cbn [negb]. rewrite Nat2Z.id.
    rewrite (permute_loop_identity _ _ (length (sizes t)) 0);
      [| done | by rewrite Hlen | by rewrite length_replicate |].
    + cbn. unfold as_strided, as_strided3. by destruct t.
    + intros j Hj. apply lookup_total_replicate_2. lia.
Qed.

Lemma identity_views_witness :
  transpose (fun _ _ _ => Err InvalidDimension) t53 (-1) 1 = Ok t53 /\
  permute t53 [0; 1] = Ok t53.
Proof.
  destruct (identity_views (fun _ _ _ => Err InvalidDimension) t53 eq_refl)
    as [Ht Hp].
  split; [exact (Ht (-1) 1 1 eq_refl eq_refl)|exact Hp].
Defined.

(** ** expand *)

(** Claim C10. Whatever geometry [inferExpandGeometry] computes, [expand]
    gives the same result, or the same failure, for both values of the
    [implicit] flag. *)
Theorem expand_ignores_implicit
    (inferExpandGeometry : Tensor -> list Z -> result (list Z * list Z))
    (t : Tensor) (size : list Z) (implicit1 implicit2 : bool) :
  expand inferExpandGeometry t size implicit1
  = expand inferExpandGeometry t size implicit2.
Proof. reflexivity. Qed.

(** The concrete case of the specification: expanding shape [[1,3]] to
    [[5,3]] sets the size of dimension 0 to 5 and its stride to 0. *)
Lemma expand_broadcasts_unit_dimension (implicit : bool) :
  expand broadcast_geometry
         {| sizes := [1; 3]; strides := [3; 1]; storage_offset := 0;
            is_sparse := false |} [5; 3] implicit
  = Ok {| sizes := [5; 3]; strides := [0; 1]; storage_offset := 0;
          is_sparse := false |}.
Proof. reflexivity. Qed.

(** * Further properties *)

(** ** squeeze *)

Lemma push_back_app (v : list Z) x : push_back v x = v ++ [x].
Proof. reflexivity. Qed.

(** The loop of [inferSqueezeGeometry] from position [k] on. *)
Lemma inferSqueezeGeometry_loop_spec (t : Tensor) (n k : nat)
    (accs accst : list Z) :
  length (sizes t) = (k + n)%nat -> length (strides t) = (k + n)%nat ->
  inferSqueezeGeometry_loop t n (Z.of_nat k) accs accst
  = (accs ++ fst (drop_unit_dims (drop k (sizes t)) (drop k (strides t))),
     accst ++ snd (drop_unit_dims (drop k (sizes t)) (drop k (strides t)))).
Proof.
  revert k accs accst. induction n as [|n IH]; intros k accs accst Hs Hst.
  - rewrite !drop_ge by lia. cbn. by rewrite !app_nil_r.
  - cbn [inferSqueezeGeometry_loop]. rewrite Nat2Z.id.
    rewrite (drop_S (sizes t) (sizes t !!! k) k),
      (drop_S (strides t) (strides t !!! k) k)
      by (apply list_lookup_lookup_total_lt; lia).
    cbn [drop_unit_dims].
    replace (Z.of_nat k + 1) with (Z.of_nat (S k)) by lia.
    destruct (Z.eqb_spec (sizes t !!! k) 1); cbn [negb].
    + by rewrite IH by lia.
    + rewrite IH by lia. cbn [fst snd]. unfold push_back.
      by rewrite <- !app_assoc.
Qed.

Lemma inferSqueezeGeometry_spec (t : Tensor) :
  length (sizes t) = length (strides t) ->
  inferSqueezeGeometry t = drop_unit_dims (sizes t) (strides t).
Proof.
  intros Hlen. unfold inferSqueezeGeometry, dim. rewrite Nat2Z.id.
  rewrite (inferSqueezeGeometry_loop_spec t (length (sizes t)) 0) by lia.
  rewrite !drop_0. cbn. by destruct (drop_unit_dims _ _).
Qed.

Lemma drop_unit_dims_length sz st :
  length (fst (drop_unit_dims sz st)) = length (snd (drop_unit_dims sz st)) /\
  (length (fst (drop_unit_dims sz st)) <= length sz)%nat.
Proof.
  revert st. induction sz as [|s sz IH]; intros [|r st]; cbn; try lia.
  destruct (IH st). destruct (s =? 1); cbn; lia.
Qed.

Lemma drop_unit_dims_no_unit sz st :
  Forall (fun s => s <> 1) (fst (drop_unit_dims sz st)).
Proof.
  revert st. induction sz as [|s sz IH]; intros [|r st]; cbn;
    try constructor.
  destruct (Z.eqb_spec s 1); [apply IH|]. cbn. constructor; [done|apply IH].
Qed.

Lemma drop_unit_dims_prod sz st :
  length sz = length st ->
  prod_intlist (fst (drop_unit_dims sz st)) = prod_intlist sz.
Proof.
  revert st. induction sz as [|s sz IH]; intros [|r st] Hlen;
    try discriminate; [done|].
  cbn [drop_unit_dims]. injection Hlen as Hlen.
  destruct (Z.eqb_spec s 1) as [->|].
  - rewrite IH, prod_intlist_cons by done. lia.
  - cbn [fst]. by rewrite !prod_intlist_cons, IH.
Qed.

Lemma drop_unit_dims_fixed sz st :
  length sz = length st -> Forall (fun s => s <> 1) sz ->
  drop_unit_dims sz st = (sz, st).
Proof.
  revert st. induction sz as [|s sz IH]; intros [|r st] Hlen Hall;
    try discriminate; [done|].
  injection Hlen as Hlen. apply Forall_cons in Hall as [Hs Hall].
  cbn. destruct (Z.eqb_spec s 1); [done|]. by rewrite IH.
Qed.

Lemma drop_unit_dims_offset sz st index :
  length sz = length st -> in_bounds sz index ->
  sum_list (zip_with Z.mul (drop_unit_index sz index)
                     (snd (drop_unit_dims sz st)))
  = sum_list (zip_with Z.mul index st).
Proof.
  intros Hlen Hin. revert st Hlen.
  induction Hin as [|s i sz index Hi Hin IH]; intros [|r st] Hlen;
    try discriminate; [done|].
  injection Hlen as Hlen. cbn [drop_unit_dims drop_unit_index zip_with].
  destruct (Z.eqb_spec s 1).
  - rewrite IH, sum_list_cons by done. replace i with 0 by lia. lia.
  - cbn [snd zip_with]. rewrite !sum_list_cons, IH by done. done.
Qed.

(** Property X7. [squeeze] never fails; on a handle with as many strides as
    sizes its result has no dimension of size 1 left, as many strides as
    sizes, at most the rank and exactly the element count and storage offset
    of the source, and squeezing it again changes nothing. *)
Theorem squeeze_geometry (t : Tensor) :
  length (sizes t) = length (strides t) ->
  Forall (fun s => s <> 1) (sizes (squeeze t)) /\
  length (sizes (squeeze t)) = length (strides (squeeze t)) /\
  dim (squeeze t) <= dim t /\
  numel (squeeze t) = numel t /\
  storage_offset (squeeze t) = storage_offset t /\
  squeeze (squeeze t) = squeeze t.
Proof.
  intros Hlen. unfold squeeze at 1 2 3 4 5 6.
  rewrite (inferSqueezeGeometry_spec t Hlen).
  destruct (drop_unit_dims_length (sizes t) (strides t)) as [Hl Hle].
  pose proof (drop_unit_dims_no_unit (sizes t) (strides t)) as Hno.
  cbn [as_strided as_strided3 sizes strides storage_offset].
  split; [done|]. split; [done|].
  split; [unfold dim; cbn; lia|].
  split; [unfold numel; cbn; by apply drop_unit_dims_prod|].
  split; [done|].
  unfold squeeze. rewrite (inferSqueezeGeometry_spec t Hlen).
  rewrite inferSqueezeGeometry_spec by done.
  cbn [as_strided as_strided3 sizes strides storage_offset is_sparse].
  rewrite (drop_unit_dims_fixed _ _ Hl Hno).
  cbn [fst snd]. unfold as_strided, as_strided3. cbn.
  by destruct (drop_unit_dims (sizes t) (strides t)).
Qed.

Lemma squeeze_geometry_witness :
  sizes (squeeze {| sizes := [1; 5; 1; 3]; strides := [15; 3; 3; 1];
                    storage_offset := 7; is_sparse := false |}) = [5; 3]
  /\ numel (squeeze {| sizes := [1; 5; 1; 3]; strides := [15; 3; 3; 1];
                       storage_offset := 7; is_sparse := false |}) = 15.
Proof.
  destruct (squeeze_geometry
              {| sizes := [1; 5; 1; 3]; strides := [15; 3; 3; 1];
                 storage_offset := 7; is_sparse := false |} eq_refl)
    as (_ & _ & _ & Hnumel & _).
  split; [reflexivity|exact Hnumel].
Defined.

(** Property X8. Every element of the source is addressed by the squeezed
    view at the same multi-index without the positions of the dimensions of
    size 1. *)
Theorem squeeze_element (t : Tensor) (index : list Z) :
  length (sizes t) = length (strides t) -> in_bounds (sizes t) index ->
  element_offset (squeeze t) (drop_unit_index (sizes t) index)
  = element_offset t index.
Proof.
  intros Hlen Hin. unfold element_offset, squeeze.
  rewrite (inferSqueezeGeometry_spec t Hlen). cbn.
  by rewrite drop_unit_dims_offset.
Qed.

Lemma squeeze_element_witness :
  element_offset
    (squeeze {| sizes := [1; 5; 1; 3]; strides := [15; 3; 3; 1];
                storage_offset := 7; is_sparse := false |})
    (drop_unit_index [1; 5; 1; 3] [0; 4; 0; 2])
  = element_offset {| sizes := [1; 5; 1; 3]; strides := [15; 3; 3; 1];
                      storage_offset := 7; is_sparse := false |}
                   [0; 4; 0; 2].
Proof.
  apply (squeeze_element
           {| sizes := [1; 5; 1; 3]; strides := [15; 3; 3; 1];
              storage_offset := 7; is_sparse := false |}
           [0; 4; 0; 2] eq_refl).
  repeat constructor; lia.
Defined.

(** The loop of [inferSqueezeGeometry(tensor, dim)] from position [k] on. *)
Lemma inferSqueezeGeometry_dim_loop_spec (t : Tensor) (d' : nat) (n k : nat)
    (accs accst : list Z) :
  length (sizes t) = (k + n)%nat -> length (strides t) = (k + n)%nat ->
  inferSqueezeGeometry_dim_loop t (Z.of_nat d') n (Z.of_nat k) accs accst
  = if (sizes t !!! d' =? 1) && (k <=? d')%nat
    then (accs ++ delete (d' - k)%nat (drop k (sizes t)),
          accst ++ delete (d' - k)%nat (drop k (strides t)))
    else (accs ++ drop k (sizes t), accst ++ drop k (strides t)).
Proof.
  revert k accs accst. induction n as [|n IH]; intros k accs accst Hs Hst.
  - rewrite !drop_ge by lia. cbn [inferSqueezeGeometry_dim_loop].
    destruct (_ && _); [destruct (d' - k)%nat|]; cbn; by rewrite !app_nil_r.
  - cbn [inferSqueezeGeometry_dim_loop]. rewrite !Nat2Z.id.
    replace (Z.of_nat k + 1) with (Z.of_nat (S k)) by lia.
    rewrite (drop_S (sizes t) (sizes t !!! k) k),
      (drop_S (strides t) (strides t !!! k) k)
      by (apply list_lookup_lookup_total_lt; lia).
    destruct (Z.eqb (sizes t !!! d') 1) eqn:Hunit; cbn [negb andb orb].
    + destruct (Z.eqb_spec (Z.of_nat k) (Z.of_nat d')) as [Hk|Hk];
        cbn [negb orb].
      * assert (k = d') as -> by lia.
        rewrite IH by lia. rewrite ?Hunit. cbn [andb].
        destruct (Nat.leb_spec (S d') d'); [lia|].
        destruct (Nat.leb_spec d' d'); [|lia].
        by rewrite Nat.sub_diag.
      * rewrite IH by lia. rewrite ?Hunit. cbn [andb].
        unfold push_back. rewrite <- !app_assoc. cbn [app].
        destruct (Nat.leb_spec (S k) d'), (Nat.leb_spec k d'); try lia.
        -- by replace (d' - k)%nat with (S (d' - S k)) by lia.
        -- done.
    + rewrite orb_true_r. rewrite IH by lia. rewrite ?Hunit. cbn [andb].
      unfold push_back. by rewrite <- !app_assoc.
Qed.

Lemma inferSqueezeGeometry_dim_spec (t : Tensor) (d' : Z) :
  length (sizes t) = length (strides t) -> 0 <= d' ->
  inferSqueezeGeometry_dim t d'
  = if sizes t !!! Z.to_nat d' =? 1
    then (delete (Z.to_nat d') (sizes t), delete (Z.to_nat d') (strides t))
    else (sizes t, strides t).
Proof.
  intros Hlen Hd. unfold inferSqueezeGeometry_dim, dim. rewrite Nat2Z.id.
  rewrite <- (Z2Nat.id d') at 1 by done.
  rewrite (inferSqueezeGeometry_dim_loop_spec t _ (length (sizes t)) 0)
    by lia.
  rewrite !drop_0, Nat.sub_0_r. cbn [app].
  destruct (_ =? 1); [|done]. cbn [andb].
  by destruct (Nat.leb_spec 0 (Z.to_nat d')); [|lia].
Qed.

(** The outcomes of [squeeze(self, dim)]. *)
Lemma squeeze_dim_cases (t : Tensor) (d d' : Z) :
  length (sizes t) = length (strides t) ->
  maybe_wrap_dim d (dim t) = Ok d' ->
  squeeze_dim t d
  = Ok (if (0 <? dim t) && (sizes t !!! Z.to_nat d' =? 1)
        then {| sizes := delete (Z.to_nat d') (sizes t);
                strides := delete (Z.to_nat d') (strides t);
                storage_offset := storage_offset t;
                is_sparse := is_sparse t |}
        else t).
Proof.
  intros Hlen Hd. destruct (maybe_wrap_dim_Ok _ _ _ Hd) as [Hr _].
  unfold squeeze_dim. rewrite Hd. cbn [bind].
  assert (Hdim : 0 <= dim t) by (unfold dim; lia).
  destruct (Z.eqb_spec (dim t) 0) as [H0|H0]; cbn [orb].
  - destruct (Z.ltb_spec 0 (dim t)); [lia|]. cbn [andb].
    unfold as_strided, as_strided3. by destruct t.
  - destruct (Z.ltb_spec 0 (dim t)); [|lia]. cbn [andb].
    rewrite inferSqueezeGeometry_dim_spec by (done || lia).
    destruct (sizes t !!! Z.to_nat d' =? 1); cbn [negb fst snd].
    + done.
    + unfold as_strided, as_strided3. by destruct t.
Qed.

(** ** Round trips and compositions of views *)

Lemma delete_insert_same (l : list Z) (i : nat) (x : Z) :
  delete i (<[i := x]> l) = delete i l.
Proof.
  revert i. induction l as [|y l IH]; intros [|i]; cbn; try done.
  f_equal. apply IH.
Qed.

(** [select] with an index within [[-size, size)], as one equation. *)
Lemma select_Ok (t : Tensor) (d d' index : Z) :
  wf_tensor t -> Int64.representable index ->
  0 < dim t -> maybe_wrap_dim d (dim t) = Ok d' ->
  let n := sizes t !!! Z.to_nat d' in
  - n <= index < n ->
  select t d index
  = Ok {| sizes := delete (Z.to_nat d') (sizes t);
          strides := delete (Z.to_nat d') (strides t);
          storage_offset :=
            Int64.add (storage_offset t)
              (Int64.mul (if index <? 0 then index + n else index)
                         (strides t !!! Z.to_nat d'));
          is_sparse := is_sparse t |}.
Proof.
  intros Hwf Hidx Hpos Hd n Hin.
  destruct (maybe_wrap_dim_Ok _ _ _ Hd) as [Hr _].
  assert (Hd' : 0 <= d' < dim t) by lia.
  pose proof (wf_size_bounds t d' Hwf Hd') as Hn. fold n in Hn.
  unfold select.
  destruct (Z.ltb_spec 0 (dim t)); [|lia]. cbn [negb].
  rewrite Hd. cbn [bind]. rewrite (size_normalised _ _ Hd'). cbn [bind].
  fold n.
  assert (Hneg : Int64.neg n = - n).
  { apply wrap_representable. int64_unfold. lia. }
  rewrite Hneg.
  destruct (Z.ltb_spec index (- n)); [lia|].
  destruct (Z.leb_spec n index); [lia|]. cbn [orb].
  assert (Hw : (if index <? 0 then Int64.add index n else index)
               = if index <? 0 then index + n else index).
  { destruct (Z.ltb_spec index 0); [|done].
    apply wrap_representable. int64_unfold. lia. }
  by rewrite Hw.
Qed.

(** [unsqueeze] of a handle with elements, as one equation. *)
Lemma unsqueeze_Ok (t : Tensor) (d d' : Z) :
  wf_tensor t -> numel t <> 0 ->
  maybe_wrap_dim d (dim t + 1) = Ok d' ->
  unsqueeze t d
  = Ok {| sizes := take (Z.to_nat d') (sizes t) ++ 1
                   :: drop (Z.to_nat d') (sizes t);
          strides := take (Z.to_nat d') (strides t)
                     ++ (if d' <? dim t
                         then Int64.mul (sizes t !!! Z.to_nat d')
                                        (strides t !!! Z.to_nat d')
                         else 1)
                     :: drop (Z.to_nat d') (strides t);
          storage_offset := storage_offset t;
          is_sparse := is_sparse t |}.
Proof.
  intros Hwf Hne Hd.
  assert (Hdim : Int64.add (dim t) 1 = dim t + 1).
  { destruct Hwf as [Hr _]. apply wrap_representable.
    unfold dim in *. int64_unfold. lia. }
  unfold unsqueeze. rewrite Hdim, Hd. cbn [bind].
  unfold inferUnsqueezeGeometry, USE_TH_SIZE_ZERO_DIM. cbn [negb andb].
  destruct (Z.eqb_spec (numel t) 0); [done|]. cbn [bind].
  unfold as_strided, as_strided3, insert_at. do 3 f_equal.
  destruct (Z.leb_spec (dim t) d'), (Z.ltb_spec d' (dim t)); done || lia.
Qed.

(** Property X10. Squeezing the dimension that [unsqueeze] has put in gives
    back the handle, and so does selecting its single entry: for a handle
    with elements, [squeeze(unsqueeze(t, d), d)] and
    [select(unsqueeze(t, d), d, 0)] are both [t]. *)
Theorem unsqueeze_round_trip (t : Tensor) (d d' : Z) :
  wf_tensor t -> numel t <> 0 ->
  maybe_wrap_dim d (dim t + 1) = Ok d' ->
  exists u, unsqueeze t d = Ok u /\
    dim u = dim t + 1 /\
    squeeze_dim u d = Ok t /\
    select u d 0 = Ok t.
Proof.
  intros Hwf Hne Hd. eexists. split; [by apply unsqueeze_Ok|].
  destruct (maybe_wrap_dim_Ok _ _ _ Hd) as [Hr _].
  pose proof Hwf as (Hrank & Hlen & _ & _ & Hoff).
  assert (Hd' : (Z.to_nat d' <= length (sizes t))%nat)
    by (unfold dim in *; lia).
  set (ns := if d' <? dim t then _ else 1).
  set (u := {| sizes := _ |}).
  assert (Hdimu : dim u = dim t + 1).
  { unfold dim, u. cbn.
    rewrite length_app, length_take, length_cons, length_drop. lia. }
  assert (Hdu : maybe_wrap_dim d (dim u) = Ok d') by by rewrite Hdimu.
  assert (Hnn : 0 <= dim t) by (unfold dim; lia).
  assert (Htake : length (take (Z.to_nat d') (sizes t)) = Z.to_nat d')
    by (rewrite length_take; lia).
  assert (Htake' : length (take (Z.to_nat d') (strides t)) = Z.to_nat d')
    by (rewrite length_take; lia).
  assert (Hunit : sizes u !!! Z.to_nat d' = 1).
  { unfold u. cbn. by apply list_lookup_total_middle. }
  assert (Hds : delete (Z.to_nat d') (sizes u) = sizes t).
  { unfold u. cbn. rewrite <- Htake at 1.
    by rewrite delete_middle, take_drop. }
  assert (Hdst : delete (Z.to_nat d') (strides u) = strides t).
  { unfold u. cbn. rewrite <- Htake' at 1.
    by rewrite delete_middle, take_drop. }
  split; [done|]. split.
  - rewrite (squeeze_dim_cases u d d'); [|unfold u; cbn|done].
    + rewrite Hunit, Hds, Hdst. destruct (Z.ltb_spec 0 (dim u)); [|lia].
      cbn. by destruct t.
    + rewrite !length_app, !length_take, !length_cons, !length_drop. lia.
  - unfold select. rewrite Hdu.
    destruct (Z.ltb_spec 0 (dim u)); [|lia]. cbn [negb bind].
    unfold size. rewrite Hdimu, (maybe_wrap_dim_id d') by lia.
    cbn [bind]. rewrite Hunit.
    change (0 <? Int64.neg 1) with false. cbn [orb Z.leb Z.compare Z.ltb].
    unfold as_strided3, erase. rewrite Hds, Hdst.
    unfold Int64.add, Int64.mul. rewrite wrap_add_wrap_r, Z.mul_0_l, Z.add_0_r.
    change (storage_offset u) with (storage_offset t).
    change (is_sparse u) with (is_sparse t).
    rewrite (wrap_representable _ Hoff). by destruct t.
Qed.

Lemma unsqueeze_round_trip_witness :
  exists u, unsqueeze t53 (-1) = Ok u /\ dim u = 3 /\
            squeeze_dim u (-1) = Ok t53 /\ select u (-1) 0 = Ok t53.
Proof.
  exact (unsqueeze_round_trip t53 (-1) 2 wf_t53 ltac:(discriminate) eq_refl).
Defined.

(** Property X6. Selecting index [i] is narrowing to the single entry [i]
    and squeezing the dimension: for [0 <= i < size(dim)],
    [select(t, d, i) = squeeze(narrow(t, d, i, 1), d)]. *)
Theorem select_is_squeezed_narrow (t : Tensor) (d d' index : Z) :
  wf_tensor t -> 0 < dim t -> maybe_wrap_dim d (dim t) = Ok d' ->
  0 <= index < sizes t !!! Z.to_nat d' ->
  exists v, narrow t d index 1 = Ok (View v) /\
            squeeze_dim v d = select t d index.
Proof.
  intros Hwf Hpos Hd Hin.
  destruct (maybe_wrap_dim_Ok _ _ _ Hd) as [Hr _].
  assert (Hd' : 0 <= d' < dim t) by lia.
  pose proof (wf_size_bounds t d' Hwf Hd') as Hn.
  pose proof Hwf as (_ & Hlen & _).
  assert (Hidx : Int64.representable index) by (int64_unfold; lia).
  assert (H1 : Int64.representable 1) by (int64_unfold; lia).
  destruct (narrow_cases t d d' index 1 Hwf Hidx H1 Hpos Hd) as [Hok _].
  destruct (Hok ltac:(lia)) as [_ Hnarrow]. unfold narrowed in Hnarrow.
  eexists. split; [exact Hnarrow|].
  rewrite (select_Ok t d d' index) by (done || lia).
  destruct (Z.ltb_spec index 0); [lia|].
  rewrite (squeeze_dim_cases _ d d'); cbn [sizes strides];
    [|by rewrite length_insert|unfold dim; cbn; by rewrite length_insert].
  unfold dim. cbn [sizes strides storage_offset is_sparse].
  rewrite length_insert. fold (dim t).
  destruct (Z.ltb_spec 0 (dim t)); [|lia].
  rewrite list_lookup_total_insert_eq by (unfold dim in *; lia).
  cbn [andb Z.eqb Pos.eqb]. by rewrite delete_insert_same.
Qed.

Lemma select_is_squeezed_narrow_witness :
  exists v, narrow t53 0 2 1 = Ok (View v) /\
            squeeze_dim v 0 = select t53 0 2.
Proof.
  exact (select_is_squeezed_narrow t53 0 0 2 wf_t53
           ltac:(unfold dim; cbn; lia) eq_refl
           ltac:(cbv -[Z.le Z.lt]; lia)).
Defined.

Lemma add_mul_add a s1 s2 c :
  Int64.add (Int64.add a (Int64.mul s1 c)) (Int64.mul s2 c)
  = Int64.add a (Int64.mul (s1 + s2) c).
Proof.
  unfold Int64.add, Int64.mul.
  rewrite wrap_add_wrap_l, wrap_add_wrap_r, (wrap_add_wrap_r a).
  replace (a + Int64.wrap (s1 * c) + s2 * c)
    with (a + s2 * c + Int64.wrap (s1 * c)) by ring.
  rewrite wrap_add_wrap_r. f_equal. ring.
Qed.

(** Property X5. Narrowing a narrowed view narrows the source: the starts
    add up. For [start2 + length2 <= length1],
    [narrow(narrow(t, d, start1, length1), d, start2, length2)]
    is [narrow(t, d, start1 + start2, length2)]. *)
Theorem narrow_narrow (t : Tensor) (d d' start1 length1 start2 length2 : Z) :
  wf_tensor t -> 0 < dim t -> maybe_wrap_dim d (dim t) = Ok d' ->
  0 <= start1 -> 0 < length1 ->
  start1 + length1 <= sizes t !!! Z.to_nat d' ->
  0 <= start2 -> 0 < length2 -> start2 + length2 <= length1 ->
  exists v, narrow t d start1 length1 = Ok (View v) /\
            narrow v d start2 length2
            = narrow t d (start1 + start2) length2 /\
            narrow v d start2 length2
            = Ok (narrowed t d' (start1 + start2) length2).
Proof.
  intros Hwf Hpos Hd Hs1 Hl1 Hfit1 Hs2 Hl2 Hfit2.
  destruct (maybe_wrap_dim_Ok _ _ _ Hd) as [Hr _].
  assert (Hd' : 0 <= d' < dim t) by lia.
  pose proof (wf_size_bounds t d' Hwf Hd') as Hn.
  pose proof Hwf as (Hrank & Hlen & Hsizes & Hstrides & Hoff).
  assert (Hrep : forall z, 0 <= z <= sizes t !!! Z.to_nat d' ->
                 Int64.representable z) by (intros; int64_unfold; lia).
  destruct (narrow_cases t d d' start1 length1 Hwf
              (Hrep start1 ltac:(lia)) (Hrep length1 ltac:(lia)) Hpos Hd)
    as [Hok _].
  destruct (Hok ltac:(lia)) as [_ Hn1]. clear Hok.
  destruct (narrow_cases t d d' (start1 + start2) length2 Hwf
              (Hrep (start1 + start2) ltac:(lia)) (Hrep length2 ltac:(lia))
              Hpos Hd) as [Hok _].
  destruct (Hok ltac:(lia)) as [_ Hn12]. clear Hok.
  unfold narrowed in Hn1. eexists. split; [exact Hn1|].
  set (v := {| sizes := _ |}) in *.
  assert (Hwfv : wf_tensor v).
  { unfold wf_tensor, v, dim. cbn. rewrite length_insert.
    split; [done|]. split; [done|]. split; [|split; [done|apply wrap_range]].
    apply Forall_insert; [done|]. int64_unfold. lia. }
  assert (Hdimv : dim v = dim t) by (unfold dim, v; cbn; by rewrite length_insert).
  destruct (narrow_cases v d d' start2 length2 Hwfv
              (Hrep start2 ltac:(lia)) (Hrep length2 ltac:(lia))
              ltac:(by rewrite Hdimv) ltac:(by rewrite Hdimv)) as [Hok _].
  destruct Hok as [_ Hn2].
  { unfold v. cbn.
    rewrite list_lookup_total_insert_eq by (unfold dim in *; lia). lia. }
  rewrite Hn2, Hn12. unfold narrowed, v. cbn.
  by rewrite list_insert_insert_eq, add_mul_add.
Qed.

Lemma narrow_narrow_witness :
  exists v, narrow t53 0 1 3 = Ok (View v) /\
            narrow v 0 1 2 = narrow t53 0 (1 + 1) 2 /\
            narrow v 0 1 2 = Ok (narrowed t53 0 (1 + 1) 2).
Proof.
  apply (narrow_narrow t53 0 0 1 3 1 2 wf_t53); first [exact eq_refl | cbv -[Z.le Z.lt]; lia].
Defined.


(** ** Elements through select, squeeze and unsqueeze *)

Lemma prod_intlist_delete (l : list Z) (k : nat) :
  (k < length l)%nat ->
  prod_intlist l = (l !!! k) * prod_intlist (delete k l).
Proof.
  revert k. induction l as [|x l IH]; intros [|k] Hk; cbn [length] in *;
    try lia.
  - change (delete 0%nat (x :: l)) with l.
    change ((x :: l) !!! 0%nat) with x. by rewrite prod_intlist_cons.
  - change (delete (S k) (x :: l)) with (x :: delete k l).
    change ((x :: l) !!! S k) with (l !!! k).
    rewrite !prod_intlist_cons, (IH k) by lia. ring.
Qed.

(** Property X1. An index of [select] counts from the end when it is
    negative: for [0 <= i < size(dim)], [select(t, d, i - size(dim))] is
    [select(t, d, i)]. The view reads entry [i] of the source: at a
    multi-index it addresses the element of the source at that multi-index
    with [i] put in at [dim] (the offset of the view being exact in
    [int64_t]). *)
Theorem select_reads_source (t : Tensor) (d d' i : Z) :
  wf_tensor t -> 0 < dim t -> maybe_wrap_dim d (dim t) = Ok d' ->
  let n := sizes t !!! Z.to_nat d' in
  0 <= i < n ->
  Int64.representable (storage_offset t + i * (strides t !!! Z.to_nat d')) ->
  exists r, select t d i = Ok r /\ select t d (i - n) = Ok r /\
    forall multi, Z.of_nat (length multi) = dim t - 1 ->
      element_offset r multi = element_offset t (insert_at multi d' i).
Proof.
  intros Hwf Hpos Hd n Hi Hexact.
  destruct (maybe_wrap_dim_Ok _ _ _ Hd) as [Hr _].
  assert (Hd' : 0 <= d' < dim t) by lia.
  pose proof (wf_size_bounds t d' Hwf Hd') as Hn. fold n in Hn.
  pose proof Hwf as (_ & Hl & _).
  eexists. split; [|split].
  - apply (select_Ok t d d' i Hwf); try done; try (int64_unfold; lia);
      fold n; lia.
  - rewrite (select_Ok t d d' (i - n) Hwf); try done;
      try (int64_unfold; lia); try (fold n; lia).
    fold n. destruct (Z.ltb_spec (i - n) 0), (Z.ltb_spec i 0); try lia.
    by replace (i - n + n) with i by lia.
  - intros multi Hm. destruct (Z.ltb_spec i 0); [lia|].
    unfold element_offset, insert_at. cbn [strides storage_offset].
    rewrite sum_zip_insert by (unfold dim in *; lia).
    rewrite (add_mul_exact _ _ _ Hexact). ring.
Qed.

Lemma select_reads_source_witness :
  exists r, select t53 1 2 = Ok r /\ select t53 1 (2 - 3) = Ok r /\
    forall multi, Z.of_nat (length multi) = dim t53 - 1 ->
      element_offset r multi = element_offset t53 (insert_at multi 1 2).
Proof.
  apply (select_reads_source t53 1 1 2 wf_t53);
    first [exact eq_refl | cbv -[Z.le Z.lt]; lia].
Defined.

(** Property X4. Negative bounds of [slice] count from the end: for
    [0 <= start < size(dim)] and [0 <= end < size(dim)],
    [slice(t, d, start - size(dim), end - size(dim), step)] is
    [slice(t, d, start, end, step)]. *)
Theorem slice_negative_bounds (t : Tensor) (d d' start end_ step : Z) :
  wf_tensor t -> maybe_wrap_dim d (dim t) = Ok d' ->
  let n := sizes t !!! Z.to_nat d' in
  0 <= start < n -> 0 <= end_ < n ->
  slice t d (start - n) (end_ - n) step = slice t d start end_ step.
Proof.
  intros Hwf Hd n Hs He.
  destruct (maybe_wrap_dim_Ok _ _ _ Hd) as [Hr _].
  unfold slice. destruct (Z.ltb_spec 0 (dim t)) as [Hpos|]; [|done].
  cbn [negb].
  assert (Hn : 0 <= n <= Int64.max_signed)
    by (apply wf_size_bounds; [done|lia]).
  rewrite Hd. cbn [bind]. destruct (step <=? 0); [done|]. fold n.
  destruct (Z.ltb_spec (start - n) 0), (Z.ltb_spec start 0); try lia.
  destruct (Z.ltb_spec (end_ - n) 0), (Z.ltb_spec end_ 0); try lia.
  assert (Hs' : Int64.add (start - n) n = start).
  { unfold Int64.add. replace (start - n + n) with start by lia.
    apply wrap_representable. int64_unfold. lia. }
  assert (He' : Int64.add (end_ - n) n = end_).
  { unfold Int64.add. replace (end_ - n + n) with end_ by lia.
    apply wrap_representable. int64_unfold. lia. }
  by rewrite Hs', He'.
Qed.

Lemma slice_negative_bounds_witness :
  slice t53 0 (1 - 5) (4 - 5) 2 = slice t53 0 1 4 2.
Proof.
  apply (slice_negative_bounds t53 0 0 1 4 2 wf_t53 eq_refl);
    cbv -[Z.le Z.lt]; lia.
Defined.

(** Property X11. [unsqueeze] adds a dimension and no element: the view
    has the element count of the source and, with coordinate 0 put in at
    the new dimension, addresses the elements of the source. *)
Theorem unsqueeze_preserves_elements (t : Tensor) (d d' : Z) :
  wf_tensor t -> numel t <> 0 ->
  maybe_wrap_dim d (dim t + 1) = Ok d' ->
  exists u, unsqueeze t d = Ok u /\
    numel u = numel t /\
    forall multi, Z.of_nat (length multi) = dim t ->
      element_offset u (insert_at multi d' 0) = element_offset t multi.
Proof.
  intros Hwf Hne Hd. eexists. split; [by apply unsqueeze_Ok|].
  destruct (maybe_wrap_dim_Ok _ _ _ Hd) as [Hr _].
  pose proof Hwf as (Hrank & Hlen & _).
  assert (Hd' : (Z.to_nat d' <= length (sizes t))%nat)
    by (unfold dim in *; lia).
  split.
  - unfold numel. cbn [sizes].
    rewrite prod_intlist_app, prod_intlist_cons.
    rewrite <- (take_drop (Z.to_nat d') (sizes t)) at 3.
    rewrite prod_intlist_app. ring.
  - intros multi Hm. unfold element_offset, insert_at.
    cbn [strides storage_offset].
    set (ns := if d' <? dim t then _ else 1).
    assert (Htake : length (take (Z.to_nat d') (strides t)) = Z.to_nat d')
      by (rewrite length_take; lia).
    rewrite sum_zip_insert.
    + rewrite <- Htake at 1. rewrite delete_middle, take_drop. ring.
    + unfold dim in *. lia.
    + rewrite length_app, length_take, length_cons, length_drop. lia.
Qed.

Lemma unsqueeze_preserves_elements_witness :
  exists u, unsqueeze t53 1 = Ok u /\ numel u = numel t53 /\
    forall multi, Z.of_nat (length multi) = dim t53 ->
      element_offset u (insert_at multi 1 0) = element_offset t53 multi.
Proof.
  exact (unsqueeze_preserves_elements t53 1 1 wf_t53 ltac:(discriminate)
           eq_refl).
Defined.

(** Property X9. [squeeze(t, dim)] removes dimension [dim] when its size
    is 1 and returns the geometry of [t] otherwise, also on a handle of
    rank 0. The view that lacks the dimension has the element count of the
    source and, with coordinate 0 put back in at [dim], addresses the
    elements of the source. *)
Theorem squeeze_dim_geometry (t : Tensor) (d d' : Z) :
  length (sizes t) = length (strides t) ->
  maybe_wrap_dim d (dim t) = Ok d' ->
  (dim t = 0 \/ sizes t !!! Z.to_nat d' <> 1 -> squeeze_dim t d = Ok t) /\
  (0 < dim t -> sizes t !!! Z.to_nat d' = 1 ->
   exists u, squeeze_dim t d = Ok u /\
     dim u = dim t - 1 /\
     sizes u = delete (Z.to_nat d') (sizes t) /\
     strides u = delete (Z.to_nat d') (strides t) /\
     numel u = numel t /\
     forall multi, Z.of_nat (length multi) = dim t - 1 ->
       element_offset u multi = element_offset t (insert_at multi d' 0)).
Proof.
  intros Hl Hd. rewrite (squeeze_dim_cases t d d' Hl Hd).
  destruct (maybe_wrap_dim_Ok _ _ _ Hd) as [Hr _].
  split.
  - intros [H0|Hne].
    + rewrite H0. done.
    + destruct (Z.eqb_spec (sizes t !!! Z.to_nat d') 1); [done|].
      by rewrite andb_false_r.
  - intros Hpos H1. destruct (Z.ltb_spec 0 (dim t)); [|lia].
    rewrite H1. cbn [andb Z.eqb Pos.eqb].
    assert (Hd' : (Z.to_nat d' < length (sizes t))%nat)
      by (unfold dim in *; lia).
    eexists. split; [done|]. cbn [sizes strides].
    split.
    { unfold dim in *. cbn [sizes].
      rewrite length_delete; [lia|]. by apply lookup_lt_is_Some. }
    split; [done|]. split; [done|]. split.
    + unfold numel. cbn [sizes].
      rewrite (prod_intlist_delete (sizes t) (Z.to_nat d')), H1 by done. lia.
    + intros multi Hm. unfold element_offset, insert_at.
      cbn [strides storage_offset].
      rewrite sum_zip_insert by (unfold dim in *; lia). ring.
Qed.

Lemma squeeze_dim_geometry_witness :
  squeeze_dim t53 0 = Ok t53 /\
  exists u, squeeze_dim {| sizes := [1; 3]; strides := [3; 1];
                           storage_offset := 7; is_sparse := false |} 0
            = Ok u /\ sizes u = [3] /\ strides u = [1].
Proof.
  split.
  - apply (proj1 (squeeze_dim_geometry t53 0 0 eq_refl eq_refl)).
    right. discriminate.
  - destruct (proj2 (squeeze_dim_geometry
                       {| sizes := [1; 3]; strides := [3; 1];
                          storage_offset := 7; is_sparse := false |}
                       0 0 eq_refl eq_refl)
                ltac:(unfold dim; cbn; lia) eq_refl)
      as (u & Hu & _ & Hs & Hst & _).
    exists u. exact (conj Hu (conj Hs Hst)).
Defined.

(** ** Addressing through slice and narrow *)

(** Changing the index and the stride at one position changes one term of
    the offset sum. *)
Lemma sum_zip_update (st index : list Z) (k : nat) (w c : Z) :
  (k < length index)%nat -> (k < length st)%nat ->
  sum_list (zip_with Z.mul (<[k := w]> index) (<[k := c]> st))
  = sum_list (zip_with Z.mul index st) - (index !!! k) * (st !!! k) + w * c.
Proof.
  revert st index. induction k as [|k IH]; intros [|s0 st] [|i0 index] Hi Hst;
    cbn [length] in *; try lia.
  - cbn [zip_with]. change (<[0%nat := w]> (i0 :: index)) with (w :: index).
    change (<[0%nat := c]> (s0 :: st)) with (c :: st).
    cbn [zip_with]. rewrite !sum_list_cons.
    change ((i0 :: index) !!! 0%nat) with i0.
    change ((s0 :: st) !!! 0%nat) with s0. lia.
  - change (<[S k := w]> (i0 :: index)) with (i0 :: <[k := w]> index).
    change (<[S k := c]> (s0 :: st)) with (s0 :: <[k := c]> st).
    cbn [zip_with]. rewrite !sum_list_cons, IH by lia.
    change ((i0 :: index) !!! S k) with (index !!! k).
    change ((s0 :: st) !!! S k) with (st !!! k). lia.
Qed.

(** Property X2. A slice reads the source at [start + i * step]: for a
    positive [step] and a range that is not empty, entry [i] of the view
    along [dim] is entry [start + i * step] of the source, which lies in
    [[start, end)], and every other coordinate is unchanged (the offset
    and the stride of the view being exact in [int64_t]). *)
Theorem slice_element (t : Tensor) (d d' start end_ step : Z)
    (multi : list Z) :
  wf_tensor t -> Int64.representable start -> Int64.representable end_ ->
  0 < dim t -> maybe_wrap_dim d (dim t) = Ok d' ->
  let n := sizes t !!! Z.to_nat d' in
  let stride := strides t !!! Z.to_nat d' in
  let s := slice_start n start in
  let e := slice_end n start end_ in
  let i := multi !!! Z.to_nat d' in
  0 < step -> e <> s -> e - s + step - 1 <= Int64.max_signed ->
  Int64.representable (storage_offset t + s * stride) ->
  Int64.representable (stride * step) ->
  Z.of_nat (length multi) = dim t ->
  exists v, slice t d start end_ step = Ok (View v) /\
    (0 <= i < sizes v !!! Z.to_nat d' -> s <= s + i * step < e /\ e <= n) /\
    element_offset v multi
    = element_offset t (<[Z.to_nat d' := s + i * step]> multi).
Proof.
  intros Hwf Hstart Hend Hpos Hd n stride s e i Hstep Hne Hfit Hoff Hst Hlen.
  destruct (maybe_wrap_dim_Ok _ _ _ Hd) as [Hr _].
  assert (Hd' : 0 <= d' < dim t) by lia.
  destruct (slice_cases t d d' start end_ step Hwf Hstart Hend Hpos Hd)
    as [_ Hok].
  destruct (Hok Hstep) as (Hse & Hen & _ & Hview). clear Hok.
  fold n stride s e in Hse, Hen, Hview.
  specialize (Hview Hne Hfit).
  pose proof Hwf as (_ & Hl & _).
  eexists. split; [exact Hview|]. cbn [sizes]. split.
  - rewrite list_lookup_total_insert_eq by (unfold dim in *; lia).
    intros Hi. pose proof (ceil_div_spec (e - s) step Hstep). nia.
  - unfold element_offset. cbn [strides storage_offset].
    rewrite <- (insert_lookup_total_id multi (Z.to_nat d')) at 1
      by (unfold dim in *; lia).
    rewrite <- (insert_lookup_total_id (strides t) (Z.to_nat d')) at 2
      by (unfold dim in *; lia).
    rewrite !sum_zip_update by (unfold dim in *; lia).
    fold i stride. rewrite (add_mul_exact _ _ _ Hoff).
    unfold Int64.mul. rewrite (wrap_representable _ Hst). ring.
Qed.

Lemma slice_element_witness :
  exists v, slice t53 0 1 5 2 = Ok (View v) /\
    (0 <= 1 < sizes v !!! 0%nat -> 1 <= 1 + 1 * 2 < 5 /\ 5 <= 5) /\
    element_offset v [1; 2] = element_offset t53 [1 + 1 * 2; 2].
Proof.
  apply (slice_element t53 0 0 1 5 2 [1; 2] wf_t53);
    first [exact eq_refl | cbv -[Z.le Z.lt]; lia | discriminate].
Defined.

(** Property X3. The full range is the identity: on a dimension with
    entries, [slice(t, d, 0, INT64_MAX, 1)] (the default arguments of
    [slice]) and [narrow(t, d, 0, size(d))] both return a view with the
    geometry of [t]. *)
Theorem slice_full_range (t : Tensor) (d d' : Z) :
  wf_tensor t -> 0 < dim t -> maybe_wrap_dim d (dim t) = Ok d' ->
  0 < sizes t !!! Z.to_nat d' ->
  slice t d 0 Int64.max_signed 1 = Ok (View t) /\
  narrow t d 0 (sizes t !!! Z.to_nat d') = Ok (View t).
Proof.
  intros Hwf Hpos Hd Hn.
  destruct (maybe_wrap_dim_Ok _ _ _ Hd) as [Hr _].
  assert (Hd' : 0 <= d' < dim t) by lia.
  pose proof (wf_size_bounds t d' Hwf Hd') as Hb.
  split; [|by apply narrow_whole_dimension].
  destruct (slice_cases t d d' 0 Int64.max_signed 1 Hwf
              ltac:(int64_unfold; lia) ltac:(int64_unfold; lia) Hpos Hd)
    as [_ Hok].
  destruct (Hok ltac:(lia)) as (_ & _ & _ & Hview). clear Hok.
  set (n := sizes t !!! Z.to_nat d') in *.
  assert (Hs : slice_start n 0 = 0).
  { unfold slice_start, clamp, relative. cbn. lia. }
  assert (He : slice_end n 0 Int64.max_signed = n).
  { unfold slice_end. rewrite Hs. unfold clamp, relative.
    change (Int64.max_signed <? 0) with false. cbv beta iota.
    destruct (Z.ltb_spec (Z.max 0 (Z.min n Int64.max_signed)) 0); lia. }
  rewrite Hs, He in Hview. rewrite Hview by lia.
  destruct Hwf as (_ & Hlen & _ & Hstr & Hoff).
  do 2 f_equal.
  rewrite Z.sub_0_r, ceil_div_1.
  unfold Int64.add, Int64.mul.
  rewrite Z.mul_1_r, Z.mul_0_l, wrap_add_wrap_r, Z.add_0_r.
  rewrite (wrap_representable _ Hoff).
  rewrite (wrap_representable (strides t !!! Z.to_nat d')).
  - unfold n. rewrite !insert_lookup_total_id by (unfold dim in Hd'; lia).
    by destruct t.
  - apply (Forall_lookup_total_1 _ _ (Z.to_nat d') Hstr).
    unfold dim in Hd'. lia.
Qed.

Lemma slice_full_range_witness :
  slice t53 1 0 Int64.max_signed 1 = Ok (View t53) /\
  narrow t53 1 0 (sizes t53 !!! Z.to_nat 1) = Ok (View t53).
Proof.
  apply (slice_full_range t53 1 1 wf_t53);
    first [exact eq_refl | cbv -[Z.le Z.lt]; lia].
Defined.

(** ** unbind *)

Lemma select_normalised (t : Tensor) (d d' index : Z) :
  maybe_wrap_dim d (dim t) = Ok d' -> select t d' index = select t d index.
Proof.
  intros Hd. destruct (maybe_wrap_dim_Ok _ _ _ Hd) as [Hr _].
  unfold select. destruct (Z.ltb_spec 0 (dim t)); [|done]. cbn [negb].
  by rewrite Hd, maybe_wrap_dim_id by lia.
Qed.

Lemma unbind_loop_spec (t : Tensor) (d : Z) (n : nat) (i : Z) :
  wf_tensor t -> 0 < dim t -> 0 <= d < dim t -> 0 <= i ->
  i + Z.of_nat n <= sizes t !!! Z.to_nat d ->
  exists vs, unbind_loop t d n i = Ok vs /\ length vs = n /\
    forall k v, vs !! k = Some v -> select t d (i + Z.of_nat k) = Ok v.
Proof.
  intros Hwf Hpos Hd. revert i. induction n as [|n IH]; intros i Hi Hfit.
  - exists []. repeat split. intros k v Hk. by rewrite lookup_nil in Hk.
  - pose proof (wf_size_bounds t d Hwf Hd) as Hb.
    cbn [unbind_loop].
    assert (Hsel : exists v, select t d i = Ok v).
    { eexists. apply (select_Ok t d d i Hwf);
        try apply maybe_wrap_dim_id; try (int64_unfold; lia); lia. }
    destruct Hsel as [v0 Hsel]. rewrite Hsel. cbn [bind].
    destruct (IH (i + 1) ltac:(lia) ltac:(lia)) as (vs & -> & Hlen & Hvs).
    cbn [bind]. eexists. split; [done|]. split; [cbn; by rewrite Hlen|].
    intros [|k] v Hk.
    + rewrite Z.add_0_r. cbn in Hk. congruence.
    + replace (i + Z.of_nat (S k)) with (i + 1 + Z.of_nat k) by lia.
      by apply Hvs.
Qed.

(** Property X12. [unbind] takes a dimension apart: on a handle of rank > 0
    (whose size along [dim] is within the range of the [int] that counts
    the views) it returns [size(dim)] views, and view [i] is
    [select(t, dim, i)]. *)
Theorem unbind_selects (t : Tensor) (d d' : Z) :
  wf_tensor t -> 0 < dim t -> maybe_wrap_dim d (dim t) = Ok d' ->
  sizes t !!! Z.to_nat d' <= 2147483647 ->
  exists vs, unbind t d = Ok vs /\
    Z.of_nat (length vs) = sizes t !!! Z.to_nat d' /\
    forall i v, vs !! i = Some v -> select t d (Z.of_nat i) = Ok v.
Proof.
  intros Hwf Hpos Hd _.
  destruct (maybe_wrap_dim_Ok _ _ _ Hd) as [Hr _].
  assert (Hd' : 0 <= d' < dim t) by lia.
  pose proof (wf_size_bounds t d' Hwf Hd') as Hb.
  unfold unbind. rewrite Hd. cbn [bind].
  rewrite (size_normalised _ _ Hd'). cbn [bind].
  destruct (unbind_loop_spec t d' (Z.to_nat (sizes t !!! Z.to_nat d')) 0
              Hwf Hpos Hd' ltac:(lia) ltac:(lia)) as (vs & -> & Hlen & Hvs).
  exists vs. split; [done|]. split; [lia|].
  intros i v Hi. rewrite <- (select_normalised t d d') by done.
  by apply Hvs.
Qed.

Lemma unbind_selects_witness :
  exists vs, unbind t53 (-1) = Ok vs /\
    Z.of_nat (length vs) = sizes t53 !!! Z.to_nat 1 /\
    forall i v, vs !! i = Some v -> select t53 (-1) (Z.of_nat i) = Ok v.
Proof.
  apply (unbind_selects t53 (-1) 1 wf_t53);
    first [exact eq_refl | cbv -[Z.le Z.lt]; lia].
Defined.

(** ** permute *)

Lemma normalise_dims_range (n : Z) (dims : list Z) (y : Z) :
  Forall (fun x => - n <= x < n) dims -> y ∈ normalise_dims n dims ->
  0 <= y < n.
Proof.
  intros Hrange Hy. apply list_elem_of_fmap in Hy as (x & -> & Hx).
  pose proof (proj1 (Forall_forall _ _) Hrange x Hx) as H. cbv beta in H.
  destruct (Z.ltb_spec x 0); lia.
Qed.

Lemma permute_loop_Ok (oldSizes oldStrides : list Z) (n : Z)
    (dims : list Z) (seen : list bool) :
  1 <= n -> Z.of_nat (length seen) = n ->
  Forall (fun x => - n <= x < n) dims ->
  NoDup (normalise_dims n dims) ->
  (forall y, y ∈ normalise_dims n dims -> seen !!! Z.to_nat y = false) ->
  permute_loop oldSizes oldStrides n dims seen
  = Ok (gather oldSizes (normalise_dims n dims),
        gather oldStrides (normalise_dims n dims)).
Proof.
  intros Hn. revert seen.
  induction dims as [|x dims IH]; intros seen Hseen Hrange Hnd Hfalse;
    [done|].
  apply Forall_cons in Hrange as [Hx Hrange].
  unfold normalise_dims in *. rewrite fmap_cons in *.
  apply NoDup_cons in Hnd as [Hnotin Hnd].
  set (d := if x <? 0 then x + n else x) in *.
  assert (Hdr : 0 <= d < n) by (unfold d; destruct (Z.ltb_spec x 0); lia).
  assert (Hd : maybe_wrap_dim x n = Ok d).
  { unfold maybe_wrap_dim. fold d. clearbody d.
    destruct (Z.ltb_spec d 0), (Z.leb_spec (Z.max n 1) d); done || lia. }
  clearbody d.
  cbn [permute_loop]. rewrite Hd. cbn [bind].
  rewrite (Hfalse d) by apply list_elem_of_here.
  rewrite IH; [done| by rewrite length_insert | done | done |].
  intros y Hy.
  assert (0 <= y < n) by by apply (normalise_dims_range n dims).
  rewrite list_lookup_total_insert_ne.
  - apply Hfalse. by apply list_elem_of_further.
  - intros Heq. apply Hnotin. by replace d with y by lia.
Qed.

Lemma permute_loop_repeated (oldSizes oldStrides : list Z) (n : Z)
    (dims : list Z) (seen : list bool) :
  1 <= n -> Z.of_nat (length seen) = n ->
  Forall (fun x => - n <= x < n) dims ->
  (exists y, y ∈ normalise_dims n dims /\ seen !!! Z.to_nat y = true)
  \/ ~ NoDup (normalise_dims n dims) ->
  permute_loop oldSizes oldStrides n dims seen = Err RepeatedDimension.
Proof.
  intros Hn. revert seen.
  induction dims as [|x dims IH]; intros seen Hseen Hrange Hbad.
  - destruct Hbad as [(y & Hy & _)|Hnd].
    + by apply elem_of_nil in Hy.
    + destruct Hnd. apply NoDup_nil_2.
  - apply Forall_cons in Hrange as [Hx Hrange].
    unfold normalise_dims in *. rewrite fmap_cons in *.
    set (d := if x <? 0 then x + n else x) in *.
    assert (Hdr : 0 <= d < n) by (unfold d; destruct (Z.ltb_spec x 0); lia).
    assert (Hd : maybe_wrap_dim x n = Ok d).
    { unfold maybe_wrap_dim. fold d. clearbody d.
      destruct (Z.ltb_spec d 0), (Z.leb_spec (Z.max n 1) d); done || lia. }
    clearbody d.
    cbn [permute_loop]. rewrite Hd. cbn [bind].
    destruct (seen !!! Z.to_nat d) eqn:Hsd; [done|].
    rewrite IH; [done| by rewrite length_insert | done |].
    assert (Hin : forall y, y ∈ (λ x0 : Z, if x0 <? 0 then x0 + n else x0)
                                   <$> dims -> 0 <= y < n).
    { intros y Hy. by apply (normalise_dims_range n dims). }
    destruct Hbad as [(y & Hy & Hty)|Hnd].
    + apply elem_of_cons in Hy as [->|Hy]; [congruence|].
      left. exists y. split; [done|].
      destruct (decide (y = d)) as [->|Hne].
      * apply list_lookup_total_insert_eq. lia.
      * pose proof (Hin y Hy).
        rewrite list_lookup_total_insert_ne by lia. done.
    + destruct (decide (d ∈ (λ x0 : Z, if x0 <? 0 then x0 + n else x0)
                              <$> dims)) as [Hdin|Hdnot].
      * left. exists d. split; [done|].
        apply list_lookup_total_insert_eq. lia.
      * right. intros Hnd'. apply Hnd. by apply NoDup_cons.
Qed.

Lemma prod_intlist_permutation (l k : list Z) :
  l ≡ₚ k -> prod_intlist l = prod_intlist k.
Proof.
  intros H. induction H as [|x l k _ IH|x y l|l k m _ IH1 _ IH2].
  - done.
  - by rewrite !prod_intlist_cons, IH.
  - rewrite !prod_intlist_cons. lia.
  - congruence.
Qed.

Lemma gather_seq (v : list Z) :
  gather v (Z.of_nat <$> seq 0 (length v)) = v.
Proof.
  unfold gather. rewrite <- list_fmap_compose.
  apply list_eq. intros i. rewrite list_lookup_fmap.
  destruct (decide (i < length v)%nat) as [Hi|Hi].
  - rewrite lookup_seq_lt by done. cbn. rewrite Nat2Z.id.
    symmetry. by apply list_lookup_lookup_total_lt.
  - rewrite lookup_seq_ge by lia. cbn. symmetry.
    apply lookup_ge_None. lia.
Qed.

(** A duplicate-free list of [n] positions below [n] lists them all. *)
Lemma positions_permutation (n : nat) (ds : list Z) :
  length ds = n -> NoDup ds -> Forall (fun d => 0 <= d < Z.of_nat n) ds ->
  ds ≡ₚ Z.of_nat <$> seq 0 n.
Proof.
  intros Hlen Hnd Hr. apply submseteq_length_Permutation.
  - apply NoDup_submseteq; [done|]. intros d Hd.
    pose proof (proj1 (Forall_forall _ _) Hr d Hd) as H. cbv beta in H.
    apply list_elem_of_fmap. exists (Z.to_nat d). split; [lia|].
    apply elem_of_seq. lia.
  - rewrite length_fmap, length_seq. lia.
Qed.

(** The outcomes of [permute] on arguments within [[-rank, rank)]. *)
Lemma permute_cases (t : Tensor) (dims : list Z) :
  length (sizes t) = length (strides t) ->
  (Z.of_nat (length dims) <> dim t -> permute t dims = Err InvalidDimension) /\
  (Z.of_nat (length dims) = dim t ->
   Forall (fun x => - dim t <= x < dim t) dims ->
   let ds := normalise_dims (dim t) dims in
   (NoDup ds ->
      permute t dims
      = Ok {| sizes := gather (sizes t) ds; strides := gather (strides t) ds;
              storage_offset := storage_offset t;
              is_sparse := is_sparse t |} /\
      numel (as_strided t (gather (sizes t) ds) (gather (strides t) ds))
      = numel t) /\
   (~ NoDup ds -> permute t dims = Err RepeatedDimension)).
Proof.
  intros Hl. split.
  - intros Hne. unfold permute.
    by destruct (Z.eqb_spec (Z.of_nat (length dims)) (dim t)).
  - intros Hlen Hrange ds. unfold permute.
    destruct (Z.eqb_spec (Z.of_nat (length dims)) (dim t)); [|done].
    cbn [negb].
    destruct dims as [|x dims].
    { split; [|intros H; destruct H; apply NoDup_nil_2].
      intros _. cbn in *. unfold as_strided, as_strided3, numel. cbn.
      destruct t as [[|] [|] ? ?]; cbn in *; done || (unfold dim in *; cbn in *; lia). }
    assert (Hn : 1 <= dim t) by (rewrite <- Hlen; cbn [length]; lia).
    split.
    + intros Hnd.
      rewrite (permute_loop_Ok _ _ (dim t)); try done.
      * split; [done|]. unfold numel, as_strided, as_strided3. cbn [sizes].
        rewrite <- (gather_seq (sizes t)) at 2.
        apply prod_intlist_permutation. unfold gather.
        apply fmap_Permutation. apply positions_permutation; [|done|].
        -- unfold ds, normalise_dims. rewrite length_fmap.
           unfold dim in *. lia.
        -- unfold ds, normalise_dims. apply Forall_fmap.
           eapply Forall_impl; [exact Hrange|]. intros y Hy. cbn.
           unfold dim in *. destruct (Z.ltb_spec y 0); lia.
      * rewrite length_replicate. lia.
      * intros y Hy. apply lookup_total_replicate_2.
        pose proof (normalise_dims_range _ _ y Hrange Hy). lia.
    + intros Hnd.
      rewrite (permute_loop_repeated _ _ (dim t)); try done.
      * rewrite length_replicate. lia.
      * by right.
Qed.

(** Property X13. [permute] accepts exactly the permutations: with as many
    arguments as the handle has dimensions, each within [[-rank, rank)], it
    returns the view whose dimension [i] is dimension [dims[i]] of the
    source when the normalised arguments are pairwise different (the view
    then has the elements of the source), and fails with RepeatedDimension
    when two of them name the same dimension; a list of another length
    fails with InvalidDimension. *)
Theorem permute_characterisation (t : Tensor) (dims : list Z) :
  length (sizes t) = length (strides t) ->
  (Z.of_nat (length dims) <> dim t -> permute t dims = Err InvalidDimension) /\
  (Z.of_nat (length dims) = dim t ->
   Forall (fun x => - dim t <= x < dim t) dims ->
   let ds := normalise_dims (dim t) dims in
   (NoDup ds ->
      permute t dims
      = Ok {| sizes := gather (sizes t) ds; strides := gather (strides t) ds;
              storage_offset := storage_offset t;
              is_sparse := is_sparse t |} /\
      numel (as_strided t (gather (sizes t) ds) (gather (strides t) ds))
      = numel t) /\
   (~ NoDup ds -> permute t dims = Err RepeatedDimension)).
Proof. apply permute_cases. Qed.

Lemma permute_characterisation_witness :
  (permute t53 [1; -2]
   = Ok {| sizes := [3; 5]; strides := [1; 3]; storage_offset := 7;
           is_sparse := false |} /\
   numel (as_strided t53 [3; 5] [1; 3]) = numel t53) /\
  permute t53 [0] = Err InvalidDimension.
Proof.
  destruct (permute_characterisation t53 [1; -2] eq_refl) as [_ H].
  destruct (H eq_refl ltac:(repeat constructor; cbv -[Z.le Z.lt]; lia))
    as [Hok _].
  split.
  - apply Hok. by apply (bool_decide_unpack _).
  - apply (proj1 (permute_characterisation t53 [0] eq_refl)).
    unfold dim. cbn. lia.
Defined.

(** ** transpose and t *)

Lemma swap_length (v : list Z) (i j : Z) : length (swap v i j) = length v.
Proof. unfold swap. by rewrite !length_insert. Qed.

Lemma swap_lookup_l (v : list Z) (i j : Z) :
  0 <= i < Z.of_nat (length v) -> 0 <= j < Z.of_nat (length v) ->
  swap v i j !!! Z.to_nat i = v !!! Z.to_nat j.
Proof.
  intros Hi Hj. unfold swap. destruct (decide (i = j)) as [->|Hne].
  - rewrite list_lookup_total_insert_eq by (rewrite length_insert; lia). done.
  - rewrite list_lookup_total_insert_ne by lia.
    apply list_lookup_total_insert_eq. lia.
Qed.

Lemma swap_lookup_r (v : list Z) (i j : Z) :
  0 <= i < Z.of_nat (length v) -> 0 <= j < Z.of_nat (length v) ->
  swap v i j !!! Z.to_nat j = v !!! Z.to_nat i.
Proof.
  intros Hi Hj. unfold swap.
  apply list_lookup_total_insert_eq. rewrite length_insert. lia.
Qed.

Lemma swap_comm (v : list Z) (i j : Z) :
  0 <= i -> 0 <= j -> swap v i j = swap v j i.
Proof.
  intros Hi Hj. unfold swap. destruct (decide (i = j)) as [->|Hne]; [done|].
  apply list_insert_insert_ne. lia.
Qed.

Lemma swap_involutive (v : list Z) (i j : Z) :
  0 <= i < Z.of_nat (length v) -> 0 <= j < Z.of_nat (length v) ->
  swap (swap v i j) i j = v.
Proof.
  intros Hi Hj. unfold swap at 1.
  rewrite swap_lookup_l, swap_lookup_r by done. unfold swap.
  set (vi := v !!! Z.to_nat i). set (vj := v !!! Z.to_nat j).
  destruct (decide (i = j)) as [->|Hne].
  - rewrite !list_insert_insert_eq. apply insert_lookup_total_id. lia.
  - rewrite (list_insert_insert_ne _ (Z.to_nat i) (Z.to_nat j) vi vi) by lia.
    rewrite !list_insert_insert_eq.
    unfold vi. rewrite insert_lookup_total_id by lia.
    apply insert_lookup_total_id. lia.
Qed.

(** Swapping two indices and the two strides leaves the offset sum. *)
Lemma sum_zip_swap (st index : list Z) (i j : Z) :
  length index = length st ->
  0 <= i < Z.of_nat (length st) -> 0 <= j < Z.of_nat (length st) ->
  sum_list (zip_with Z.mul (swap index i j) (swap st i j))
  = sum_list (zip_with Z.mul index st).
Proof.
  intros Hl Hi Hj. destruct (decide (i = j)) as [->|Hne].
  - unfold swap. rewrite !list_insert_insert_eq.
    rewrite !insert_lookup_total_id by lia. done.
  - unfold swap.
    rewrite !sum_zip_update by (rewrite ?length_insert; lia).
    rewrite !list_lookup_total_insert_ne by lia. ring.
Qed.

Lemma prod_intlist_insert (l : list Z) (k : nat) (w : Z) :
  (k < length l)%nat ->
  prod_intlist (<[k := w]> l) * (l !!! k) = prod_intlist l * w.
Proof.
  revert k. induction l as [|x l IH]; intros [|k] Hk; cbn [length] in *;
    try lia.
  - change (<[0%nat := w]> (x :: l)) with (w :: l).
    change ((x :: l) !!! 0%nat) with x. rewrite !prod_intlist_cons. ring.
  - change (<[S k := w]> (x :: l)) with (x :: <[k := w]> l).
    change ((x :: l) !!! S k) with (l !!! k).
    rewrite !prod_intlist_cons, <- Z.mul_assoc, IH by lia. ring.
Qed.

Lemma prod_intlist_zero (l : list Z) (k : nat) :
  (k < length l)%nat -> l !!! k = 0 -> prod_intlist l = 0.
Proof.
  revert k. induction l as [|x l IH]; intros [|k] Hk; cbn [length] in *;
    try lia.
  - change ((x :: l) !!! 0%nat) with x. intros ->.
    by rewrite prod_intlist_cons.
  - change ((x :: l) !!! S k) with (l !!! k). intros H0.
    rewrite prod_intlist_cons, (IH k) by (done || lia). ring.
Qed.

Lemma prod_intlist_swap (v : list Z) (i j : Z) :
  0 <= i < Z.of_nat (length v) -> 0 <= j < Z.of_nat (length v) ->
  prod_intlist (swap v i j) = prod_intlist v.
Proof.
  intros Hi Hj. destruct (decide (i = j)) as [->|Hne].
  { unfold swap. rewrite list_insert_insert_eq.
    by rewrite insert_lookup_total_id by lia. }
  destruct (decide (v !!! Z.to_nat j = 0)) as [H0|Hnz].
  - rewrite (prod_intlist_zero v (Z.to_nat j)) by (done || lia).
    apply (prod_intlist_zero _ (Z.to_nat i)); [rewrite swap_length; lia|].
    by rewrite swap_lookup_l.
  - pose proof (prod_intlist_insert (<[Z.to_nat i := v !!! Z.to_nat j]> v)
                  (Z.to_nat j) (v !!! Z.to_nat i)
                  ltac:(rewrite length_insert; lia)) as H1.
    rewrite list_lookup_total_insert_ne in H1 by lia.
    pose proof (prod_intlist_insert v (Z.to_nat i) (v !!! Z.to_nat j)
                  ltac:(lia)) as H2.
    fold (swap v i j) in H1.
    apply (Z.mul_reg_r _ _ (v !!! Z.to_nat j) Hnz). nia.
Qed.

(** The dense branch of [transpose], as one equation. *)
Lemma transpose_dense (sparse_transpose_ : Tensor -> Z -> Z -> result Tensor)
    (t : Tensor) (d0 d1 d0' d1' : Z) :
  is_sparse t = false ->
  maybe_wrap_dim d0 (dim t) = Ok d0' -> maybe_wrap_dim d1 (dim t) = Ok d1' ->
  d0' <> d1' ->
  transpose sparse_transpose_ t d0 d1
  = Ok {| sizes := swap (sizes t) d0' d1';
          strides := swap (strides t) d0' d1';
          storage_offset := storage_offset t; is_sparse := false |}.
Proof.
  intros Hdense H0 H1 Hne. unfold transpose. rewrite H0, H1. cbn [bind].
  destruct (Z.eqb_spec d0' d1'); [done|]. rewrite Hdense.
  unfold as_strided, as_strided3. by rewrite Hdense.
Qed.

(** Property X14. On a dense handle [transpose] exchanges two dimensions:
    the view has the two sizes and the two strides exchanged, the element
    count of the source, and at a multi-index with the two coordinates
    exchanged it addresses the element of the source; exchanging the
    arguments gives the same view, and transposing the view again gives
    back the source. *)
Theorem transpose_exchanges
    (sparse_transpose_ : Tensor -> Z -> Z -> result Tensor)
    (t : Tensor) (d0 d1 d0' d1' : Z) :
  is_sparse t = false -> length (sizes t) = length (strides t) ->
  maybe_wrap_dim d0 (dim t) = Ok d0' -> maybe_wrap_dim d1 (dim t) = Ok d1' ->
  exists u, transpose sparse_transpose_ t d0 d1 = Ok u /\
    transpose sparse_transpose_ t d1 d0 = Ok u /\
    transpose sparse_transpose_ u d0 d1 = Ok t /\
    dim u = dim t /\ numel u = numel t /\
    sizes u !!! Z.to_nat d0' = sizes t !!! Z.to_nat d1' /\
    sizes u !!! Z.to_nat d1' = sizes t !!! Z.to_nat d0' /\
    strides u !!! Z.to_nat d0' = strides t !!! Z.to_nat d1' /\
    strides u !!! Z.to_nat d1' = strides t !!! Z.to_nat d0' /\
    forall multi, Z.of_nat (length multi) = dim t ->
      element_offset u (swap multi d0' d1') = element_offset t multi.
Proof.
  intros Hdense Hl H0 H1.
  destruct (maybe_wrap_dim_Ok _ _ _ H0) as [Hr0 _].
  destruct (maybe_wrap_dim_Ok _ _ _ H1) as [Hr1 _].
  destruct (decide (d0' = d1')) as [->|Hne].
  - exists t. unfold transpose. rewrite H0, H1. cbn [bind].
    rewrite Z.eqb_refl. repeat split; try done.
    intros multi Hm. unfold swap. rewrite list_insert_insert_eq.
    destruct (decide (Z.to_nat d1' < length multi)%nat).
    + by rewrite insert_lookup_total_id.
    + by rewrite list_insert_ge by lia.
  - assert (Hpos : 2 <= dim t) by lia.
    assert (Hi : 0 <= d0' < Z.of_nat (length (sizes t)))
      by (unfold dim in *; lia).
    assert (Hj : 0 <= d1' < Z.of_nat (length (sizes t)))
      by (unfold dim in *; lia).
    eexists. split; [by apply transpose_dense|].
    set (u := {| sizes := _ |}).
    assert (Hdim : dim u = dim t) by (unfold dim, u; cbn; by rewrite swap_length).
    split.
    { rewrite (transpose_dense _ t d1 d0 d1' d0') by done.
      unfold u. by rewrite (swap_comm (sizes t) d1' d0'),
        (swap_comm (strides t) d1' d0') by lia. }
    split.
    { rewrite (transpose_dense _ u d0 d1 d0' d1');
        [| done | by rewrite Hdim | by rewrite Hdim | done].
      unfold u. cbn [sizes strides storage_offset].
      rewrite !swap_involutive by (rewrite <- ?Hl; done).
      destruct t; cbn in *. by rewrite Hdense. }
    split; [done|]. unfold u, numel. cbn [sizes strides].
    split; [by apply prod_intlist_swap|].
    split; [by apply swap_lookup_l|].
    split; [by apply swap_lookup_r|].
    split; [apply swap_lookup_l; by rewrite <- Hl|].
    split; [apply swap_lookup_r; by rewrite <- Hl|].
    intros multi Hm. unfold element_offset. cbn [strides storage_offset].
    rewrite sum_zip_swap; [done| unfold dim in *; lia | |]; by rewrite <- Hl.
Qed.

Lemma transpose_exchanges_witness :
  exists u, transpose (fun _ _ _ => Err InvalidDimension) t53 0 (-1) = Ok u /\
    transpose (fun _ _ _ => Err InvalidDimension) t53 (-1) 0 = Ok u /\
    transpose (fun _ _ _ => Err InvalidDimension) u 0 (-1) = Ok t53 /\
    dim u = dim t53 /\ numel u = numel t53 /\
    sizes u !!! Z.to_nat 0 = sizes t53 !!! Z.to_nat 1 /\
    sizes u !!! Z.to_nat 1 = sizes t53 !!! Z.to_nat 0 /\
    strides u !!! Z.to_nat 0 = strides t53 !!! Z.to_nat 1 /\
    strides u !!! Z.to_nat 1 = strides t53 !!! Z.to_nat 0 /\
    forall multi, Z.of_nat (length multi) = dim t53 ->
      element_offset u (swap multi 0 1) = element_offset t53 multi.
Proof.
  exact (transpose_exchanges (fun _ _ _ => Err InvalidDimension) t53 0 (-1)
           0 1 eq_refl eq_refl eq_refl eq_refl).
Defined.

(** Property X16. On a dense handle [t] is defined for matrices only: it
    fails with rank other than 2, and on rank 2 it returns the view with
    the two dimensions exchanged, which is [permute(self, [1, 0])], and
    which [t] takes back to the source. *)
Theorem t_dense (sparse_transpose_ : Tensor -> Z -> Z -> result Tensor)
    (_sparseDims _denseDims : Tensor -> Z) (self : Tensor) :
  is_sparse self = false -> length (sizes self) = length (strides self) ->
  (dim self <> 2 ->
   fails (t sparse_transpose_ _sparseDims _denseDims self)) /\
  (dim self = 2 ->
   let u := {| sizes := [sizes self !!! 1%nat; sizes self !!! 0%nat];
               strides := [strides self !!! 1%nat; strides self !!! 0%nat];
               storage_offset := storage_offset self;
               is_sparse := false |} in
   t sparse_transpose_ _sparseDims _denseDims self = Ok u /\
   permute self [1; 0] = Ok u /\
   t sparse_transpose_ _sparseDims _denseDims u = Ok self).
Proof.
  intros Hdense Hl. split.
  - intros Hne. unfold t, check_t. rewrite Hdense.
    destruct (Z.eqb_spec (dim self) 2); [done|]. by eexists.
  - intros H2 u.
    destruct self as [sz st off sp]. cbn in Hdense, Hl. subst sp.
    unfold dim in H2. cbn in H2.
    destruct sz as [|s0 [|s1 [|]]]; cbn in H2; try lia.
    destruct st as [|r0 [|r1 [|]]]; cbn in Hl; try lia.
    done.
Qed.

Lemma t_dense_witness :
  t (fun _ _ _ => Err InvalidDimension) (fun _ => 0) (fun _ => 0) t53
  = Ok {| sizes := [3; 5]; strides := [1; 3]; storage_offset := 7;
          is_sparse := false |} /\
  permute t53 [1; 0]
  = Ok {| sizes := [3; 5]; strides := [1; 3]; storage_offset := 7;
          is_sparse := false |}.
Proof.
  destruct (t_dense (fun _ _ _ => Err InvalidDimension) (fun _ => 0)
              (fun _ => 0) t53 eq_refl eq_refl) as [_ H].
  destruct (H eq_refl) as (H1 & H2 & _). exact (conj H1 H2).
Defined.

(** ** transpose as a permutation *)

Lemma swap_lookup_total (v : list Z) (i j : Z) (k : nat) :
  0 <= i < Z.of_nat (length v) -> 0 <= j < Z.of_nat (length v) ->
  swap v i j !!! k
  = if decide (k = Z.to_nat j) then v !!! Z.to_nat i
    else if decide (k = Z.to_nat i) then v !!! Z.to_nat j
    else v !!! k.
Proof.
  intros Hi Hj. destruct (decide (k = Z.to_nat j)) as [->|Hkj].
  - by apply swap_lookup_r.
  - destruct (decide (k = Z.to_nat i)) as [->|Hki].
    + by apply swap_lookup_l.
    + unfold swap. by rewrite !list_lookup_total_insert_ne.
Qed.

Lemma identity_perm_lookup (n k : nat) :
  (k < n)%nat -> identity_perm n !!! k = Z.of_nat k.
Proof.
  intros Hk. unfold identity_perm. apply list_lookup_total_correct.
  by rewrite list_lookup_fmap, lookup_seq_lt.
Qed.

Lemma identity_perm_length (n : nat) : length (identity_perm n) = n.
Proof. unfold identity_perm. by rewrite length_fmap, length_seq. Qed.

(** The identity with two positions exchanged, entry by entry. *)
Lemma swapped_identity_lookup (n : nat) (i j : Z) (k : nat) :
  0 <= i < Z.of_nat n -> 0 <= j < Z.of_nat n -> (k < n)%nat ->
  swap (identity_perm n) i j !!! k
  = if decide (k = Z.to_nat j) then i
    else if decide (k = Z.to_nat i) then j else Z.of_nat k.
Proof.
  intros Hi Hj Hk.
  rewrite swap_lookup_total by (rewrite identity_perm_length; lia).
  rewrite !identity_perm_lookup by lia.
  repeat destruct (decide _); lia.
Qed.

Lemma swapped_identity_range (n : nat) (i j : Z) :
  0 <= i < Z.of_nat n -> 0 <= j < Z.of_nat n ->
  Forall (fun x => 0 <= x < Z.of_nat n) (swap (identity_perm n) i j).
Proof.
  intros Hi Hj. apply Forall_lookup. intros k x Hk.
  pose proof (lookup_lt_Some _ _ _ Hk) as Hlt.
  rewrite swap_length, identity_perm_length in Hlt.
  apply list_lookup_total_correct in Hk.
  rewrite swapped_identity_lookup in Hk by done.
  repeat destruct (decide _); lia.
Qed.

Lemma swapped_identity_NoDup (n : nat) (i j : Z) :
  0 <= i < Z.of_nat n -> 0 <= j < Z.of_nat n ->
  NoDup (swap (identity_perm n) i j).
Proof.
  intros Hi Hj. apply NoDup_alt. intros a b x Ha Hb.
  pose proof (lookup_lt_Some _ _ _ Ha) as Hla.
  pose proof (lookup_lt_Some _ _ _ Hb) as Hlb.
  rewrite swap_length, identity_perm_length in Hla, Hlb.
  apply list_lookup_total_correct in Ha, Hb.
  rewrite swapped_identity_lookup in Ha, Hb by done.
  repeat destruct (decide _); lia.
Qed.

Lemma normalise_dims_nonneg (n : Z) (dims : list Z) :
  Forall (fun x => 0 <= x) dims -> normalise_dims n dims = dims.
Proof.
  unfold normalise_dims. induction 1 as [|x l Hx _ IH]; [done|].
  rewrite fmap_cons, IH. by destruct (Z.ltb_spec x 0); [lia|].
Qed.

Lemma gather_swapped_identity (v : list Z) (i j : Z) :
  0 <= i < Z.of_nat (length v) -> 0 <= j < Z.of_nat (length v) ->
  gather v (swap (identity_perm (length v)) i j) = swap v i j.
Proof.
  intros Hi Hj. apply (list_eq_same_length _ _ (length v)).
  - by rewrite swap_length.
  - unfold gather.
    by rewrite length_fmap, swap_length, identity_perm_length.
  - intros k x y Hk Hx Hy.
    apply list_lookup_total_correct in Hy.
    unfold gather in Hx. rewrite list_lookup_fmap in Hx.
    destruct (swap (identity_perm (length v)) i j !! k) as [z|] eqn:Hz;
      [|discriminate].
    apply list_lookup_total_correct in Hz.
    rewrite swapped_identity_lookup in Hz by done.
    cbn in Hx. injection Hx as <-. subst y z.
    rewrite swap_lookup_total by done.
    repeat destruct (decide _); try done. by rewrite Nat2Z.id.
Qed.

(** Property X15. On a dense handle [transpose] is a [permute]: it is the
    permutation that lists the dimensions in order with the two transposed
    ones exchanged. *)
Theorem transpose_is_permute
    (sparse_transpose_ : Tensor -> Z -> Z -> result Tensor)
    (t : Tensor) (d0 d1 d0' d1' : Z) :
  is_sparse t = false -> length (sizes t) = length (strides t) ->
  maybe_wrap_dim d0 (dim t) = Ok d0' -> maybe_wrap_dim d1 (dim t) = Ok d1' ->
  0 < dim t ->
  transpose sparse_transpose_ t d0 d1
  = permute t (swap (identity_perm (length (sizes t))) d0' d1').
Proof.
  intros Hdense Hl H0 H1 Hpos.
  destruct (maybe_wrap_dim_Ok _ _ _ H0) as [Hr0 _].
  destruct (maybe_wrap_dim_Ok _ _ _ H1) as [Hr1 _].
  assert (Hi : 0 <= d0' < Z.of_nat (length (sizes t)))
    by (unfold dim in *; lia).
  assert (Hj : 0 <= d1' < Z.of_nat (length (sizes t)))
    by (unfold dim in *; lia).
  set (ds := swap (identity_perm (length (sizes t))) d0' d1').
  pose proof (swapped_identity_range _ _ _ Hi Hj) as Hrange. fold ds in Hrange.
  pose proof (swapped_identity_NoDup _ _ _ Hi Hj) as Hnd. fold ds in Hnd.
  assert (Hnorm : normalise_dims (dim t) ds = ds).
  { apply normalise_dims_nonneg. eapply Forall_impl; [exact Hrange|].
    cbv beta. lia. }
  destruct (permute_cases t ds Hl) as [_ Hperm].
  destruct Hperm as [Hok _].
  { unfold ds. rewrite swap_length, identity_perm_length. done. }
  { eapply Forall_impl; [exact Hrange|]. cbv beta. unfold dim. lia. }
  rewrite Hnorm in Hok. destruct (Hok Hnd) as [-> _].
  unfold ds. rewrite gather_swapped_identity by done.
  rewrite Hl at 1. rewrite gather_swapped_identity by (rewrite <- Hl; done).
  destruct (decide (d0' = d1')) as [->|Hne].
  - unfold transpose. rewrite H0, H1. cbn [bind]. rewrite Z.eqb_refl.
    unfold swap. rewrite !list_insert_insert_eq.
    rewrite !insert_lookup_total_id by lia. by destruct t.
  - rewrite (transpose_dense _ t d0 d1 d0' d1') by done. by rewrite Hdense.
Qed.

Lemma transpose_is_permute_witness :
  transpose (fun _ _ _ => Err InvalidDimension) t53 0 1
  = permute t53 (swap (identity_perm (length (sizes t53))) 0 1).
Proof.
  apply (transpose_is_permute (fun _ _ _ => Err InvalidDimension) t53 0 1 0 1);
    first [exact eq_refl | unfold dim; cbn; lia].
Defined.

(** ** diagonal *)

Lemma stride_normalised (t : Tensor) (d : Z) :
  0 <= d < dim t -> stride t d = Ok (strides t !!! Z.to_nat d).
Proof. intros H. unfold stride. by rewrite maybe_wrap_dim_id. Qed.

Lemma sub_mul_exact a b c :
  Int64.representable (a - b * c) -> Int64.sub a (Int64.mul b c) = a - b * c.
Proof.
  intros H. unfold Int64.sub, Int64.mul.
  rewrite wrap_sub_wrap_r. by apply wrap_representable.
Qed.

Lemma sum_zip_snoc (index st : list Z) (i s : Z) :
  length index = length st ->
  sum_list (zip_with Z.mul (index ++ [i]) (st ++ [s]))
  = sum_list (zip_with Z.mul index st) + i * s.
Proof.
  revert st. induction index as [|x index IH]; intros [|y st] Hl;
    cbn [length] in Hl; try lia.
  - cbn. lia.
  - cbn [app zip_with]. rewrite !sum_list_cons, IH by lia. lia.
Qed.

Lemma lookup_total_delete_lt (l : list Z) (i j : nat) :
  (i < j)%nat -> delete j l !!! i = l !!! i.
Proof.
  intros H. rewrite !list_lookup_total_alt. by rewrite list_lookup_delete_lt.
Qed.

(** The two outcomes of [diagonal] on two different dimensions. *)
Lemma diagonal_cases (t : Tensor) (offset d1 d2 d1' d2' : Z) :
  wf_tensor t -> Int64.representable offset ->
  maybe_wrap_dim d1 (dim t) = Ok d1' -> maybe_wrap_dim d2 (dim t) = Ok d2' ->
  d1' <> d2' ->
  let n1 := sizes t !!! Z.to_nat d1' in
  let n2 := sizes t !!! Z.to_nat d2' in
  let s1 := strides t !!! Z.to_nat d1' in
  let s2 := strides t !!! Z.to_nat d2' in
  let len := if 0 <=? offset then Z.min n1 (n2 - offset)
             else Z.min (n1 + offset) n2 in
  (len <= 0 -> diagonal t offset d1 d2 = Err IndexOutOfRange) /\
  (0 < len ->
   diagonal t offset d1 d2
   = Ok {| sizes := delete (Z.to_nat (Z.min d1' d2'))
                      (delete (Z.to_nat (Z.max d1' d2')) (sizes t)) ++ [len];
           strides := delete (Z.to_nat (Z.min d1' d2'))
                        (delete (Z.to_nat (Z.max d1' d2')) (strides t))
                      ++ [Int64.add s1 s2];
           storage_offset :=
             if 0 <=? offset
             then Int64.add (storage_offset t) (Int64.mul offset s2)
             else Int64.sub (storage_offset t) (Int64.mul offset s1);
           is_sparse := is_sparse t |}).
Proof.
  intros Hwf Hoff H1 H2 Hne n1 n2 s1 s2 len.
  destruct (maybe_wrap_dim_Ok _ _ _ H1) as [Hr1 _].
  destruct (maybe_wrap_dim_Ok _ _ _ H2) as [Hr2 _].
  assert (Hd1 : 0 <= d1' < dim t) by lia.
  assert (Hd2 : 0 <= d2' < dim t) by lia.
  pose proof (wf_size_bounds t d1' Hwf Hd1) as Hn1. fold n1 in Hn1.
  pose proof (wf_size_bounds t d2' Hwf Hd2) as Hn2. fold n2 in Hn2.
  assert (Hsize :
    (if 0 <=? offset
     then Z.max (Z.min n1 (Int64.sub n2 offset)) 0
     else Z.max (Z.min (Int64.add n1 offset) n2) 0) = Z.max len 0).
  { unfold len. destruct (Z.leb_spec 0 offset).
    - unfold Int64.sub. rewrite wrap_representable; [done|].
      revert Hoff. int64_unfold. lia.
    - unfold Int64.add. rewrite wrap_representable; [done|].
      revert Hoff. int64_unfold. lia. }
  clearbody len.
  unfold diagonal. rewrite H1, H2. cbn [bind].
  destruct (Z.eqb_spec d1' d2'); [done|].
  rewrite !size_normalised, !stride_normalised by done. cbn [bind].
  fold n1 n2 s1 s2. rewrite Hsize. unfold USE_TH_SIZE_ZERO_DIM.
  cbn [negb andb]. split.
  - intros Hle. destruct (Z.ltb_spec 0 (Z.max len 0)); [lia|done].
  - intros Hpos. destruct (Z.ltb_spec 0 (Z.max len 0)); [|lia].
    cbn [negb]. destruct (Z.eqb_spec (Z.max len 0) 0); [lia|].
    unfold as_strided3, erase, push_back.
    by rewrite (Z.max_l len 0) by lia.
Qed.

(** Property X17. [diagonal] needs two different dimensions and a diagonal
    with entries, so in particular a handle of rank 2 at least. The length
    of the diagonal is [min(size1, size2 - offset)] for [offset >= 0] and
    [min(size1 + offset, size2)] for [offset < 0]; when it is not positive
    the call fails. Otherwise the view has rank one less than the source:
    the two dimensions are removed and one of the length of the diagonal is
    appended, and entry [i] of it is entry [(i, i + offset)], respectively
    [(i - offset, i)], of the two dimensions, which lies within their
    sizes. *)
Theorem diagonal_geometry (t : Tensor) (offset d1 d2 d1' d2' : Z) :
  wf_tensor t -> Int64.representable offset ->
  maybe_wrap_dim d1 (dim t) = Ok d1' -> maybe_wrap_dim d2 (dim t) = Ok d2' ->
  let n1 := sizes t !!! Z.to_nat d1' in
  let n2 := sizes t !!! Z.to_nat d2' in
  let len := if 0 <=? offset then Z.min n1 (n2 - offset)
             else Z.min (n1 + offset) n2 in
  (d1' = d2' -> fails (diagonal t offset d1 d2)) /\
  (dim t < 2 -> fails (diagonal t offset d1 d2)) /\
  (d1' <> d2' -> len <= 0 -> fails (diagonal t offset d1 d2)) /\
  (d1' <> d2' -> 0 < len ->
   exists u, diagonal t offset d1 d2 = Ok u /\
     dim u = dim t - 1 /\
     sizes u = delete (Z.to_nat (Z.min d1' d2'))
                 (delete (Z.to_nat (Z.max d1' d2')) (sizes t)) ++ [len] /\
     forall i, 0 <= i < len ->
       0 <= (if 0 <=? offset then i else i - offset) < n1 /\
       0 <= (if 0 <=? offset then i + offset else i) < n2).
Proof.
  intros Hwf Hoff H1 H2 n1 n2 len.
  destruct (maybe_wrap_dim_Ok _ _ _ H1) as [Hr1 _].
  destruct (maybe_wrap_dim_Ok _ _ _ H2) as [Hr2 _].
  assert (Heq : d1' = d2' -> fails (diagonal t offset d1 d2)).
  { intros ->. unfold diagonal. rewrite H1, H2. cbn [bind].
    rewrite Z.eqb_refl. by eexists. }
  split; [done|]. split.
  { intros Hrank. apply Heq. lia. }
  split.
  - intros Hne Hle. eexists.
    by apply (proj1 (diagonal_cases t offset d1 d2 d1' d2' Hwf Hoff H1 H2 Hne)).
  - intros Hne Hpos.
    destruct (diagonal_cases t offset d1 d2 d1' d2' Hwf Hoff H1 H2 Hne)
      as [_ Hok].
    eexists. split; [by apply Hok|]. cbn [sizes].
    assert (Hd1 : 0 <= d1' < dim t) by lia.
    assert (Hd2 : 0 <= d2' < dim t) by lia.
    split; [|split; [done|]].
    + unfold dim in *. cbn [sizes].
      rewrite length_app, !length_delete; cbn [length].
      * lia.
      * apply lookup_lt_is_Some. lia.
      * apply lookup_lt_is_Some. rewrite length_delete; [lia|].
        apply lookup_lt_is_Some. lia.
    + intros i Hi. unfold len in Hi.
      pose proof (wf_size_bounds t d1' Hwf Hd1) as Hb1.
      pose proof (wf_size_bounds t d2' Hwf Hd2) as Hb2.
      fold n1 in Hb1. fold n2 in Hb2. clearbody n1 n2.
      destruct (Z.leb_spec 0 offset); lia.
Qed.

Lemma diagonal_geometry_witness :
  exists u, diagonal t53 1 0 1 = Ok u /\ dim u = dim t53 - 1 /\
    sizes u = [2] /\
    forall i, 0 <= i < 2 -> 0 <= i < 5 /\ 0 <= i + 1 < 3.
Proof.
  destruct (diagonal_geometry t53 1 0 1 0 1 wf_t53
              ltac:(cbv -[Z.le Z.lt]; lia) eq_refl eq_refl)
    as (_ & _ & _ & H).
  exact (H ltac:(discriminate) ltac:(cbv -[Z.le Z.lt]; lia)).
Defined.

(** Property X18. The view [diagonal] returns addresses the diagonal: at a
    multi-index ending in [i] it reads the element of the source that has
    the other coordinates in their places and [(i, i + offset)],
    respectively [(i - offset, i)], at the two dimensions (the offset and
    the stride of the view being exact in [int64_t]). *)
Theorem diagonal_element (t : Tensor) (offset d1 d2 d1' d2' : Z)
    (multi : list Z) (i : Z) :
  wf_tensor t -> Int64.representable offset ->
  maybe_wrap_dim d1 (dim t) = Ok d1' -> maybe_wrap_dim d2 (dim t) = Ok d2' ->
  d1' <> d2' ->
  let n1 := sizes t !!! Z.to_nat d1' in
  let n2 := sizes t !!! Z.to_nat d2' in
  let s1 := strides t !!! Z.to_nat d1' in
  let s2 := strides t !!! Z.to_nat d2' in
  let row := if 0 <=? offset then i else i - offset in
  let col := if 0 <=? offset then i + offset else i in
  0 < (if 0 <=? offset then Z.min n1 (n2 - offset)
       else Z.min (n1 + offset) n2) ->
  Int64.representable (s1 + s2) ->
  Int64.representable (storage_offset t + (row - i) * s1 + (col - i) * s2) ->
  Z.of_nat (length multi) = dim t - 2 ->
  exists u, diagonal t offset d1 d2 = Ok u /\
    element_offset u (multi ++ [i])
    = element_offset t
        (insert_at (insert_at multi (Z.min d1' d2')
                      (if d1' <? d2' then row else col))
                   (Z.max d1' d2') (if d1' <? d2' then col else row)).
Proof.
  intros Hwf Hoff H1 H2 Hne n1 n2 s1 s2 row col Hpos Hs Hexact Hlen.
  destruct (maybe_wrap_dim_Ok _ _ _ H1) as [Hr1 _].
  destruct (maybe_wrap_dim_Ok _ _ _ H2) as [Hr2 _].
  assert (Hd1 : 0 <= d1' < dim t) by lia.
  assert (Hd2 : 0 <= d2' < dim t) by lia.
  destruct (diagonal_cases t offset d1 d2 d1' d2' Hwf Hoff H1 H2 Hne)
    as [_ Hok].
  eexists. split; [by apply Hok|].
  pose proof Hwf as (_ & Hl & _).
  unfold element_offset, insert_at. cbn [strides storage_offset].
  fold s1 s2.
  set (mn := Z.min d1' d2'). set (mx := Z.max d1' d2').
  assert (Hmn : (Z.to_nat mn < Z.to_nat mx)%nat) by lia.
  assert (Hmx : (Z.to_nat mx < length (strides t))%nat)
    by (unfold dim in *; lia).
  assert (Hdl : length (delete (Z.to_nat mx) (strides t))
                = (length (strides t) - 1)%nat).
  { rewrite length_delete; [lia|]. by apply lookup_lt_is_Some. }
  rewrite sum_zip_snoc.
  2:{ rewrite length_delete; [unfold dim in *; lia|].
      apply lookup_lt_is_Some. lia. }
  rewrite sum_zip_insert.
  2:{ rewrite length_app, length_take, length_cons, length_drop.
      unfold dim in *. lia. }
  2:{ done. }
  rewrite sum_zip_insert by (unfold dim in *; lia).
  rewrite lookup_total_delete_lt by done.
  change (Int64.add s1 s2) with (Int64.wrap (s1 + s2)).
  rewrite (wrap_representable _ Hs).
  unfold row, col in *.
  destruct (Z.leb_spec 0 offset).
  - rewrite add_mul_exact
      by (replace (storage_offset t + offset * s2)
            with (storage_offset t + (i - i) * s1 + (i + offset - i) * s2)
            by ring; done).
    unfold mn, mx. destruct (Z.ltb_spec d1' d2').
    + rewrite Z.min_l, Z.max_r by lia. unfold s1, s2. ring.
    + rewrite Z.min_r, Z.max_l by lia. unfold s1, s2. ring.
  - rewrite sub_mul_exact
      by (replace (storage_offset t - offset * s1)
            with (storage_offset t + (i - offset - i) * s1 + (i - i) * s2)
            by ring; done).
    unfold mn, mx. destruct (Z.ltb_spec d1' d2').
    + rewrite Z.min_l, Z.max_r by lia. unfold s1, s2. ring.
    + rewrite Z.min_r, Z.max_l by lia. unfold s1, s2. ring.
Qed.

Lemma diagonal_element_witness :
  exists u, diagonal t53 (-2) 0 1 = Ok u /\
    element_offset u ([] ++ [1]) = element_offset t53 [1 - -2; 1].
Proof.
  apply (diagonal_element t53 (-2) 0 1 0 1 [] 1 wf_t53);
    first [exact eq_refl | discriminate | cbv -[Z.le Z.lt]; lia].
Defined.

(** ** split and chunk *)

(** [split] on a dimension with entries, as one equation. *)
Lemma split_Ok (t : Tensor) (split_size d d' : Z) :
  wf_tensor t -> Int64.representable split_size ->
  0 < dim t -> maybe_wrap_dim d (dim t) = Ok d' ->
  let n := sizes t !!! Z.to_nat d' in
  0 < split_size -> 0 < n ->
  n <= split_size \/ n + split_size - 1 <= Int64.max_signed ->
  split t split_size d
  = Ok (consecutive t d' 0
          (part_lengths n split_size (ceil_div n split_size))).
Proof.
  intros Hwf Hrep Hpos Hd n Hss Hnpos Hfit.
  pose proof (size_bounds_n t d d' Hwf Hpos Hd) as Hn. fold n in Hn.
  pose proof (ceil_div_spec n split_size Hss) as Hceil.
  pose proof (ceil_div_pos n split_size Hnpos Hss) as Hparts.
  set (parts := ceil_div n split_size) in *.
  unfold split.
  destruct (Z.eqb_spec (dim t) 0); [lia|].
  destruct (Z.leb_spec 0 split_size); [|lia]. cbn [negb].
  rewrite (size_Ok _ _ _ Hd). cbn [bind]. fold n.
  destruct (Z.ltb_spec 0 split_size); [|lia]. cbn [orb negb].
  destruct (Z.eqb_spec split_size 0); [lia|]. cbn [negb].
  rewrite num_splits_ceil by (int64_unfold; lia). fold parts.
  rewrite last_split_size_exact by (int64_unfold; lia).
  rewrite (split_loop_parts t d d' split_size Hwf Hpos Hd
             (n - split_size * (parts - 1)) parts);
    [|done|lia|fold n; lia|lia|lia].
  destruct (Z.to_nat parts) as [|k] eqn:Hk; [lia|].
  unfold part_lengths.
  replace (Z.to_nat (parts - 1)) with k by lia. done.
Qed.

Lemma part_lengths_positive n split_size parts :
  0 < split_size -> 0 < n - split_size * (parts - 1) ->
  Forall (fun x => 0 < x) (part_lengths n split_size parts).
Proof.
  intros Hss Hlast. unfold part_lengths. apply Forall_app. split.
  - by apply Forall_replicate.
  - by repeat constructor.
Qed.

(** Property X19. [split] is [split_with_sizes] on the lengths of its
    parts: for a positive [split_size] on a dimension with entries, both
    calls return the same views, in the same order. *)
Theorem split_is_split_with_sizes (t : Tensor) (split_size d d' : Z) :
  wf_tensor t -> Int64.representable split_size ->
  0 < dim t -> maybe_wrap_dim d (dim t) = Ok d' ->
  let n := sizes t !!! Z.to_nat d' in
  0 < split_size -> 0 < n ->
  n <= split_size \/ n + split_size - 1 <= Int64.max_signed ->
  succeeds (split t split_size d) /\
  split t split_size d
  = split_with_sizes t
      (part_lengths n split_size (ceil_div n split_size)) d.
Proof.
  intros Hwf Hrep Hpos Hd n Hss Hnpos Hfit.
  rewrite (split_Ok t split_size d d') by done. fold n.
  split; [by eexists|].
  pose proof (ceil_div_spec n split_size Hss) as Hceil.
  pose proof (ceil_div_pos n split_size Hnpos Hss) as Hparts.
  set (parts := ceil_div n split_size) in *.
  unfold split_with_sizes.
  destruct (Z.eqb_spec (dim t) 0); [lia|].
  rewrite (size_Ok _ _ _ Hd). cbn [bind]. fold n.
  rewrite (split_with_sizes_loop_complete t d d' Hwf Hpos Hd);
    [| lia | apply part_lengths_positive; lia
     | fold n; rewrite part_lengths_sum by lia; lia].
  cbn [bind]. rewrite part_lengths_sum, Z.add_0_l, Z.eqb_refl by lia. done.
Qed.

Lemma split_is_split_with_sizes_witness :
  succeeds (split t53 2 0) /\
  split t53 2 0 = split_with_sizes t53 (part_lengths 5 2 (ceil_div 5 2)) 0.
Proof.
  apply (split_is_split_with_sizes t53 2 0 0 wf_t53);
    first [exact eq_refl | by apply (bool_decide_unpack _) | right; cbv -[Z.le Z.lt]; lia
          | cbv -[Z.le Z.lt]; lia].
Defined.

(** Property X20. [chunk] fails on a handle of rank 0 and for
    [chunks <= 0]. On a dimension with entries, when [size + chunks - 1]
    and [size + ceil(size / chunks) - 1] are both [int64_t] values, it
    splits into parts of length [ceil(size / chunks)], the last one shorter
    when that does not divide the size: this gives at least one and at most
    [chunks] parts, whose lengths add up to the size. *)
Theorem chunk_parts (t : Tensor) (chunks d : Z) :
  wf_tensor t -> Int64.representable chunks ->
  (dim t = 0 -> chunk t chunks d = Err ZeroDimTensorError) /\
  (0 < dim t -> chunks <= 0 -> chunk t chunks d = Err InvalidSplitSize) /\
  (forall d', 0 < dim t -> maybe_wrap_dim d (dim t) = Ok d' -> 0 < chunks ->
     let n := sizes t !!! Z.to_nat d' in
     let split_size := ceil_div n chunks in
     let parts := ceil_div n split_size in
     0 < n -> n + chunks - 1 <= Int64.max_signed ->
     n + split_size - 1 <= Int64.max_signed ->
     chunk t chunks d
     = Ok (consecutive t d' 0 (part_lengths n split_size parts)) /\
     1 <= parts <= chunks /\
     Z.of_nat (length (part_lengths n split_size parts)) = parts /\
     sum_list (part_lengths n split_size parts) = n).
Proof.
  intros Hwf Hrep. split; [|split].
  - intros H0. unfold chunk. by rewrite H0.
  - intros Hpos Hneg. unfold chunk.
    destruct (Z.eqb_spec (dim t) 0); [lia|].
    by destruct (Z.leb_spec chunks 0); [|lia].
  - intros d' Hpos Hd Hchunks n split_size parts Hnpos Hfit1 Hfit2.
    pose proof (size_bounds_n t d d' Hwf Hpos Hd) as Hn. fold n in Hn.
    pose proof (ceil_div_spec n chunks Hchunks) as Hc1.
    pose proof (ceil_div_pos n chunks Hnpos Hchunks) as Hc2.
    fold split_size in Hc1, Hc2.
    pose proof (ceil_div_spec n split_size ltac:(lia)) as Hp1.
    pose proof (ceil_div_pos n split_size Hnpos ltac:(lia)) as Hp2.
    fold parts in Hp1, Hp2.
    assert (Hle : split_size <= n) by nia.
    assert (Hss : Int64.div (Int64.sub (Int64.add n chunks) 1) chunks
                  = split_size).
    { unfold Int64.div, Int64.sub, Int64.add. rewrite wrap_sub_wrap_l.
      rewrite (wrap_representable (n + chunks - 1)) by (int64_unfold; lia).
      rewrite Z.quot_div_nonneg, ceil_div_round_up by lia.
      fold split_size. apply wrap_representable. int64_unfold. lia. }
    unfold chunk.
    destruct (Z.eqb_spec (dim t) 0); [lia|].
    destruct (Z.leb_spec chunks 0); [lia|].
    rewrite (size_Ok _ _ _ Hd). cbn [bind]. fold n. rewrite Hss.
    destruct (Z.eqb_spec split_size 0); [lia|]. cbn [andb].
    rewrite (split_Ok t split_size d d')
      by (done || lia || (right; done) || (int64_unfold; lia)).
    fold n parts. split; [done|].
    split; [split; [lia|nia]|].
    split.
    + unfold part_lengths. rewrite length_app, length_replicate. cbn. lia.
    + apply part_lengths_sum. lia.
Qed.

Lemma chunk_parts_witness :
  chunk t53 3 0 = Ok (consecutive t53 0 0 [2; 2; 1]) /\
  1 <= 3 <= 3 /\ sum_list [2; 2; 1] = 5.
Proof.
  destruct (chunk_parts t53 3 0 wf_t53 ltac:(cbv -[Z.le Z.lt]; lia))
    as (_ & _ & H).
  destruct (H 0 ltac:(unfold dim; cbn; lia) eq_refl ltac:(lia)
              ltac:(cbv -[Z.le Z.lt]; lia) ltac:(cbv -[Z.le Z.lt]; lia)
              ltac:(cbv -[Z.le Z.lt]; lia)) as (Hok & Hparts & _ & Hsum).
  exact (conj Hok (conj Hparts Hsum)).
Defined.

(** The path of lines 49-52, which [chunk] takes on a dimension without
    entries to return [chunks] parts of length 0, ends in the [narrow] of
    the first of them. *)
Lemma chunk_rejects_empty_dimension :
  chunk t_empty 2 0 = Err IndexOutOfRange.
Proof. reflexivity. Qed.

(** Property X25. [split] fails on a handle of rank 0, for
    [split_size < 0], and for [split_size = 0] on a dimension of size other
    than 0. For [split_size > 0] on a dimension with entries, when
    [size + split_size - 1] is an [int64_t] value, it gives
    [ceil(size / split_size) >= 1] consecutive narrowed views: every part but
    the last has length [split_size], the last has length
    [size - split_size * (parts - 1)], between 1 and [split_size]; when
    [split_size] divides the size all parts have length [split_size]. *)
Theorem split_part_lengths (t : Tensor) (split_size d : Z) :
  wf_tensor t -> Int64.representable split_size ->
  (dim t = 0 -> split t split_size d = Err ZeroDimTensorError) /\
  (0 < dim t -> split_size < 0 ->
     split t split_size d = Err InvalidSplitSize) /\
  (forall d', 0 < dim t -> maybe_wrap_dim d (dim t) = Ok d' ->
     let n := sizes t !!! Z.to_nat d' in
     (split_size = 0 -> n <> 0 ->
        split t split_size d = Err InvalidSplitSize) /\
     (0 < split_size -> 0 < n ->
      n + split_size - 1 <= Int64.max_signed ->
        let parts := ceil_div n split_size in
        let last := n - split_size * (parts - 1) in
        1 <= parts /\ 0 < last <= split_size /\
        split t split_size d
        = Ok (consecutive t d' 0 (part_lengths n split_size parts)) /\
        Z.of_nat (length (part_lengths n split_size parts)) = parts /\
        ((split_size | n) ->
           part_lengths n split_size parts
           = replicate (Z.to_nat parts) split_size))).
Proof.
  intros Hwf Hrep.
  destruct (split_cases t split_size d Hwf Hrep) as (H0 & Hneg & Hcases).
  split; [done|]. split; [done|].
  intros d' Hpos Hd n.
  destruct (Hcases d' Hpos Hd) as (Hzero & _ & Hparts).
  split; [done|].
  intros Hss Hn Hfit. apply Hparts; [done|done|by right].
Qed.

Lemma split_part_lengths_witness :
  split t53 2 0 = Ok (consecutive t53 0 0 [2; 2; 1]).
Proof.
  destruct (split_part_lengths t53 2 0 wf_t53 ltac:(cbv -[Z.le Z.lt]; lia))
    as (_ & _ & H).
  destruct (H 0 ltac:(unfold dim; cbn; lia) eq_refl) as (_ & Hparts).
  destruct (Hparts ltac:(lia) ltac:(cbv -[Z.le Z.lt]; lia)
              ltac:(cbv -[Z.le Z.lt]; lia)) as (_ & _ & Hsplit & _).
  exact Hsplit.
Defined.

(** Property X26. On a list without zero entries, [split_with_sizes] on a
    handle of rank > 0 succeeds exactly when the entries are all >= 0 and
    sum to [size(dim)], and then gives one narrowed view per entry, each
    starting where the previous one ends. It fails with ShapeMismatch
    exactly when the entries are all >= 0 and sum to less than [size(dim)];
    when they sum to more, the entry that overshoots is rejected by
    [narrow] with IndexOutOfRange. A list with a negative entry fails. *)
Theorem split_with_sizes_positive_entries (t : Tensor) (l : list Z)
    (d d' : Z) :
  wf_tensor t -> Forall Int64.representable l ->
  0 < dim t -> maybe_wrap_dim d (dim t) = Ok d' ->
  Forall (fun x => x <> 0) l ->
  let n := sizes t !!! Z.to_nat d' in
  (forall views,
     split_with_sizes t l d = Ok views <->
     Forall (fun x => 0 <= x) l /\ sum_list l = n /\
     views = consecutive t d' 0 l) /\
  (split_with_sizes t l d = Err ShapeMismatch <->
   Forall (fun x => 0 <= x) l /\ sum_list l < n) /\
  (Forall (fun x => 0 <= x) l -> n < sum_list l ->
   split_with_sizes t l d = Err IndexOutOfRange) /\
  (Exists (fun x => x < 0) l -> fails (split_with_sizes t l d)).
Proof.
  intros Hwf Hrep Hpos Hd Hnz n.
  destruct (split_with_sizes_cases t l d d' Hwf Hrep Hpos Hd)
    as (Hok & Hmis & Hidx & Hneg). fold n in Hok, Hmis, Hidx.
  assert (Hiff : Forall (fun x => 0 <= x) l <-> Forall (fun x => 0 < x) l).
  { split; intros Hall.
    - apply Forall_forall. intros x Hx.
      pose proof (proj1 (Forall_forall _ _) Hall x Hx) as H1.
      pose proof (proj1 (Forall_forall _ _) Hnz x Hx) as H2.
      cbv beta in H1, H2. lia.
    - eapply Forall_impl; [exact Hall|]. cbv beta. lia. }
  split; [|split; [|split]].
  - intros views. rewrite Hiff. apply Hok.
  - rewrite Hiff. apply Hmis.
  - intros Hall Hover. apply Hidx; [done|]. intros [_ Hle]. lia.
  - done.
Qed.

Lemma split_with_sizes_positive_entries_witness :
  split_with_sizes t53 [3; 2] 0
  = Ok [View {| sizes := [3; 3]; strides := [3; 1]; storage_offset := 7;
                is_sparse := false |};
        View {| sizes := [2; 3]; strides := [3; 1]; storage_offset := 16;
                is_sparse := false |}] /\
  split_with_sizes t53 [3; 1] 0 = Err ShapeMismatch /\
  split_with_sizes t53 [3; 3] 0 = Err IndexOutOfRange.
Proof.
  assert (Hpos : 0 < dim t53) by (unfold dim; cbn; lia).
  assert (Hrep : forall a b, Int64.representable a -> Int64.representable b ->
                 Forall Int64.representable [a; b])
    by (intros a b Ha Hb; constructor;
        [exact Ha | constructor; [exact Hb | constructor]]).
  assert (H1 : Int64.representable 1) by (int64_unfold; lia).
  assert (H2 : Int64.representable 2) by (int64_unfold; lia).
  assert (H3 : Int64.representable 3) by (int64_unfold; lia).
  split; [|split].
  - destruct (split_with_sizes_positive_entries t53 [3; 2] 0 0 wf_t53
                (Hrep 3 2 H3 H2) Hpos eq_refl
                ltac:(repeat constructor; lia)) as (H & _).
    apply H. split; [repeat constructor; lia|]. split; reflexivity.
  - destruct (split_with_sizes_positive_entries t53 [3; 1] 0 0 wf_t53
                (Hrep 3 1 H3 H1) Hpos eq_refl
                ltac:(repeat constructor; lia)) as (_ & H & _).
    apply H. split; [repeat constructor; lia|]. cbv -[Z.le Z.lt]. lia.
  - destruct (split_with_sizes_positive_entries t53 [3; 3] 0 0 wf_t53
                (Hrep 3 3 H3 H3) Hpos eq_refl
                ltac:(repeat constructor; lia)) as (_ & _ & H & _).
    apply H; [repeat constructor; lia|]. cbv -[Z.le Z.lt]. lia.
Defined.

(** ** infer_size beyond the valid requests *)

(** The validation loop rejects a second free dimension and an entry
    below -1. *)
Lemma infer_size_loop_invalid (shape : list Z) (d acc : Z) (inf : option Z) :
  ~ (Forall (fun s => s = -1 \/ 0 <= s) shape /\
     (free_count shape + match inf with Some _ => 1 | None => 0 end
      <= 1)%nat) ->
  infer_size_loop shape d acc inf = Err InvalidShapeDimension.
Proof.
  revert d acc inf. induction shape as [|s shape IH]; intros d acc inf Hbad.
  - destruct Hbad. split; [constructor|]. unfold free_count. cbn.
    destruct inf; lia.
  - cbn [infer_size_loop]. unfold free_count in *.
    destruct (Z.eqb_spec s (-1)) as [->|Hs].
    + destruct inf as [j|]; [done|].
      apply IH. intros [Hall Hcount]. apply Hbad. split.
      * constructor; [by left|done].
      * rewrite filter_cons_True by done. cbn [length] in *. lia.
    + destruct (Z.leb_spec 0 s); [|done].
      apply IH. intros [Hall Hcount]. apply Hbad. split.
      * constructor; [by right|done].
      * by rewrite filter_cons_False.
Qed.

Lemma infer_size_invalid (shape : list Z) (numel : Z) :
  ~ valid_request shape -> infer_size shape numel = Err InvalidShapeDimension.
Proof.
  intros Hbad. unfold infer_size.
  rewrite infer_size_loop_invalid; [done|].
  intros [Hall Hcount]. apply Hbad. split; [lia|done].
Qed.

(** Property X21. [infer_size] answers a request with two free dimensions,
    or with an entry below -1, by InvalidShapeDimension, whatever the
    element count; no other request fails that way. *)
Theorem infer_size_rejects_invalid (shape : list Z) (numel : Z) :
  infer_size shape numel = Err InvalidShapeDimension <-> ~ valid_request shape.
Proof.
  split; [|apply infer_size_invalid].
  intros Herr Hvalid. unfold infer_size in Herr.
  destruct (infer_size_loop_valid shape Hvalid)
    as [(_ & _ & Hloop)|(i & _ & _ & Hloop)];
    rewrite Hloop in Herr; cbn [bind] in Herr;
    destruct (_ || _); try discriminate;
    unfold infer_size_res in Herr;
    try destruct (_ =? 0); try discriminate;
    cbn [bind] in Herr; by destruct (_ && _).
Qed.

(** Property X22. A shape [infer_size] returns for a positive element
    count is a shape of that many elements: it has the length of the
    request, keeps its entries other than -1, has no negative entry, and
    the product of its entries, taken on [int64_t], is the element
    count. *)
Theorem infer_size_element_count (shape r : list Z) (numel : Z) :
  0 < numel <= Int64.max_signed ->
  infer_size shape numel = Ok r ->
  length r = length shape /\
  Forall (fun s => 0 <= s) r /\
  (forall (j : nat) s, shape !! j = Some s -> s <> -1 -> r !! j = Some s) /\
  Int64.wrap (prod_intlist r) = numel.
Proof.
  intros Hnumel Hok.
  assert (Hrep : Int64.representable numel) by (int64_unfold; lia).
  destruct (decide (valid_request shape)) as [Hvalid|Hbad];
    [|by rewrite infer_size_invalid in Hok].
  destruct (Z.eqb_spec numel 0) as [|_]; [lia|].
  destruct (valid_request_cases shape Hvalid)
    as [[H0 Hall]|(pre & post & -> & Hpre & Hpost)].
  - destruct (infer_size_no_free shape numel Hvalid H0) as [Hyes Hno].
    destruct (Z.eq_dec (newsize_of shape) numel) as [Heq|Hne];
      [|rewrite (Hno Hne) in Hok; discriminate].
    rewrite (Hyes Heq) in Hok.
    destruct (Z.eqb_spec numel 0); [lia|]. injection Hok as <-.
    repeat split; try done.
    unfold newsize_of in Heq. by rewrite known_sizes_nonneg in Heq.
  - assert (Hi : (pre ++ -1 :: post) !! length pre = Some (-1))
      by by rewrite list_lookup_middle.
    destruct (infer_size_one_free _ numel (length pre)
                ltac:(lia) Hvalid Hi) as [Hyes Hno].
    set (newsize := newsize_of (pre ++ -1 :: post)) in *.
    destruct (decide (0 < newsize /\ Z.rem numel newsize = 0))
      as [[Hpos Hrem]|Hne]; [|rewrite (Hno Hne) in Hok; discriminate].
    destruct (Hyes (conj Hpos Hrem)) as [_ Hres]. rewrite Hres in Hok.
    destruct (Z.eqb_spec numel 0); [lia|]. injection Hok as <-.
    rewrite insert_app_r_alt, Nat.sub_diag by done.
    change (<[0%nat := Z.quot numel newsize]> (-1 :: post))
      with (Z.quot numel newsize :: post).
    assert (Hq : 0 <= Z.quot numel newsize) by (apply Z.quot_pos; lia).
    split; [by rewrite !length_app|].
    split; [apply Forall_app; split; [done|by constructor]|].
    split.
    + intros j s Hj Hs.
      destruct (Nat.lt_total j (length pre)) as [Hlt|[->|Hgt]].
      * rewrite lookup_app_l in Hj |- * by done. done.
      * rewrite list_lookup_middle in Hj by done. congruence.
      * rewrite lookup_app_r in Hj |- * by lia.
        destruct (j - length pre)%nat eqn:Hk; [lia|done].
    + rewrite prod_intlist_app, prod_intlist_cons.
      unfold newsize, newsize_of in Hpos, Hrem |- *.
      rewrite known_sizes_free in * by done.
      rewrite prod_intlist_app in *.
      set (p := prod_intlist pre * prod_intlist post) in *.
      replace (prod_intlist pre * (Z.quot numel (Int64.wrap p)
                                   * prod_intlist post))
        with (p * Z.quot numel (Int64.wrap p)) by (unfold p; ring).
      rewrite <- wrap_mul_wrap_l.
      pose proof (Z.quot_rem' numel (Int64.wrap p)) as Hqr.
      rewrite Hrem, Z.add_0_r in Hqr. rewrite <- Hqr.
      by apply wrap_representable.
Qed.

Lemma infer_size_element_count_witness :
  length [2; 3; 4] = length [2; -1; 4] /\
  Forall (fun s => 0 <= s) [2; 3; 4] /\
  (forall (j : nat) s, [2; -1; 4] !! j = Some s -> s <> -1 ->
                       [2; 3; 4] !! j = Some s) /\
  Int64.wrap (prod_intlist [2; 3; 4]) = 24.
Proof.
  apply (infer_size_element_count [2; -1; 4] [2; 3; 4] 24);
    [cbv -[Z.le Z.lt]; lia | exact eq_refl].
Defined.

(** ** flatten *)

Lemma flatten_prefix_loop_spec (t : Tensor) (n : nat) (i : Z)
    (shape : list Z) :
  0 <= i -> i + Z.of_nat n <= dim t ->
  flatten_prefix_loop t n i shape
  = Ok (shape ++ take n (drop (Z.to_nat i) (sizes t))).
Proof.
  revert i shape. induction n as [|n IH]; intros i shape Hi Hfit.
  - cbn. by rewrite app_nil_r.
  - cbn [flatten_prefix_loop].
    rewrite size_normalised by lia. cbn [bind].
    rewrite IH by lia. unfold push_back. rewrite <- app_assoc. do 2 f_equal.
    rewrite (drop_S (sizes t) (sizes t !!! Z.to_nat i) (Z.to_nat i)).
    + cbn [take app]. do 3 f_equal. lia.
    + apply list_lookup_lookup_total_lt. unfold dim in *. lia.
Qed.

Lemma prod_intlist_pos (l : list Z) :
  Forall (fun s => 1 <= s) l -> 1 <= prod_intlist l.
Proof.
  induction 1 as [|x l Hx _ IH]; [by rewrite prod_intlist_nil|].
  rewrite prod_intlist_cons. nia.
Qed.

Lemma prod_intlist_pos_entries (l : list Z) :
  Forall (fun s => 0 <= s) l -> 0 < prod_intlist l ->
  Forall (fun s => 1 <= s) l.
Proof.
  induction 1 as [|x l Hx _ IH]; [constructor|].
  rewrite prod_intlist_cons. intros Hpos.
  assert (0 < x).
  { destruct (Z.eq_dec x 0) as [->|]; [rewrite Z.mul_0_l in Hpos|]; lia. }
  constructor; [lia|]. apply IH. by apply (Z.mul_pos_cancel_l x).
Qed.

Lemma valid_request_nonneg (l : list Z) :
  Forall (fun s => 0 <= s) l -> valid_request l.
Proof.
  intros H. split; [rewrite free_count_nonneg by done; lia|].
  eapply Forall_impl; [exact H|]. cbv beta. lia.
Qed.

(** Property X23. [flatten] of a single dimension is the handle itself, and
    [flatten] with [start_dim] after [end_dim] fails. Otherwise [flatten]
    is [reshape] to the sizes before [start_dim], then the product of the
    sizes from [start_dim] to [end_dim], then the sizes after [end_dim]: a
    shape of rank [rank - (end_dim - start_dim)] whose product, on
    [int64_t], is the element count of the handle, and which [infer_size]
    accepts unchanged for a positive element count. *)
Theorem flatten_shape_request (reshape : Tensor -> list Z -> result Tensor)
    (t : Tensor) (start_dim end_dim s e : Z) :
  wf_tensor t ->
  maybe_wrap_dim start_dim (dim t) = Ok s ->
  maybe_wrap_dim end_dim (dim t) = Ok e ->
  (s = e -> flatten reshape t start_dim end_dim = Ok t) /\
  (e < s -> fails (flatten reshape t start_dim end_dim)) /\
  (s < e ->
   let shape :=
     take (Z.to_nat s) (sizes t)
     ++ [Int64.wrap (prod_intlist
                       (take (Z.to_nat (e - s + 1))
                             (drop (Z.to_nat s) (sizes t))))]
     ++ drop (Z.to_nat (e + 1)) (sizes t) in
   flatten reshape t start_dim end_dim = reshape t shape /\
   Z.of_nat (length shape) = dim t - (e - s) /\
   Int64.wrap (prod_intlist shape) = Int64.wrap (numel t) /\
   (0 < numel t <= Int64.max_signed ->
    infer_size shape (numel t) = Ok shape)).
Proof.
  intros Hwf Hs He.
  destruct (maybe_wrap_dim_Ok _ _ _ Hs) as [Hrs _].
  destruct (maybe_wrap_dim_Ok _ _ _ He) as [Hre _].
  split; [|split].
  - intros ->. unfold flatten. rewrite Hs, He. cbn [bind].
    rewrite Z.leb_refl, Z.eqb_refl. done.
  - intros Hlt. unfold flatten. rewrite Hs, He. cbn [bind].
    destruct (Z.leb_spec s e); [lia|]. by eexists.
  - intros Hlt shape. unfold flatten. rewrite Hs, He. cbn [bind].
    destruct (Z.leb_spec s e); [|lia]. cbn [negb].
    destruct (Z.eqb_spec s e); [lia|].
    assert (Hdim : e < dim t) by lia.
    pose proof Hwf as (Hrank & _).
    assert (Hlen : Int64.add (Int64.sub e s) 1 = e - s + 1).
    { unfold Int64.add, Int64.sub. rewrite wrap_add_wrap_l.
      apply wrap_representable. int64_unfold. lia. }
    unfold flatten_shape. rewrite Hlen.
    rewrite !flatten_prefix_loop_spec by lia. cbn [bind].
    rewrite flatten_prefix_loop_spec by lia.
    unfold push_back, slice_intlist. cbn [app bind].
    change (Z.to_nat 0) with 0%nat. rewrite drop_0.
    assert (Hshape :
      (take (Z.to_nat s) (sizes t)
       ++ [Int64.wrap (prod_intlist
                         (take (Z.to_nat (e - s + 1))
                               (drop (Z.to_nat s) (sizes t))))])
      ++ take (Z.to_nat (dim t - (e + 1)))
              (drop (Z.to_nat (e + 1)) (sizes t)) = shape).
    { unfold shape. rewrite <- app_assoc. do 2 f_equal.
      apply take_ge. rewrite length_drop. unfold dim. lia. }
    rewrite Hshape. split; [done|]. split.
    { unfold shape. rewrite !length_app, length_take, length_drop.
      cbn [length]. unfold dim in *. lia. }
    assert (Hprod : Int64.wrap (prod_intlist shape) = Int64.wrap (numel t)).
    2:{ split; [done|]. intros Hnumel.
        pose proof Hwf as (_ & _ & Hsizes & _).
        assert (Hone : Forall (fun s => 1 <= s) (sizes t)).
        { apply prod_intlist_pos_entries; [|unfold numel in Hnumel; lia].
          eapply Forall_impl; [exact Hsizes|]. cbv beta. lia. }
        pose proof (prod_intlist_pos _ (Forall_take _ (Z.to_nat s) _ Hone))
          as Ha.
        pose proof (prod_intlist_pos _
                      (Forall_take _ (Z.to_nat (e - s + 1)) _
                         (Forall_drop _ (Z.to_nat s) _ Hone))) as Hb.
        pose proof (prod_intlist_pos _ (Forall_drop _ (Z.to_nat (e + 1)) _
                                          Hone)) as Hc.
        assert (Hnum : numel t
                       = prod_intlist (take (Z.to_nat s) (sizes t))
                         * (prod_intlist
                              (take (Z.to_nat (e - s + 1))
                                    (drop (Z.to_nat s) (sizes t)))
                            * prod_intlist (drop (Z.to_nat (e + 1))
                                                 (sizes t)))).
        { unfold numel.
          rewrite <- (take_drop (Z.to_nat s) (sizes t)) at 1.
          rewrite <- (take_drop (Z.to_nat (e - s + 1))
                        (drop (Z.to_nat s) (sizes t))) at 1.
          rewrite drop_drop.
          replace (Z.to_nat s + Z.to_nat (e - s + 1))%nat
            with (Z.to_nat (e + 1)) by lia.
          by rewrite !prod_intlist_app. }
        assert (Hwb : Int64.wrap
                        (prod_intlist
                           (take (Z.to_nat (e - s + 1))
                                 (drop (Z.to_nat s) (sizes t))))
                      = prod_intlist
                          (take (Z.to_nat (e - s + 1))
                                (drop (Z.to_nat s) (sizes t)))).
        { apply wrap_representable. int64_unfold. nia. }
        assert (Hall : Forall (fun s => 0 <= s) shape).
        { unfold shape. rewrite Hwb. apply Forall_app. split.
          - eapply Forall_impl; [apply (Forall_take _ _ _ Hone)|].
            cbv beta. lia.
          - constructor; [lia|].
            eapply Forall_impl; [apply (Forall_drop _ _ _ Hone)|].
            cbv beta. lia. }
        destruct (infer_size_no_free shape (numel t)
                    (valid_request_nonneg _ Hall)
                    (free_count_nonneg _ Hall)) as [Hok _].
        rewrite Hok.
        - by destruct (Z.eqb_spec (numel t) 0); [lia|].
        - unfold newsize_of. rewrite known_sizes_nonneg, Hprod by done.
          apply wrap_representable. int64_unfold. lia. }
    + unfold shape, numel.
      rewrite <- (take_drop (Z.to_nat s) (sizes t)) at 4.
      rewrite <- (take_drop (Z.to_nat (e - s + 1))
                    (drop (Z.to_nat s) (sizes t))) at 2.
      rewrite drop_drop.
      replace (Z.to_nat s + Z.to_nat (e - s + 1))%nat
        with (Z.to_nat (e + 1)) by lia.
      rewrite !prod_intlist_app, prod_intlist_cons, prod_intlist_nil.
      set (a := prod_intlist (take (Z.to_nat s) (sizes t))).
      set (b := prod_intlist (take _ (drop _ _))).
      set (c := prod_intlist (drop _ _)).
      replace (a * (Int64.wrap b * 1 * c)) with (Int64.wrap b * (a * c))
        by ring.
      rewrite wrap_mul_wrap_l. f_equal. ring.
Qed.

Lemma flatten_shape_request_witness :
  flatten (fun self shape => Ok (as_strided self shape [1])) t53 0 (-1)
  = Ok (as_strided t53 [15] [1]) /\
  fails (flatten (fun self shape => Ok (as_strided self shape [1])) t53 1 0).
Proof.
  destruct (flatten_shape_request
              (fun self shape => Ok (as_strided self shape [1]))
              t53 0 (-1) 0 1 wf_t53 eq_refl eq_refl) as (_ & _ & H).
  destruct (flatten_shape_request
              (fun self shape => Ok (as_strided self shape [1]))
              t53 1 0 1 0 wf_t53 eq_refl eq_refl) as (_ & H' & _).
  split.
  - exact (proj1 (H ltac:(lia))).
  - exact (H' ltac:(lia)).
Defined.

(** ** stack *)

Lemma unsqueeze_rank (t u : Tensor) (d : Z) :
  unsqueeze t d = Ok u -> dim u = dim t + 1.
Proof.
  unfold unsqueeze, inferUnsqueezeGeometry.
  destruct (maybe_wrap_dim _ _) as [d'|]; [|discriminate]. cbn [bind].
  destruct (_ && _); [discriminate|]. cbn [bind].
  intros [= <-]. unfold dim, as_strided, as_strided3, insert_at. cbn [sizes].
  rewrite length_app, length_cons.
  pose proof (take_drop (Z.to_nat d') (sizes t)) as H.
  apply (f_equal length) in H. rewrite length_app in H. lia.
Qed.

Lemma get_stack_inputs_ranks (tensors us : list Tensor) (d : Z) :
  get_stack_inputs tensors d = Ok us ->
  Forall2 (fun t u => unsqueeze t d = Ok u /\ dim u = dim t + 1) tensors us.
Proof.
  revert us. induction tensors as [|t tensors IH]; intros us Hus.
  - injection Hus as <-. constructor.
  - cbn [get_stack_inputs] in Hus.
    destruct (unsqueeze t d) as [u|] eqn:Hu; [|discriminate].
    cbn [bind] in Hus.
    destruct (get_stack_inputs tensors d) as [us'|]; [|discriminate].
    injection Hus as <-. constructor; [|by apply IH].
    split; [done|]. by apply (unsqueeze_rank t u d).
Qed.

Lemma check_cat_no_zero_dim_Ok (tensors : list Tensor) :
  Forall (fun t => 0 < dim t) tensors -> check_cat_no_zero_dim tensors = Ok tt.
Proof.
  induction 1 as [|t tensors Ht _ IH]; [done|].
  cbn [check_cat_no_zero_dim]. by destruct (Z.eqb_spec (dim t) 0); [lia|].
Qed.

Lemma get_stack_inputs_Ok (tensors : list Tensor) (n d : Z) :
  0 <= d <= n ->
  Forall (fun t => wf_tensor t /\ numel t <> 0 /\ dim t = n) tensors ->
  succeeds (get_stack_inputs tensors d).
Proof.
  intros Hd. induction 1 as [|t tensors (Hwf & Hne & Hn) _ [us IH]].
  - by eexists.
  - cbn [get_stack_inputs].
    rewrite (unsqueeze_Ok t d d Hwf Hne)
      by (apply maybe_wrap_dim_id; lia).
    cbn [bind]. rewrite IH. by eexists.
Qed.

(** Property X24. [stack] never hands a tensor of rank 0 to the
    concatenation: every input of [cat] is an [unsqueeze] of a tensor of
    the list, of rank one more, so that the check of [cat] for tensors of
    rank 0 passes and [stack] is the concatenation of the unsqueezed
    tensors. On tensors with elements that all have the rank of the first,
    the inputs are built for every position [dim] that is valid for rank
    [rank + 1]. *)
Theorem stack_inputs (legacy_cat_wrap_dim : Z -> list Tensor -> result Z)
    (_cat : list Tensor -> Z -> result Tensor)
    (t0 : Tensor) (tensors : list Tensor) (d d' : Z) :
  dim t0 < Int64.max_signed ->
  maybe_wrap_dim d (dim t0 + 1) = Ok d' ->
  (forall us, get_stack_inputs (t0 :: tensors) d' = Ok us ->
     Forall2 (fun t u => unsqueeze t d' = Ok u /\ dim u = dim t + 1)
             (t0 :: tensors) us /\
     check_cat_no_zero_dim us = Ok tt /\
     stack legacy_cat_wrap_dim _cat (t0 :: tensors) d
     = let* d'' := legacy_cat_wrap_dim d' us in _cat us d'') /\
  (Forall (fun t => wf_tensor t /\ numel t <> 0 /\ dim t = dim t0)
          (t0 :: tensors) ->
   succeeds (get_stack_inputs (t0 :: tensors) d')).
Proof.
  intros Hrank Hd.
  destruct (maybe_wrap_dim_Ok _ _ _ Hd) as [Hr _].
  assert (Hnn : 0 <= dim t0) by (unfold dim; lia).
  split.
  - intros us Hus.
    pose proof (get_stack_inputs_ranks _ _ _ Hus) as Hranks.
    assert (Hcheck : check_cat_no_zero_dim us = Ok tt).
    { apply check_cat_no_zero_dim_Ok.
      clear Hus. induction Hranks as [|t u ts us' [_ Hu] _ IH];
        constructor; [|done].
      unfold dim in *. lia. }
    split; [done|]. split; [done|].
    unfold stack, cat.
    assert (Hadd : Int64.add (dim t0) 1 = dim t0 + 1).
    { apply wrap_representable. int64_unfold. lia. }
    rewrite Hadd, Hd. cbn [bind]. rewrite Hus. cbn [bind].
    by rewrite Hcheck.
  - apply (get_stack_inputs_Ok _ (dim t0)). lia.
Qed.

Lemma stack_inputs_witness :
  succeeds (get_stack_inputs [t53; t53] 2).
Proof.
  apply (proj2 (stack_inputs (fun d _ => Ok d) (fun _ _ => Err ShapeMismatch)
                  t53 [t53] (-1) 2 ltac:(cbv -[Z.le Z.lt]; lia) eq_refl)).
  repeat constructor; try exact wf_t53; discriminate.
Defined.
